(** * A diphone speech synthesiser (synth.py): embedding and properties

    The development follows the layout of [synth.py]:
    - [Float64]: the binary64 arithmetic behind [i / nr_of_values],
      [a * b] and [int(...)];
    - [Np]: the fragment of numpy the synthesiser uses (slices, views,
      [np.add], [np.split], [np.concatenate], [np.flip]);
    - [Py]: exceptions and the state-and-exception monad in which methods
      that mutate objects or print are written;
    - [Str]: the string methods used ([lower], [replace], [split],
      [lstrip], [translate]);
    - [Synth]: [smooth_end], [smooth_beg], [synthesise],
      [phones_to_diphones];
    - [Utterance]: [normalise_phrase], [normalise_dates], [get_phone_seq].

    Text is ASCII: a character is its code point, and [str.lower],
    [str.split], the class of digits and [string.punctuation] are
    modelled on the codes below 128.  Integers that become floats are
    below 2^53, where the conversion is exact. *)

From Stdlib Require Import ZArith List String Ascii Bool Lia.
From Stdlib Require Import Floats.SpecFloat.
From stdpp Require Import gmap strings list.

Local Open Scope Z_scope.

(** ** Binary64 arithmetic *)

Module Float64.

Definition prec : Z := 53.
Definition emax : Z := 1024.

(** [float(z)] for a Python or numpy integer (exact below 2^53). *)
Definition of_int (z : Z) : spec_float :=
  binary_normalize prec emax z 0 false.

(** [x / y] and [x * y] on floats, rounded to nearest even. *)
Definition div (x y : spec_float) : spec_float := SFdiv prec emax x y.
Definition mul (x y : spec_float) : spec_float := SFmul prec emax x y.

(** [int(x)]: truncation toward zero.  Python raises on nan and on
    infinities; no call site of the synthesiser reaches them (operands
    are 16-bit samples and factors in [0, 1)), and the value is 0 there. *)
Definition to_int (x : spec_float) : Z :=
  match x with
  | S754_finite s m e =>
      let v := match e with
               | Z0 => Zpos m
               | Zpos _ => Z.shiftl (Zpos m) e
               | Zneg p => Z.shiftr (Zpos m) (Zpos p)
               end in
      if s then - v else v
  | _ => 0
  end.

(** [i / n] on Python integers (true division). *)
Definition truediv (i n : Z) : spec_float := div (of_int i) (of_int n).

End Float64.

(** ** The numpy fragment *)

Module Np.

(** Modelled from the spec: [simpleaudio.Audio.nptype] is not among the
    sources; samples are signed integer amplitudes, taken here at the
    16-bit width of the wave files the inventory is loaded from. *)
Definition nptype_bits : Z := 16.

(** Wrap-around of integer arithmetic at [nptype]. *)
Definition wrap (z : Z) : Z :=
  (z + 2 ^ (nptype_bits - 1)) mod 2 ^ nptype_bits - 2 ^ (nptype_bits - 1).

(** A slice bound [i] of a sequence of length [len]: negative bounds
    count from the end, and every bound is clamped to [0, len]. *)
Definition clamp_index (len i : Z) : Z :=
  if i <? 0 then Z.max 0 (i + len) else Z.min i len.

(** [a[start:stop]], on arrays and on Python lists alike. *)
Definition slice {A} (start stop : Z) (a : list A) : list A :=
  let len := Z.of_nat (length a) in
  let lo := clamp_index len start in
  let hi := clamp_index len stop in
  take (Z.to_nat (hi - lo)) (drop (Z.to_nat lo) a).

(** [a[start:]] and [a[:stop]]. *)
Definition slice_from {A} (start : Z) (a : list A) : list A :=
  slice start (Z.of_nat (length a)) a.
Definition slice_to {A} (stop : Z) (a : list A) : list A :=
  slice 0 stop a.

(** First position of the view [a[start:]] inside [a]. *)
Definition view_from_base {A} (start : Z) (a : list A) : nat :=
  Z.to_nat (clamp_index (Z.of_nat (length a)) start).

(** Shape of [np.add(x, y)] on one-dimensional operands: equal lengths,
    or one operand of length 1 that is broadcast. *)
Definition broadcast_len (n m : nat) : option nat :=
  if decide (n = m) then Some n
  else if decide (n = 1%nat) then Some m
  else if decide (m = 1%nat) then Some n
  else None.

Definition stretch (a : list Z) (n : nat) : list Z :=
  if decide (length a = n) then a
  else match a with
       | [x] => replicate n x
       | _ => a
       end.

(** [np.add(x, y)]; [None] stands for the ValueError of operands that
    cannot be broadcast together. *)
Definition add (x y : list Z) : option (list Z) :=
  match broadcast_len (length x) (length y) with
  | Some n => Some (zip_with (fun a b => wrap (a + b)) (stretch x n) (stretch y n))
  | None => None
  end.

(** [np.split(ary, indices)] with a list of indices: the pieces between
    consecutive division points [0, indices..., len(ary)]. *)
Fixpoint pieces {A} (ary : list A) (div_points : list Z) : list (list A) :=
  match div_points with
  | st :: ((en :: _) as rest) => slice st en ary :: pieces ary rest
  | _ => []
  end.

Definition split {A} (ary : list A) (indices : list Z) : list (list A) :=
  pieces ary (0 :: indices ++ [Z.of_nat (length ary)]).

(** [np.concatenate((x, y))] and [np.flip(x)]. *)
Definition concatenate {A} (x y : list A) : list A := x ++ y.
Definition flip {A} (x : list A) : list A := rev x.

End Np.

(** ** Exceptions and the monad of methods *)

Module Py.

Inductive exn : Type :=
| KeyError (key : string)
| IndexError
| ValueError
| AttributeError
| RecursionError.

Inductive result (A : Type) : Type :=
| Ok (a : A)
| Raise (e : exn).
Arguments Ok {A} a.
Arguments Raise {A} e.

(** A method runs on a state [S] (the objects it can reach and the
    standard output) and leaves a state behind even when it raises. *)
Definition M (S A : Type) : Type := S -> S * result A.

Definition ret {S A} (a : A) : M S A := fun s => (s, Ok a).
Definition raise {S A} (e : exn) : M S A := fun s => (s, Raise e).
Definition bind {S A B} (c : M S A) (k : A -> M S B) : M S B :=
  fun s => match c s with
           | (s', Ok a) => k a s'
           | (s', Raise e) => (s', Raise e)
           end.
Definition gets {S A} (f : S -> A) : M S A := fun s => (s, Ok (f s)).
Definition modify {S} (f : S -> S) : M S unit := fun s => (f s, Ok tt).

(** [try: body except E: handler]; [handler e = None] when [e] is not
    an instance of [E]. *)
Definition try_except {S A} (body : M S A) (handler : exn -> option (M S A)) : M S A :=
  fun s => match body s with
           | (s', Ok a) => (s', Ok a)
           | (s', Raise e) =>
               match handler e with
               | Some h => h s'
               | None => (s', Raise e)
               end
           end.

Definition on_KeyError {S A} (h : string -> M S A) (e : exn) : option (M S A) :=
  match e with KeyError k => Some (h k) | _ => None end.
Definition on_IndexError {S A} (h : M S A) (e : exn) : option (M S A) :=
  match e with IndexError => Some h | _ => None end.

(** [for x in xs: acc = body(acc, x)]. *)
Fixpoint for_in {S A B} (xs : list A) (acc : B) (body : B -> A -> M S B) : M S B :=
  match xs with
  | [] => ret acc
  | x :: xs' => bind (body acc x) (fun acc' => for_in xs' acc' body)
  end.

(** A loop whose body may [break]: the body returns [inl acc] to stop
    and [inr acc] to go on. *)
Fixpoint for_in_break {S A B} (xs : list A) (acc : B) (body : B -> A -> M S (B + B)) : M S B :=
  match xs with
  | [] => ret acc
  | x :: xs' =>
      bind (body acc x) (fun r =>
        match r with
        | inl acc' => ret acc'
        | inr acc' => for_in_break xs' acc' body
        end)
  end.

(** [range(n)]. *)
Definition range (n : Z) : list Z := map Z.of_nat (seq 0 (Z.to_nat n)).

(** [l[i]] on a Python list: negative indices count from the end. *)
Definition list_get {S A} (l : list A) (i : Z) : M S A :=
  let j := if i <? 0 then i + Z.of_nat (length l) else i in
  if j <? 0 then raise IndexError
  else match l !! Z.to_nat j with
       | Some x => ret x
       | None => raise IndexError
       end.

End Py.

Import Py.

Notation "'let*' x ':=' c1 'in' c2" := (bind c1 (fun x => c2))
  (at level 10, x pattern, c1 at level 100, c2 at level 200).
Notation "c1 ;; c2" := (bind c1 (fun _ => c2))
  (at level 100, c2 at level 200, right associativity).

(** ** Python strings *)

Module Str.

(** [str.lower], and [re.sub('[0-9]', '', phone)]. *)
Definition lower_char (c : ascii) : ascii :=
  let n := nat_of_ascii c in
  if ((65 <=? n) && (n <=? 90))%nat then ascii_of_nat (n + 32) else c.

Fixpoint lower (s : string) : string :=
  match s with
  | EmptyString => EmptyString
  | String c s' => String (lower_char c) (lower s')
  end.

Definition is_digit (c : ascii) : bool :=
  let n := nat_of_ascii c in ((48 <=? n) && (n <=? 57))%nat.

Fixpoint strip_digits (s : string) : string :=
  match s with
  | EmptyString => EmptyString
  | String c s' => if is_digit c then strip_digits s' else String c (strip_digits s')
  end.

(** [s.lstrip('0')]. *)
Fixpoint lstrip_zeros (s : string) : string :=
  match s with
  | String "0" s' => lstrip_zeros s'
  | _ => s
  end.

Definition starts_with (p s : string) : bool := String.prefix p s.

(** [s.replace(old, new)] for a non-empty [old]: occurrences are taken
    left to right and do not overlap; [skip] counts the characters of
    an occurrence still to be dropped. *)
Fixpoint replace_from (old new : string) (skip : nat) (s : string) : string :=
  match s with
  | EmptyString => EmptyString
  | String c s' =>
      match skip with
      | S k => replace_from old new k s'
      | O =>
          if starts_with old s
          then new +:+ replace_from old new (String.length old - 1) s'
          else String c (replace_from old new 0 s')
      end
  end.

Definition replace (old new s : string) : string := replace_from old new 0 s.

(** Whitespace of [str.split()] among the ASCII characters. *)
Definition is_space (c : ascii) : bool :=
  let n := nat_of_ascii c in
  (((9 <=? n) && (n <=? 13)) || ((28 <=? n) && (n <=? 32)))%nat.

(** [s.split()]: the maximal runs of non-whitespace characters; [word]
    holds the run being read, in reverse. *)
Fixpoint split_from (word : list ascii) (s : string) : list string :=
  match s with
  | EmptyString =>
      match word with
      | [] => []
      | _ => [string_of_list_ascii (rev word)]
      end
  | String c s' =>
      if is_space c
      then match word with
           | [] => split_from [] s'
           | _ => string_of_list_ascii (rev word) :: split_from [] s'
           end
      else split_from (c :: word) s'
  end.

Definition split (s : string) : list string := split_from [] s.

(** Membership in [string.punctuation]. *)
Definition is_punctuation (c : ascii) : bool :=
  let n := nat_of_ascii c in
  (((33 <=? n) && (n <=? 47)) || ((58 <=? n) && (n <=? 64))
   || ((91 <=? n) && (n <=? 96)) || ((123 <=? n) && (n <=? 126)))%nat.

(** [word.translate(str.maketrans('', '', string.punctuation))]. *)
Fixpoint strip_punctuation (s : string) : string :=
  match s with
  | EmptyString => EmptyString
  | String c s' =>
      if is_punctuation c then strip_punctuation s' else String c (strip_punctuation s')
  end.

End Str.

(** ** class Synth *)

Module Synth.

Import Str.

(** A loaded unit is a numpy array object held by the inventory
    [self.diphones]; the object is named by its inventory key, so that
    the same unit reached twice is the same array. *)
Definition ndarray : Type := string.

Record Synth : Type := mkSynth {
  rate : Z;
  diphones : gmap string (list Z)
}.

Record world : Type := mkWorld {
  self : Synth;
  stdout : list string
}.

Record Audio : Type := mkAudio {
  audio_rate : Z;
  data : list Z
}.

Definition print (line : string) : M world unit :=
  modify (fun w => mkWorld (self w) (stdout w ++ [line])).

(** [self.diphones[key]]. *)
Definition getitem (key : string) : M world ndarray :=
  let* inventory := gets (fun w => diphones (self w)) in
  match inventory !! key with
  | Some _ => ret key
  | None => raise (KeyError key)
  end.

(** The samples an array object holds at this moment. *)
Definition contents (a : ndarray) : M world (list Z) :=
  gets (fun w => default [] (diphones (self w) !! a)).

Definition set_contents (a : ndarray) (samples : list Z) : M world unit :=
  modify (fun w =>
    mkWorld (mkSynth (rate (self w)) (<[a := samples]> (diphones (self w)))) (stdout w)).

(** [a[start:][i] = v]: the slice is a view, the write lands in [a]. *)
Definition view_from_setitem (a : ndarray) (start i v : Z) : M world unit :=
  let* samples := contents a in
  let base := Np.view_from_base start samples in
  if decide (Z.to_nat i < length samples - base)%nat
  then set_contents a (<[(base + Z.to_nat i)%nat := v]> samples)
  else raise IndexError.

(** [a[:stop][i] = v]. *)
Definition view_to_setitem (a : ndarray) (stop i v : Z) : M world unit :=
  let* samples := contents a in
  if decide (Z.to_nat i < length (Np.slice_to stop samples))%nat
  then set_contents a (<[Z.to_nat i := v]> samples)
  else raise IndexError.

(** [int(a * b)] for a sample [a] and a float factor [b]. *)
Definition scaled (a : Z) (b : spec_float) : Z :=
  Float64.to_int (Float64.mul (Float64.of_int a) b).

Definition smooth_end (diphone_array : ndarray) (nr_of_values : Z) : M world ndarray :=
  let working_range := range nr_of_values in
  let list_of_factors := map (fun i => Float64.truediv i nr_of_values) working_range in
  let* samples := contents diphone_array in
  let values_and_factors := zip (Np.slice_from (- nr_of_values) samples) (reverse list_of_factors) in
  let values_updated := map (fun ab => scaled (fst ab) (snd ab)) values_and_factors in
  for_in working_range tt (fun _ i =>
    let* v := list_get values_updated i in
    view_from_setitem diphone_array (- nr_of_values) i v) ;;
  ret diphone_array.

Definition smooth_beg (diphone_array : ndarray) (nr_of_values : Z) : M world ndarray :=
  let list_of_factors := map (fun i => Float64.truediv i nr_of_values) (range nr_of_values) in
  let* samples := contents diphone_array in
  let values_and_factors := zip (Np.slice_to nr_of_values samples) list_of_factors in
  let values_updated := map (fun ab => scaled (fst ab) (snd ab)) values_and_factors in
  for_in (range nr_of_values) tt (fun _ i =>
    let* v := list_get values_updated i in
    view_to_setitem diphone_array nr_of_values i v) ;;
  ret diphone_array.

(** The last loop of [phones_to_diphones]: reading [l_phones_fil[i + 1]]
    past the end raises IndexError, which ends the loop. *)
Fixpoint diphone_loop (l_phones_fil : list string) (indices : list nat)
    (l_diphones : list string) : list string :=
  match indices with
  | [] => l_diphones
  | i :: rest =>
      match l_phones_fil !! i, l_phones_fil !! S i with
      | Some a, Some b =>
          diphone_loop l_phones_fil rest (l_diphones ++ [a +:+ "-" +:+ b +:+ ".wav"])
      | _, _ => l_diphones
      end
  end.

Definition phones_to_diphones (phones : list string) : list string :=
  let l_phones := map lower phones in
  let l_phones_fil := map strip_digits l_phones in
  let l_phones_fil := "pau"%string :: l_phones_fil in
  let l_phones_fil := l_phones_fil ++ ["pau"%string] in
  diphone_loop l_phones_fil (seq 0 (length l_phones_fil)) [].

(** [np.add(x, y)] as a call that may raise. *)
Definition np_add (x y : list Z) : M world (list Z) :=
  match Np.add x y with
  | Some z => ret z
  | None => raise ValueError
  end.

(** Messages of the two [print] calls. *)
Definition missing_diphone (diphone : string) : string :=
  "Missing diphone: " +:+ diphone +:+ ", proceeding as normal.".

(** [int(self.rate / 100)]. *)
Definition affected_values (rate : Z) : Z :=
  Float64.to_int (Float64.truediv rate 100).

(** The body of the first loop of [synthesise]: one diphone is looked
    up in the inventory and kept for smoothing or appended to the
    output; a missing one is reported. *)
Definition gather (smooth_concat : bool) (acc : list Z * list ndarray)
    (diphone : string) : M world (list Z * list ndarray) :=
  let concat_ary := fst acc in
  let list_for_smoothing := snd acc in
  try_except
    (if smooth_concat then
       let* unit := getitem diphone in
       ret (concat_ary, list_for_smoothing ++ [unit])
     else
       let* unit := getitem diphone in
       let* samples := contents unit in
       ret (Np.concatenate concat_ary samples, list_for_smoothing))
    (on_KeyError (fun _ =>
       print (missing_diphone diphone) ;;
       ret (concat_ary, list_for_smoothing))).

(** "first smooth the diphones": the value of [smooth_dip]. *)
Definition smooth_the_diphones (list_for_smoothing : list ndarray)
    (affected_values : Z) : M world (list ndarray) :=
  let* first := list_get list_for_smoothing 0 in
  let* first := smooth_end first affected_values in
  let smooth_dip := [first] in
  let* smooth_dip :=
    for_in (Np.slice 1 (-1) list_for_smoothing) smooth_dip
      (fun smooth_dip element =>
         smooth_beg element affected_values ;;
         smooth_end element affected_values ;;
         ret (smooth_dip ++ [element])) in
  let* last := list_get list_for_smoothing (-1) in
  let* last := smooth_beg last affected_values in
  ret (smooth_dip ++ [last]).

(** "next extract the values for overlap and add them together": the
    value of [val_to_add].  Reading [smooth_dip[i + 1]] past the end
    raises IndexError, which ends the loop. *)
Definition overlap_step (smooth_dip : list ndarray) (affected_values : Z)
    (val_to_add : list (list Z)) (i : Z) : M world (list (list Z) + list (list Z)) :=
  try_except
    (let* earlier := list_get smooth_dip i in
     let* earlier := contents earlier in
     let* later := list_get smooth_dip (i + 1) in
     let* later := contents later in
     let* overlap := np_add (Np.slice_from (- affected_values) earlier)
                            (Np.slice_to affected_values later) in
     ret (inr (val_to_add ++ [overlap])))
    (on_IndexError (ret (inl val_to_add))).

Definition values_to_add (smooth_dip : list ndarray) (affected_values : Z)
    : M world (list (list Z)) :=
  for_in_break (range (Z.of_nat (length smooth_dip))) []
    (overlap_step smooth_dip affected_values).

(** "split diphones into parts which need trimming" and "extract the
    correct arrays from the lists created above": the value of
    [dip_arr].  The pieces of [np.split] are views; they are read here,
    and nothing writes to the arrays afterwards. *)
Definition trimmed_parts (smooth_dip : list ndarray) (affected_values : Z)
    : M world (list (list Z)) :=
  let* first := list_get smooth_dip 0 in
  let* first := contents first in
  let dip_val_border := [Np.split first [- affected_values]] in
  let* dip_val_middle :=
    for_in (Np.slice 1 (-1) smooth_dip) []
      (fun dip_val_middle element =>
         let* element := contents element in
         ret (dip_val_middle ++ [Np.split element [affected_values; - affected_values]])) in
  let* last := list_get smooth_dip (-1) in
  let* last := contents last in
  let dip_val_border := dip_val_border ++ [Np.split last [affected_values]] in
  let* border := list_get dip_val_border 0 in
  let* kept := list_get border 0 in
  let dip_arr := [kept] in
  let* dip_arr :=
    for_in dip_val_middle dip_arr
      (fun dip_arr element =>
         let* kept := list_get element 1 in
         ret (dip_arr ++ [kept])) in
  let* border := list_get dip_val_border 1 in
  let* kept := list_get border 1 in
  ret (dip_arr ++ [kept]).

(** The last loop: overlaps and trimmed parts in turn. *)
Definition join (concat_ary : list Z) (val_to_add dip_arr : list (list Z))
    : M world (list Z) :=
  let* head := list_get dip_arr 0 in
  let concat_ary := Np.concatenate concat_ary head in
  for_in (range (Z.of_nat (length val_to_add))) concat_ary
    (fun concat_ary i =>
       let* overlap := list_get val_to_add i in
       let concat_ary := Np.concatenate concat_ary overlap in
       let* kept := list_get dip_arr (i + 1) in
       ret (Np.concatenate concat_ary kept)).

Definition synthesise (phones : list string) (reverse : option string)
    (smooth_concat : bool) : M world Audio :=
  let* audio_rate := gets (fun w => rate (self w)) in
  let concat_ary : list Z := [] in
  let list_for_smoothing : list ndarray := [] in
  let affected_values := affected_values audio_rate in
  let* gathered :=
    for_in (phones_to_diphones phones) (concat_ary, list_for_smoothing)
      (gather smooth_concat) in
  let concat_ary := fst gathered in
  let list_for_smoothing := snd gathered in
  let* concat_ary :=
    if smooth_concat then
      let* smooth_dip := smooth_the_diphones list_for_smoothing affected_values in
      let* val_to_add := values_to_add smooth_dip affected_values in
      let* dip_arr := trimmed_parts smooth_dip affected_values in
      join concat_ary val_to_add dip_arr
    else ret concat_ary in
  let samples :=
    if decide (reverse = Some "signal"%string) then Np.flip concat_ary else concat_ary in
  ret (mkAudio audio_rate samples).

End Synth.

(** ** class Utterance *)

Module Utterance.

Import Str.

(** *** The pattern [date_format = (\d+)/(\d+)/?(\d{2,})?] *)

Record Match : Type := mkMatch {
  group0 : string;
  group1 : string;
  group2 : string;
  group3 : option string
}.

(** The longest prefix of digits and what follows it. *)
Fixpoint span_digits (s : string) : string * string :=
  match s with
  | String c s' =>
      if is_digit c
      then let r := span_digits s' in (String c (fst r), snd r)
      else (EmptyString, s)
  | EmptyString => (EmptyString, EmptyString)
  end.

(** [date_format.match(s)].  Every quantifier is greedy and the engine
    keeps its first success: both [\d+] take all the digits there are
    (a shorter first group would be followed by a digit, not by [/]; a
    shorter second group is never tried, since all that follows is
    optional), [/?] takes a slash that is there, and the year group
    takes the digits after that slash when there are two or more. *)
Definition match_date (s : string) : option Match :=
  let (g1, r1) := span_digits s in
  match g1, r1 with
  | String _ _, String "/" r2 =>
      let (g2, r3) := span_digits r2 in
      match g2 with
      | String _ _ =>
          match r3 with
          | String "/" r4 =>
              let (g3, _) := span_digits r4 in
              if (2 <=? String.length g3)%nat
              then Some (mkMatch (g1 +:+ "/" +:+ g2 +:+ "/" +:+ g3) g1 g2 (Some g3))
              else Some (mkMatch (g1 +:+ "/" +:+ g2 +:+ "/") g1 g2 None)
          | _ => Some (mkMatch (g1 +:+ "/" +:+ g2) g1 g2 None)
          end
      | EmptyString => None
      end
  | _, _ => None
  end.

(** [date_format.search(s)]: the match at the leftmost position that
    has one. *)
Fixpoint search_date (s : string) : option Match :=
  match match_date s with
  | Some m => Some m
  | None =>
      match s with
      | EmptyString => None
      | String _ s' => search_date s'
      end
  end.

(** *** The object and its methods *)

Record world : Type := mkWorld {
  phrase : string;
  stdout : list string
}.

Definition print (line : string) : M world unit :=
  modify (fun w => mkWorld (phrase w) (stdout w ++ [line])).

Definition set_phrase (p : string) : M world unit :=
  modify (fun w => mkWorld p (stdout w)).

(** A dict literal, in the order it is written. *)
Definition table : Type := list (string * string).

Fixpoint table_find (d : table) (key : string) : option string :=
  match d with
  | [] => None
  | (k, v) :: d' => if decide (k = key) then Some v else table_find d' key
  end.

(** [d[key]] and [key in d]. *)
Definition table_get {S} (d : table) (key : string) : M S string :=
  match table_find d key with
  | Some v => ret v
  | None => raise (KeyError key)
  end.

Definition table_mem (d : table) (key : string) : bool :=
  match table_find d key with Some _ => true | None => false end.

(** [s[i]] and [s[start:]] on a string. *)
Definition str_get {S} (s : string) (i : Z) : M S string :=
  let* c := list_get (list_ascii_of_string s) i in
  ret (String c EmptyString).

Definition str_slice_from (start : Z) (s : string) : string :=
  string_of_list_ascii (Np.slice_from start (list_ascii_of_string s)).

Definition dys : table :=
  [("1", "first"); ("2", "second"); ("3", "third"); ("4", "fourth"); ("5", "fifth");
   ("6", "sixth"); ("7", "seventh"); ("8", "eighth"); ("9", "ninth"); ("10", "tenth");
   ("11", "eleventh"); ("12", "twelfth"); ("13", "thirteenth"); ("14", "fourteenth");
   ("15", "fifteenth"); ("16", "sixteenth"); ("17", "seventeenth"); ("18", "eighteenth");
   ("19", "nineteenth"); ("20", "twentieth"); ("21", "twenty-first"); ("22", "twenty-second");
   ("23", "twenty-third"); ("24", "twenty-fourth"); ("25", "twenty-fifth");
   ("26", "twenty-sixth"); ("27", "twenty-seventh"); ("28", "twenty-eighth");
   ("29", "twenty-ninth"); ("30", "thirtieth"); ("31", "thirty-first")]%string.

Definition mths : table :=
  [("1", "january"); ("2", "february"); ("3", "march"); ("4", "april");
   ("5", "may"); ("6", "june"); ("7", "july"); ("8", "august"); ("9", "september");
   ("10", "october"); ("11", "november"); ("12", "december")]%string.

Definition yrs_ones : table :=
  [("1", "one"); ("2", "two"); ("3", "three"); ("4", "four"); ("5", "five"); ("6", "six");
   ("7", "seven"); ("8", "eight"); ("9", "nine")]%string.

Definition yrs_tens : table :=
  [("0", "o"); ("2", "twenty"); ("3", "thirty"); ("4", "forty"); ("5", "fifty");
   ("6", "sixty"); ("7", "seventy"); ("8", "eighty"); ("9", "ninety")]%string.

Definition yrs_10to19 : table :=
  [("10", "ten"); ("11", "eleven"); ("12", "twelve"); ("13", "thirteen");
   ("14", "fourteen"); ("15", "fifteen"); ("16", "sixteen"); ("17", "seventeen");
   ("18", "eighteen"); ("19", "nineteen")]%string.

(** The three f-strings of [normalise_dates]; their fields are
    evaluated left to right. *)
Definition date_teens {S} (month day year : string) : M S string :=
  let* m := table_get mths month in
  let* d := table_get dys day in
  let* y := table_get yrs_10to19 year in
  ret (m +:+ " " +:+ d +:+ " nineteen " +:+ y).

Definition date_tens_ones {S} (month day year : string) : M S string :=
  let* m := table_get mths month in
  let* d := table_get dys day in
  let* y0 := str_get year 0 in
  let* t := table_get yrs_tens y0 in
  let* y1 := str_get year 1 in
  let* o := table_get yrs_ones y1 in
  ret (m +:+ " " +:+ d +:+ " nineteen " +:+ t +:+ " " +:+ o).

Definition date_no_year {S} (month day : string) : M S string :=
  let* m := table_get mths month in
  let* d := table_get dys day in
  ret (m +:+ " " +:+ d).

(** [if len(year) != 2: year = year[-2:]]. *)
Definition two_digit_year (year : string) : string :=
  if decide (String.length year = 2%nat) then year else str_slice_from (-2) year.

Definition normalise_dates {S} (date : string) : M S string :=
  match match_date date with
  | None => raise AttributeError
  | Some matched_date =>
      let day := lstrip_zeros (group1 matched_date) in
      let month := lstrip_zeros (group2 matched_date) in
      match group3 matched_date with
      | Some (String _ _ as year) =>
          let year := two_digit_year year in
          if table_mem yrs_10to19 year
          then date_teens month day year
          else date_tens_ones month day year
      | _ => date_no_year month day
      end
  end.

(** [normalise_phrase] calls itself once for every date it rewrites;
    [depth] is the number of nested calls the interpreter still allows,
    and the call that exceeds it raises RecursionError. *)
Fixpoint normalise_phrase_at (depth : nat) : M world (list string) :=
  match depth with
  | O => raise RecursionError
  | S depth' =>
      let* text := gets phrase in
      match search_date text with
      | Some date_lookup =>
          let date_group := group0 date_lookup in
          let* text := gets phrase in
          let* spoken := normalise_dates date_group in
          set_phrase (replace date_group spoken text) ;;
          normalise_phrase_at depth' ;;
          ret tt
      | None => ret tt
      end ;;
      let* text := gets phrase in
      for_in (split text) [] (fun normalised_words word =>
        let word_without_punct := strip_punctuation word in
        ret (normalised_words ++ [lower word_without_punct]))
  end.

Fixpoint count_digits (s : string) : nat :=
  match s with
  | EmptyString => 0
  | String c s' => (if is_digit c then 1 else 0) + count_digits s'
  end.

(** The method itself, with room for as many nested calls as
    [self.phrase] can need: every rewritten date takes digits away. *)
Definition normalise_phrase : M world (list string) :=
  fun w => normalise_phrase_at (S (count_digits (phrase w))) w.

Definition word_not_found (word : string) : string :=
  "Word not found in the dictionary: " +:+ word.

(** [dictionary[word]] on the pronunciation dictionary [cmudict.dict()],
    which maps a word to the list of its pronunciations. *)
Definition dictionary_get {S} (dictionary : gmap string (list (list string)))
    (word : string) : M S (list (list string)) :=
  match dictionary !! word with
  | Some pronunciations => ret pronunciations
  | None => raise (KeyError word)
  end.

Definition get_phone_seq (dictionary : gmap string (list (list string)))
    (reverse : option string) : M world (list string) :=
  let* words := normalise_phrase in
  let words := if decide (reverse = Some "words"%string) then rev words else words in
  let* list_of_phones :=
    for_in words [] (fun list_of_phones word =>
      try_except
        (let* pronunciations := dictionary_get dictionary word in
         let* first := list_get pronunciations 0 in
         ret (list_of_phones ++ first))
        (on_KeyError (fun _ =>
           print (word_not_found word) ;;
           ret list_of_phones))) in
  let list_of_phones :=
    if decide (reverse = Some "phones"%string) then rev list_of_phones else list_of_phones in
  ret list_of_phones.

End Utterance.

(** * Reference definitions

    What the properties below compare the methods with. *)

Module DiphoneKeys.

Import Str Synth.

(** The keys as the specification words them: one key per adjacent
    pair of the padded phone sequence. *)
Definition key (a b : string) : string := a +:+ "-" +:+ b +:+ ".wav".

Fixpoint adjacent_keys (l : list string) : list string :=
  match l with
  | a :: ((b :: _) as rest) => key a b :: adjacent_keys rest
  | _ => []
  end.

(** A phone as the specification words it: its stress digit stripped
    (the characters 0 to 9 are taken out), then put in lower case (the
    letters A to Z become a to z, every other character stays). *)
Definition is_stress_digit (c : ascii) : bool :=
  match c with
  | "0" | "1" | "2" | "3" | "4" | "5" | "6" | "7" | "8" | "9" => true
  | _ => false
  end%char.

Fixpoint without_stress (phone : string) : string :=
  match phone with
  | EmptyString => EmptyString
  | String c rest =>
      if is_stress_digit c then without_stress rest else String c (without_stress rest)
  end.

Definition small_letter (c : ascii) : ascii :=
  match c with
  | "A" => "a"
  | "B" => "b"
  | "C" => "c"
  | "D" => "d"
  | "E" => "e"
  | "F" => "f"
  | "G" => "g"
  | "H" => "h"
  | "I" => "i"
  | "J" => "j"
  | "K" => "k"
  | "L" => "l"
  | "M" => "m"
  | "N" => "n"
  | "O" => "o"
  | "P" => "p"
  | "Q" => "q"
  | "R" => "r"
  | "S" => "s"
  | "T" => "t"
  | "U" => "u"
  | "V" => "v"
  | "W" => "w"
  | "X" => "x"
  | "Y" => "y"
  | "Z" => "z"
  | _ => c
  end%char.

Fixpoint lowercased (phone : string) : string :=
  match phone with
  | EmptyString => EmptyString
  | String c rest => String (small_letter c) (lowercased rest)
  end.

Definition padded (phones : list string) : list string :=
  "pau"%string :: map (fun p => lowercased (without_stress p)) phones ++ ["pau"%string].

End DiphoneKeys.

Module Units.

Import Synth.

(** The keys of a sequence that the inventory holds, in order, and the
    report printed for the others. *)
Fixpoint resolved (inventory : gmap string (list Z)) (keys : list string) : list ndarray :=
  match keys with
  | [] => []
  | k :: keys' =>
      match inventory !! k with
      | Some _ => k :: resolved inventory keys'
      | None => resolved inventory keys'
      end
  end.

Fixpoint reported (inventory : gmap string (list Z)) (keys : list string) : list string :=
  match keys with
  | [] => []
  | k :: keys' =>
      match inventory !! k with
      | Some _ => reported inventory keys'
      | None => missing_diphone k :: reported inventory keys'
      end
  end.

Definition samples_of (inventory : gmap string (list Z)) (unit : ndarray) : list Z :=
  default [] (inventory !! unit).

(** The in-order concatenation of the units a key sequence resolves to. *)
Definition concatenation (inventory : gmap string (list Z)) (keys : list string) : list Z :=
  concat (map (samples_of inventory) (resolved inventory keys)).

(** [reverse == 'signal'] flips the finished signal. *)
Definition reversed_if_signal (reverse : option string) (samples : list Z) : list Z :=
  if decide (reverse = Some "signal"%string) then rev samples else samples.

Definition with_output (w : world) (lines : list string) : world :=
  mkWorld (self w) (stdout w ++ lines).

End Units.

Module Ramps.

Import Synth.

(** The world in which the array object [unit] holds [samples]. *)
Definition with_unit (w : world) (unit : ndarray) (samples : list Z) : world :=
  mkWorld (mkSynth (rate (self w)) (<[unit := samples]> (diphones (self w)))) (stdout w).

(** The factors [0/n, 1/n, ..., (n-1)/n]. *)
Definition factors (n : nat) : list spec_float :=
  map (fun i => Float64.truediv (Z.of_nat i) (Z.of_nat n)) (seq 0 n).

(** An array whose last [n] samples are scaled by the factors taken
    downwards, and one whose first [n] samples are scaled by the
    factors taken upwards. *)
Definition tail_ramped (n : nat) (a : list Z) : list Z :=
  take (length a - n) a ++ zip_with scaled (drop (length a - n) a) (reverse (factors n)).

Definition head_ramped (n : nat) (a : list Z) : list Z :=
  zip_with scaled (take n a) (factors n) ++ drop n a.

(** A tail ramp stated sample by sample: [a'] is [a] except that the
    sample at offset [i] from the end ([i < n], offset 0 the last
    sample) is scaled by [factor i]. *)
Definition is_tail_ramp (factor : nat -> spec_float) (n : nat) (a a' : list Z) : Prop :=
  length a' = length a
  /\ (forall i, (i < n)%nat ->
        a' !! (length a - 1 - i)%nat
        = (fun x => scaled x (factor i)) <$> a !! (length a - 1 - i)%nat)
  /\ (forall j, (j < length a - n)%nat -> a' !! j = a !! j).

(** The factor the claim gives to offset [i], and the factor of the code. *)
Definition claimed_factor (n i : nat) : spec_float :=
  Float64.truediv (Z.of_nat (n - 1 - i)) (Z.of_nat n).

Definition code_factor (n i : nat) : spec_float :=
  Float64.truediv (Z.of_nat i) (Z.of_nat n).

End Ramps.

Module Examples.

Import Synth.

(** An inventory of two six-sample units at 200 Hz (a window of
    two samples), one holding a single unit of five samples, and an
    empty one. *)
Definition two_units : world :=
  mkWorld (mkSynth 200
    (<["pau-a.wav"%string := [10; 10; 10; 10; 10; 10]]>
       (<["a-pau.wav"%string := [20; 20; 20; 20; 20; 20]]> ∅))) [].

Definition silence_only : world :=
  mkWorld (mkSynth 200 (<["pau-pau.wav"%string := [10; 20; 30; 40; 50]]> ∅)) [].

Definition empty_inventory : world := mkWorld (mkSynth 200 ∅) [].

(** Three units at 200 Hz whose middle one is shorter than two
    windows, and the two six-sample units at 170 Hz. *)
Definition three_units : world :=
  mkWorld (mkSynth 200
    (<["pau-a.wav"%string := [10; 10; 10; 10]]>
       (<["a-b.wav"%string := [40; 40; 40]]>
          (<["b-pau.wav"%string := [20; 20; 20; 20]]> ∅)))) [].

Definition two_units_170 : world :=
  mkWorld (mkSynth 170 (diphones (self two_units))) [].

Definition one_array : world :=
  mkWorld (mkSynth 200 (<["u"%string := [10; 10; 10; 10]]> ∅)) [].

End Examples.

Module Lexicon.

Import Utterance.

(** The phones a word stands for: its first pronunciation, and nothing
    for a word the dictionary lacks. *)
Definition first_pronunciation (dictionary : gmap string (list (list string)))
    (word : string) : list string :=
  match dictionary !! word with
  | Some (first :: _) => first
  | _ => []
  end.

Definition phones_of (dictionary : gmap string (list (list string)))
    (words : list string) : list string :=
  concat (map (first_pronunciation dictionary) words).

Fixpoint not_found (dictionary : gmap string (list (list string)))
    (words : list string) : list string :=
  match words with
  | [] => []
  | word :: words' =>
      match dictionary !! word with
      | Some _ => not_found dictionary words'
      | None => word_not_found word :: not_found dictionary words'
      end
  end.

(** Every word of [cmudict] comes with at least one pronunciation. *)
Definition entries_nonempty (dictionary : gmap string (list (list string))) : Prop :=
  forall word pronunciations,
    dictionary !! word = Some pronunciations -> pronunciations <> [].

Definition with_output (w : world) (lines : list string) : world :=
  mkWorld (phrase w) (stdout w ++ lines).

Definition words_order (reverse : option string) (words : list string) : list string :=
  if decide (reverse = Some "words"%string) then rev words else words.

Definition phones_order (reverse : option string) (phones : list string) : list string :=
  if decide (reverse = Some "phones"%string) then rev phones else phones.

Definition small : gmap string (list (list string)) :=
  <["go"%string := [["G"; "OW1"]]]>
    (<["home"%string := [["HH"; "OW1"; "M"]; ["HH"; "AO1"; "M"]]]> ∅)%string.

End Lexicon.

Module Dates.

Import Str Utterance.

Fixpoint all_digits (s : string) : bool :=
  match s with
  | EmptyString => true
  | String c s' => is_digit c && all_digits s'
  end.

(** A string that does not go on with a digit. *)
Definition stops_digits (s : string) : Prop :=
  match s with
  | EmptyString => True
  | String c _ => is_digit c = false
  end.

(** A string without its first [n] characters. *)
Fixpoint str_drop (n : nat) (s : string) : string :=
  match n, s with
  | Datatypes.S n', String _ s' => str_drop n' s'
  | _, _ => s
  end.

(** What [normalise_dates] returns or raises, whatever the state. *)
Definition spoken (date : string) : result string :=
  snd (normalise_dates date tt).

(** The tokens of a phrase that has no date left in it. *)
Definition tokens (text : string) : list string :=
  map (fun word => lower (strip_punctuation word)) (split text).

(** The texts [normalise_phrase] goes through: each call rewrites every
    occurrence of the date the search finds and scans the whole text
    again. *)
Inductive rescans : string -> string -> Prop :=
| rescans_here (text : string) : rescans text text
| rescans_next (text : string) (m : Match) (words later : string) :
    search_date text = Some m ->
    spoken (group0 m) = Ok words ->
    rescans (replace (group0 m) words text) later ->
    rescans text later.

(** The day or the month of a match is not in its table. *)
Definition out_of_range (m : Match) : Prop :=
  table_find mths (lstrip_zeros (group2 m)) = None
  \/ table_find dys (lstrip_zeros (group1 m)) = None.

(** The phrase contains a substring that matches the date pattern: the
    pattern matches at some position of it. *)
Definition contains_date (text : string) (m : Match) : Prop :=
  exists position, match_date (str_drop position text) = Some m.

(** The claim on any such substring: whenever one is out of range,
    [normalise_phrase] raises KeyError. *)
Definition claimed_abort (text : string) : Prop :=
  forall m, contains_date text m -> out_of_range m ->
    exists key, snd (normalise_phrase (mkWorld text [])) = Raise (KeyError key).

End Dates.

Module Crossfade.

Import Synth Units Ramps.

(** The smoothing calls as changes of the world: the array object
    [unit] is ramped where it lies. *)
Definition end_ramp (n : nat) (w : world) (unit : ndarray) : world :=
  with_unit w unit (tail_ramped n (samples_of (diphones (self w)) unit)).

Definition beg_ramp (n : nat) (w : world) (unit : ndarray) : world :=
  with_unit w unit (head_ramped n (samples_of (diphones (self w)) unit)).

Definition both_ramps (n : nat) (w : world) (unit : ndarray) : world :=
  end_ramp n (beg_ramp n w unit) unit.

(** The world after "first smooth the diphones": the first unit gets a
    tail ramp, every unit between a head and a tail ramp, the last unit
    a head ramp, in this order. *)
Definition smoothed (n : nat) (first : ndarray) (middle : list ndarray) (last : ndarray)
    (w : world) : world :=
  beg_ramp n (fold_left (both_ramps n) middle (end_ramp n w first)) last.

(** The overlap segment of two adjacent arrays: the sum, sample by
    sample, of the last [n] of the earlier and the first [n] of the
    later. *)
Definition overlap (n : nat) (earlier later : list Z) : list Z :=
  zip_with (fun a b => Np.wrap (a + b)) (drop (length earlier - n) earlier) (take n later).

(** An array without its first and its last [n] samples. *)
Definition inner (n : nat) (u : list Z) : list Z :=
  take (length u - n - n) (drop n u).

(** The first array without its last [n] samples, then for every
    further array the overlap with the one before it and what is kept of
    it: its inner part, or for the last array all but the first [n]. *)
Fixpoint crossfaded_from (n : nat) (earlier : list Z) (middle : list (list Z))
    (last : list Z) : list Z :=
  match middle with
  | [] => overlap n earlier last ++ drop n last
  | u :: middle' => overlap n earlier u ++ inner n u ++ crossfaded_from n u middle' last
  end.

Definition crossfaded (n : nat) (first : list Z) (middle : list (list Z))
    (last : list Z) : list Z :=
  take (length first - n) first ++ crossfaded_from n first middle last.

(** [sum(len(u[i]))]. *)
Definition total_length (arrays : list (list Z)) : nat :=
  foldr (fun u total => (length u + total)%nat) 0%nat arrays.

(** The window and the buffer length as the claim states them:
    [round(rate / 100)], halves going to the even neighbour, and
    [sum(len(u)) - (m - 1) N]. *)
Definition claimed_window (rate : Z) : Z :=
  let q := rate / 100 in
  let r := rate mod 100 in
  if r <? 50 then q
  else if 50 <? r then q + 1
  else if Z.even q then q else q + 1.

Definition claimed_samples (w : world) (phones : list string) : Z :=
  let inventory := diphones (self w) in
  let units := resolved inventory (phones_to_diphones phones) in
  Z.of_nat (total_length (map (samples_of inventory) units))
  - (Z.of_nat (length units) - 1) * claimed_window (rate (self w)).

Definition claimed_length (w : world) (phones : list string) : Prop :=
  exists w' audio,
    synthesise phones None true w = (w', Ok audio)
    /\ Z.of_nat (length (data audio)) = claimed_samples w phones.

(** The length of a unit of the inventory, if it is there, and a unit
    that is there with at least [n] samples. *)
Definition shape (w : world) (unit : ndarray) : option nat :=
  length <$> diphones (self w) !! unit.

Definition fits (n : nat) (w : world) (unit : ndarray) : Prop :=
  match shape w unit with
  | Some len => (n <= len)%nat
  | None => False
  end.

(** Adjacent overlaps and interleaving, as the last loops build them. *)
Fixpoint overlaps (n : nat) (arrays : list (list Z)) : list (list Z) :=
  match arrays with
  | a :: ((b :: _) as rest) => overlap n a b :: overlaps n rest
  | _ => []
  end.

Fixpoint interleaved (val_to_add dip_arr : list (list Z)) : list Z :=
  match val_to_add, dip_arr with
  | v :: vs, d :: ds => v ++ d ++ interleaved vs ds
  | _, _ => []
  end.

End Crossfade.

Module Windows.

Import Synth Ramps.

(** A head ramp stated sample by sample: [a'] is [a] except that the
    sample at index [i] ([i < n]) is scaled by [i / n]. *)
Definition is_head_ramp (n : nat) (a a' : list Z) : Prop :=
  length a' = length a
  /\ (forall i, (i < n)%nat ->
        a' !! i = (fun x => scaled x (code_factor n i)) <$> a !! i)
  /\ (forall j, (n <= j)%nat -> a' !! j = a !! j).

(** What a window longer than the array leaves behind: [smooth_end]
    has scaled sample [j] by [(n - 1 - j) / n], [smooth_beg] by [j / n]. *)
Definition is_overrun_end (n : nat) (a a' : list Z) : Prop :=
  length a' = length a
  /\ (forall j, (j < length a)%nat ->
        a' !! j = (fun x => scaled x (code_factor n (n - 1 - j))) <$> a !! j).

Definition is_overrun_beg (n : nat) (a a' : list Z) : Prop :=
  length a' = length a
  /\ (forall j, (j < length a)%nat ->
        a' !! j = (fun x => scaled x (code_factor n j)) <$> a !! j).

End Windows.

Module MoreExamples.

Import Synth.

(** The two six-sample units of [Examples.two_units] at another rate. *)
Definition units_at (rate : Z) : world :=
  mkWorld (mkSynth rate (diphones (self Examples.two_units))) [].

End MoreExamples.

Module Phones.

Import Str.

(** A phone as the keys spell it: lowercase, without digits. *)
Definition spelled (phone : string) : string := strip_digits (lower phone).

End Phones.

Module Tokens.

Import Str.

Fixpoint all_chars (p : ascii -> bool) (s : string) : bool :=
  match s with
  | EmptyString => true
  | String c s' => p c && all_chars p s'
  end.

(** An ASCII capital letter. *)
Definition is_upper (c : ascii) : bool :=
  let n := nat_of_ascii c in ((65 <=? n) && (n <=? 90))%nat.

(** A character a token can hold: no whitespace, no punctuation, no
    capital letter. *)
Definition token_char (c : ascii) : bool :=
  negb (is_space c) && negb (is_punctuation c) && negb (is_upper c).

Definition is_slash (c : ascii) : bool :=
  match c with "/"%char => true | _ => false end.

End Tokens.

Module Repeats.

Import Synth Ramps.

(** How often a unit occurs in a list of units. *)
Fixpoint occurrences (unit : ndarray) (units : list ndarray) : nat :=
  match units with
  | [] => 0
  | u :: rest => (if decide (u = unit) then 1 else 0) + occurrences unit rest
  end.

(** What the array [unit] holds after the smoothing of the units
    [first, middle..., last], from what it held before: one tail ramp if
    it is the first unit, a head and a tail ramp for each of its
    occurrences between, one head ramp if it is the last unit. *)
Definition ramped_after (n : nat) (first : ndarray) (middle : list ndarray) (last : ndarray)
    (before : ndarray -> list Z) (unit : ndarray) : list Z :=
  let a := before unit in
  let a := if decide (first = unit) then tail_ramped n a else a in
  let a := Nat.iter (occurrences unit middle)
             (fun a => tail_ramped n (head_ramped n a)) a in
  if decide (last = unit) then head_ramped n a else a.

End Repeats.

(** * Properties *)

(** ** Running monadic code *)

Section Running.

Context {S : Type}.

Lemma run_ret {A} (a : A) (s : S) : ret a s = (s, Ok a).
Proof. reflexivity. Qed.

Lemma run_bind_ok {A B} (c : M S A) (k : A -> M S B) s s' a :
  c s = (s', Ok a) -> bind c k s = k a s'.
Proof. intros H. unfold bind. now rewrite H. Qed.

Lemma run_bind_raise {A B} (c : M S A) (k : A -> M S B) s s' e :
  c s = (s', Raise e) -> bind c k s = (s', Raise e).
Proof. intros H. unfold bind. now rewrite H. Qed.

Lemma run_list_get_nat {A} (l : list A) (i : nat) x (s : S) :
  l !! i = Some x -> list_get l (Z.of_nat i) s = (s, Ok x).
Proof.
  intros H. unfold list_get.
  assert (E : (Z.of_nat i <? 0) = false) by (apply Z.ltb_ge; lia).
  cbv zeta. rewrite !E, Nat2Z.id, H. reflexivity.
Qed.

Lemma run_list_get_past {A} (l : list A) (i : nat) (s : S) :
  (length l <= i)%nat -> list_get l (Z.of_nat i) s = (s, Raise IndexError).
Proof.
  intros H. unfold list_get.
  assert (E : (Z.of_nat i <? 0) = false) by (apply Z.ltb_ge; lia).
  cbv zeta. rewrite !E, Nat2Z.id, (proj2 (lookup_ge_None l i) H). reflexivity.
Qed.

Lemma run_list_get_last {A} (l : list A) x (s : S) :
  list_get (l ++ [x]) (-1) s = (s, Ok x).
Proof.
  unfold list_get. cbv zeta. change (-1 <? 0) with true. cbv iota.
  rewrite length_app. change (length [x]) with 1%nat.
  assert (E : (-1 + Z.of_nat (length l + 1) <? 0) = false) by (apply Z.ltb_ge; lia).
  rewrite E.
  replace (Z.to_nat (-1 + Z.of_nat (length l + 1))) with (length l) by lia.
  rewrite lookup_app_r by lia. now rewrite Nat.sub_diag.
Qed.

End Running.

(** ** [phones_to_diphones] *)

Module DiphoneKeysFacts.

Import Str Synth DiphoneKeys.

Lemma adjacent_keys_length l : length (adjacent_keys l) = pred (length l).
Proof.
  induction l as [| a [| b l'] IH]; simpl in *; try reflexivity.
  now rewrite IH.
Qed.

Lemma adjacent_keys_drop l k a b :
  l !! k = Some a -> l !! (Datatypes.S k) = Some b ->
  adjacent_keys (drop k l) = key a b :: adjacent_keys (drop (Datatypes.S k) l).
Proof.
  revert l. induction k as [| k IH]; intros [| x [| y l']] Ha Hb;
    simpl in *; try discriminate.
  - now inversion Ha; inversion Hb.
  - now apply (IH (y :: l')).
Qed.

Lemma diphone_loop_spec l n : forall k acc,
  (k + n = length l)%nat ->
  diphone_loop l (seq k n) acc = acc ++ adjacent_keys (drop k l).
Proof.
  induction n as [| n IH]; intros k acc Hk; simpl.
  - rewrite drop_ge by lia. simpl. now rewrite app_nil_r.
  - destruct (l !! k) as [a |] eqn:Ha.
    2: { apply lookup_ge_None in Ha. lia. }
    destruct (l !! Datatypes.S k) as [b |] eqn:Hb.
    + rewrite IH by lia. rewrite (adjacent_keys_drop l k a b Ha Hb).
      now rewrite <- app_assoc.
    + apply lookup_ge_None in Hb.
      assert (Hlast : drop k l = [a]).
      { rewrite (drop_S l a k Ha). rewrite drop_ge by lia. reflexivity. }
      rewrite Hlast. simpl. now rewrite app_nil_r.
Qed.

(** [str.lower] and the pattern [[0-9]] against the specification's
    words, character by character. *)
Lemma lower_char_small_letter c : lower_char c = small_letter c.
Proof. destruct c as [[] [] [] [] [] [] [] []]; reflexivity. Qed.

Lemma is_digit_stress_digit c : is_digit c = is_stress_digit c.
Proof. destruct c as [[] [] [] [] [] [] [] []]; reflexivity. Qed.

Lemma small_letter_keeps_digits c : is_stress_digit (small_letter c) = is_stress_digit c.
Proof. destruct c as [[] [] [] [] [] [] [] []]; reflexivity. Qed.

(** The code puts the phone in lower case first and strips the digits
    after; the specification strips first.  Both give the same phone. *)
Lemma strip_digits_lower_as_specified phone :
  strip_digits (lower phone) = lowercased (without_stress phone).
Proof.
  induction phone as [| c rest IH]; [reflexivity |].
  simpl. rewrite is_digit_stress_digit, lower_char_small_letter, small_letter_keeps_digits.
  destruct (is_stress_digit c); simpl; now rewrite IH.
Qed.

End DiphoneKeysFacts.

(** C5. For a phone list of length [n], [phones_to_diphones] returns
    exactly [n + 1] keys: the keys [a-b.wav] of the adjacent pairs of the
    lowercased, digit-stripped phones with [pau] put before and after
    them; the empty list gives the single key of [pau] and [pau].
    Lowercased and digit-stripped are taken in the specification's own
    words ([DiphoneKeys.lowercased], [DiphoneKeys.without_stress]), not
    through the functions the code calls. *)
Theorem phones_to_diphones_keys (phones : list string) :
  Synth.phones_to_diphones phones
    = DiphoneKeys.adjacent_keys (DiphoneKeys.padded phones)
  /\ length (Synth.phones_to_diphones phones) = Datatypes.S (length phones)
  /\ Synth.phones_to_diphones [] = ["pau-pau.wav"%string].
Proof.
  assert (E : Synth.phones_to_diphones phones
              = DiphoneKeys.adjacent_keys (DiphoneKeys.padded phones)).
  { unfold Synth.phones_to_diphones, DiphoneKeys.padded.
    rewrite (DiphoneKeysFacts.diphone_loop_spec _ _ 0%nat []) by reflexivity.
    rewrite drop_0, map_map.
    rewrite (List.map_ext _ _ DiphoneKeysFacts.strip_digits_lower_as_specified).
    reflexivity. }
  split; [exact E |]. split; [| reflexivity].
  rewrite E, DiphoneKeysFacts.adjacent_keys_length. unfold DiphoneKeys.padded.
  simpl. rewrite length_app, length_map. simpl. lia.
Qed.

(** The keys of HH AH0 L OW1, with capital letters and stress digits
    in the phones, and of a phone list of mixed case. *)
Lemma phones_to_diphones_keys_witness :
  Synth.phones_to_diphones ["HH"; "AH0"; "L"; "OW1"]%string
  = ["pau-hh.wav"; "hh-ah.wav"; "ah-l.wav"; "l-ow.wav"; "ow-pau.wav"]%string
  /\ length (Synth.phones_to_diphones ["HH"; "AH0"; "L"; "OW1"]%string) = 5%nat
  /\ Synth.phones_to_diphones ["Ey2"; "b3C"]%string
     = ["pau-ey.wav"; "ey-bc.wav"; "bc-pau.wav"]%string.
Proof.
  destruct (phones_to_diphones_keys ["HH"; "AH0"; "L"; "OW1"]%string) as (E & L & _).
  destruct (phones_to_diphones_keys ["Ey2"; "b3C"]%string) as (E' & _).
  split; [rewrite E; reflexivity |].
  split; [exact L | rewrite E'; reflexivity].
Defined.

(** ** [synthesise] without crossfade *)

Module PlainFacts.

Import Synth Units.

Lemma with_output_nil w : with_output w [] = w.
Proof. destruct w. unfold with_output. simpl. now rewrite app_nil_r. Qed.

Lemma with_output_app w l1 l2 :
  with_output (with_output w l1) l2 = with_output w (l1 ++ l2).
Proof. unfold with_output. simpl. now rewrite app_assoc. Qed.

Lemma gather_plain keys : forall concat_ary list_for_smoothing w,
  for_in keys (concat_ary, list_for_smoothing) (gather false) w
  = (with_output w (reported (diphones (self w)) keys),
     Ok (concat_ary ++ concatenation (diphones (self w)) keys, list_for_smoothing)).
Proof.
  induction keys as [| k keys IH]; intros c l w.
  - simpl. unfold ret, concatenation. simpl.
    now rewrite with_output_nil, app_nil_r.
  - simpl for_in. unfold bind at 1.
    unfold gather at 1, try_except, getitem, bind, gets, contents, concatenation.
    simpl fst. simpl snd. simpl resolved. simpl reported.
    destruct (diphones (self w) !! k) as [samples |] eqn:Hk.
    + simpl. rewrite IH. unfold concatenation, Np.concatenate, samples_of.
      now rewrite <- app_assoc.
    + simpl. rewrite IH. simpl. fold (with_output w [missing_diphone k]).
      now rewrite with_output_app.
Qed.

End PlainFacts.

(** C7. Without crossfade, [synthesise] never raises on a key the
    inventory lacks: it returns the in-order concatenation of the sample
    arrays of the keys the inventory holds (flipped when the signal is to
    be reversed), prints one report for every other key and inserts
    nothing in its place; the inventory is as it was. *)
Theorem synthesise_plain_skips_missing (phones : list string) (reverse : option string)
    (w : Synth.world) :
  let inventory := Synth.diphones (Synth.self w) in
  let keys := Synth.phones_to_diphones phones in
  Synth.synthesise phones reverse false w
  = (Units.with_output w (Units.reported inventory keys),
     Ok (Synth.mkAudio (Synth.rate (Synth.self w))
           (Units.reversed_if_signal reverse (Units.concatenation inventory keys)))).
Proof.
  intros inventory keys. unfold Synth.synthesise.
  unfold bind at 1, gets at 1.
  unfold bind at 1. rewrite PlainFacts.gather_plain. reflexivity.
Qed.

(** ** [smooth_end] and [smooth_beg] *)

Module RampFacts.

Import Synth Ramps.

Lemma with_unit_same w unit a :
  diphones (self w) !! unit = Some a -> with_unit w unit a = w.
Proof.
  intros H. destruct w as [[r inv] out]. unfold with_unit. simpl in *.
  now rewrite insert_id.
Qed.

Lemma with_unit_twice w unit a b :
  with_unit (with_unit w unit a) unit b = with_unit w unit b.
Proof. unfold with_unit. simpl. now rewrite insert_insert_eq. Qed.

Lemma with_unit_lookup w unit a :
  diphones (self (with_unit w unit a)) !! unit = Some a.
Proof. unfold with_unit. simpl. apply lookup_insert_eq. Qed.

Lemma range_of_nat n : range (Z.of_nat n) = map Z.of_nat (seq 0 n).
Proof. unfold range. now rewrite Nat2Z.id. Qed.

Lemma length_factors n : length (factors n) = n.
Proof. unfold factors. now rewrite length_map, length_seq. Qed.

Lemma slice_from_neg {A} (a : list A) n :
  (0 < n <= length a)%nat ->
  Np.slice_from (- Z.of_nat n) a = drop (length a - n) a.
Proof.
  intros Hn. unfold Np.slice_from, Np.slice, Np.clamp_index.
  assert (E1 : (- Z.of_nat n <? 0) = true) by (apply Z.ltb_lt; lia).
  assert (E2 : (Z.of_nat (length a) <? 0) = false) by (apply Z.ltb_ge; lia).
  rewrite E1, E2.
  replace (Z.to_nat (Z.max 0 (- Z.of_nat n + Z.of_nat (length a))))
    with (length a - n)%nat by lia.
  apply take_ge. rewrite length_drop. lia.
Qed.

Lemma slice_to_nat {A} (a : list A) n :
  Np.slice_to (Z.of_nat n) a = take n a.
Proof.
  unfold Np.slice_to, Np.slice, Np.clamp_index.
  assert (E1 : (Z.of_nat n <? 0) = false) by (apply Z.ltb_ge; lia).
  rewrite E1. change (0 <? 0) with false. cbv iota.
  replace (Z.to_nat (0 `min` Z.of_nat (length a))) with 0%nat by lia.
  rewrite drop_0.
  destruct (decide (n <= length a)%nat).
  - f_equal. lia.
  - rewrite !take_ge by lia. reflexivity.
Qed.

Lemma view_from_base_neg {A} (a : list A) n :
  (0 < n <= length a)%nat ->
  Np.view_from_base (- Z.of_nat n) a = (length a - n)%nat.
Proof.
  intros Hn. unfold Np.view_from_base, Np.clamp_index.
  assert (E1 : (- Z.of_nat n <? 0) = true) by (apply Z.ltb_lt; lia).
  rewrite E1. lia.
Qed.

(** The loop of [smooth_end]: the writes through the view put the new
    values one after the other from position [base] on. *)
Lemma tail_writes unit n vals base : forall m k w cur,
  (0 < n)%nat ->
  diphones (self w) !! unit = Some cur ->
  length vals = n -> (base + n = length cur)%nat -> (k + m = n)%nat ->
  for_in (map Z.of_nat (seq k m)) tt
    (fun _ i =>
       let* v := list_get vals i in
       view_from_setitem unit (- Z.of_nat n) i v) w
  = (with_unit w unit (list_inserts (base + k) (take m (drop k vals)) cur), Ok tt).
Proof.
  induction m as [| m IH]; intros k w cur Hn Hcur Hvals Hbase Hk.
  - simpl. unfold ret. now rewrite with_unit_same.
  - simpl for_in.
    destruct (vals !! k) as [v |] eqn:Hv.
    2: { apply lookup_ge_None in Hv. lia. }
    rewrite (run_bind_ok _ _ w (with_unit w unit (<[(base + k)%nat := v]> cur)) tt).
    + rewrite (IH (Datatypes.S k) _ (<[(base + k)%nat := v]> cur)); try lia.
      * rewrite with_unit_twice. f_equal. f_equal.
        rewrite (drop_S vals v k Hv). simpl take. simpl list_inserts.
        rewrite list_insert_inserts_lt by lia.
        f_equal. lia.
      * apply with_unit_lookup.
      * now rewrite length_insert.
    + rewrite (run_bind_ok _ _ w w v) by now apply run_list_get_nat.
      unfold view_from_setitem, bind, contents, gets. rewrite Hcur. change (default [] (Some cur)) with cur.
      rewrite view_from_base_neg by lia. rewrite Nat2Z.id.
      destruct (decide (k < length cur - (length cur - n))%nat) as [_ | Hno]; [| lia].
      unfold set_contents, modify, with_unit.
      replace (length cur - n + k)%nat with (base + k)%nat by lia. reflexivity.
Qed.

Lemma head_writes unit n vals : forall m k w cur,
  diphones (self w) !! unit = Some cur ->
  length vals = n -> (n <= length cur)%nat -> (k + m = n)%nat ->
  for_in (map Z.of_nat (seq k m)) tt
    (fun _ i =>
       let* v := list_get vals i in
       view_to_setitem unit (Z.of_nat n) i v) w
  = (with_unit w unit (list_inserts k (take m (drop k vals)) cur), Ok tt).
Proof.
  induction m as [| m IH]; intros k w cur Hcur Hvals Hlen Hk.
  - simpl. unfold ret. now rewrite with_unit_same.
  - simpl for_in.
    destruct (vals !! k) as [v |] eqn:Hv.
    2: { apply lookup_ge_None in Hv. lia. }
    rewrite (run_bind_ok _ _ w (with_unit w unit (<[k := v]> cur)) tt).
    + rewrite (IH (Datatypes.S k) _ (<[k := v]> cur)); try lia.
      * rewrite with_unit_twice. f_equal. f_equal.
        rewrite (drop_S vals v k Hv). simpl take. simpl list_inserts.
        now rewrite list_insert_inserts_lt by lia.
      * apply with_unit_lookup.
      * now rewrite length_insert.
    + rewrite (run_bind_ok _ _ w w v) by now apply run_list_get_nat.
      unfold view_to_setitem, bind, contents, gets. rewrite Hcur. change (default [] (Some cur)) with cur.
      rewrite slice_to_nat, Nat2Z.id, length_take.
      destruct (decide (k < n `min` length cur)%nat) as [_ | Hno]; [| lia].
      reflexivity.
Qed.

Lemma map_zip_scaled (l : list Z) (k : list spec_float) :
  map (fun ab => scaled (fst ab) (snd ab)) (zip l k) = zip_with scaled l k.
Proof.
  revert k. induction l as [| x l IH]; intros [| y k]; simpl; try reflexivity.
  now rewrite IH.
Qed.

Lemma factors_as_range n :
  map (fun i => Float64.truediv i (Z.of_nat n)) (map Z.of_nat (seq 0 n)) = factors n.
Proof. unfold factors. now rewrite map_map. Qed.

Lemma inserts_tail (a vals : list Z) n :
  length vals = n -> (n <= length a)%nat ->
  list_inserts (length a - n + 0) (take n (drop 0 vals)) a
  = take (length a - n) a ++ vals.
Proof.
  intros Hv Hn. rewrite drop_0, take_ge by lia.
  rewrite <- (take_drop (length a - n) a) at 2.
  replace (length a - n + 0)%nat with (length (take (length a - n) a) + 0)%nat
    by (rewrite length_take; lia).
  rewrite list_inserts_app_r.
  f_equal.
  rewrite <- (app_nil_r (drop (length a - n) a)).
  rewrite list_inserts_0_r by (rewrite length_drop; lia).
  apply app_nil_r.
Qed.

Lemma inserts_head (a vals : list Z) n :
  length vals = n -> (n <= length a)%nat ->
  list_inserts 0 (take n (drop 0 vals)) a = vals ++ drop n a.
Proof.
  intros Hv Hn. rewrite drop_0, take_ge by lia.
  rewrite <- (take_drop n a) at 1.
  apply list_inserts_0_r. rewrite length_take. lia.
Qed.

(** [smooth_end] rewrites the array it is given, in place. *)
Lemma smooth_end_run w unit a n :
  diphones (self w) !! unit = Some a -> (0 < n <= length a)%nat ->
  smooth_end unit (Z.of_nat n) w = (with_unit w unit (tail_ramped n a), Ok unit).
Proof.
  intros Ha Hn. unfold smooth_end.
  rewrite range_of_nat, factors_as_range.
  unfold bind at 1, contents at 1, gets at 1. rewrite Ha.
  change (default [] (Some a)) with a.
  rewrite map_zip_scaled, slice_from_neg by lia.
  set (vals := zip_with scaled (drop (length a - n) a) (reverse (factors n))).
  assert (Hvals : length vals = n).
  { unfold vals. rewrite length_zip_with, length_drop, length_reverse, length_factors. lia. }
  erewrite run_bind_ok.
  2: { apply (tail_writes unit n vals (length a - n) n 0 w a); auto; lia. }
  unfold ret. rewrite inserts_tail by lia. reflexivity.
Qed.

Lemma smooth_beg_run w unit a n :
  diphones (self w) !! unit = Some a -> (n <= length a)%nat ->
  smooth_beg unit (Z.of_nat n) w = (with_unit w unit (head_ramped n a), Ok unit).
Proof.
  intros Ha Hn. unfold smooth_beg.
  rewrite range_of_nat, factors_as_range.
  unfold bind at 1, contents at 1, gets at 1. rewrite Ha.
  change (default [] (Some a)) with a.
  rewrite map_zip_scaled, slice_to_nat.
  set (vals := zip_with scaled (take n a) (factors n)).
  assert (Hvals : length vals = n).
  { unfold vals. rewrite length_zip_with, length_take, length_factors. lia. }
  erewrite run_bind_ok.
  2: { apply (head_writes unit n vals n 0 w a); auto. }
  unfold ret. rewrite inserts_head by lia. reflexivity.
Qed.

Lemma length_tail_ramped n a : (n <= length a)%nat -> length (tail_ramped n a) = length a.
Proof.
  intros Hn. unfold tail_ramped.
  rewrite length_app, length_take, length_zip_with, length_drop, length_reverse, length_factors.
  lia.
Qed.

Lemma length_head_ramped n a : (n <= length a)%nat -> length (head_ramped n a) = length a.
Proof.
  intros Hn. unfold head_ramped.
  rewrite length_app, length_zip_with, length_take, length_drop, length_factors.
  lia.
Qed.

Lemma lookup_factors n i : (i < n)%nat -> factors n !! i = Some (code_factor n i).
Proof.
  intros Hi. unfold factors, code_factor.
  rewrite list_lookup_fmap, lookup_seq_lt by lia. reflexivity.
Qed.

(** Sample by sample: offset [i] from the end gets the factor [i/n]. *)
Lemma tail_ramped_is_tail_ramp n a :
  (n <= length a)%nat -> is_tail_ramp (code_factor n) n a (tail_ramped n a).
Proof.
  intros Hn. split; [now apply length_tail_ramped |]. split.
  - intros i Hi. unfold tail_ramped.
    rewrite lookup_app_r by (rewrite length_take; lia).
    rewrite length_take.
    replace (length a - 1 - i - (length a - n) `min` length a)%nat with (n - 1 - i)%nat by lia.
    rewrite lookup_zip_with, lookup_drop.
    replace (length a - n + (n - 1 - i))%nat with (length a - 1 - i)%nat by lia.
    destruct (a !! (length a - 1 - i)%nat) as [x |] eqn:Hx.
    2: { apply lookup_ge_None in Hx. lia. }
    simpl. rewrite reverse_lookup by (rewrite length_factors; lia).
    rewrite length_factors.
    replace (n - Datatypes.S (n - 1 - i))%nat with i by lia.
    now rewrite lookup_factors.
  - intros j Hj. unfold tail_ramped.
    rewrite lookup_app_l by (rewrite length_take; lia).
    now apply lookup_take_lt.
Qed.

End RampFacts.

(** C3 (as amended). [smooth_end] on an array of at least [n] samples,
    [n] positive, returns the same array object, rewritten in place: the
    sample at offset [i] from the end ([i] from 0 to [n - 1], offset 0
    the very last sample) is replaced by [int(a * (i / n))], the float
    product truncated to an integer, so that the last sample gets the
    factor [0/n] and the first of the window [(n-1)/n]; all earlier
    samples are unchanged. *)
Theorem smooth_end_tail_ramp (w : Synth.world) (unit : Synth.ndarray) (a : list Z) (n : nat) :
  Synth.diphones (Synth.self w) !! unit = Some a ->
  (0 < n <= length a)%nat ->
  exists a',
    Synth.smooth_end unit (Z.of_nat n) w = (Ramps.with_unit w unit a', Ok unit)
    /\ Ramps.is_tail_ramp (Ramps.code_factor n) n a a'.
Proof.
  intros Ha Hn. exists (Ramps.tail_ramped n a). split.
  - now apply RampFacts.smooth_end_run.
  - apply RampFacts.tail_ramped_is_tail_ramp. lia.
Qed.

Lemma smooth_end_tail_ramp_witness :
  exists a',
    Synth.smooth_end "u" 2 Examples.one_array
    = (Ramps.with_unit Examples.one_array "u" a', Ok "u"%string)
    /\ Ramps.is_tail_ramp (Ramps.code_factor 2) 2 [10; 10; 10; 10] a'.
Proof.
  apply (smooth_end_tail_ramp Examples.one_array "u" [10; 10; 10; 10] 2).
  - reflexivity.
  - simpl. lia.
Defined.

(** C3 (as stated) fails: with a window of two samples on [10, 10, 10,
    10] the array becomes [10, 10, 5, 0]; the last sample (offset 0) is
    scaled by 0/2 and not by (2-1-0)/2. *)
Lemma smooth_end_claimed_offsets_fail :
  Units.samples_of
    (Synth.diphones (Synth.self (fst (Synth.smooth_end "u" 2 Examples.one_array)))) "u"
  = [10; 10; 5; 0]
  /\ ~ Ramps.is_tail_ramp (Ramps.claimed_factor 2) 2 [10; 10; 10; 10] [10; 10; 5; 0].
Proof.
  split; [vm_compute; reflexivity |].
  intros (_ & Hramp & _). specialize (Hramp 0%nat ltac:(lia)).
  vm_compute in Hramp. discriminate.
Qed.

(** C1 (fails on the code). With crossfade, [synthesise] ramps the
    arrays of the inventory themselves: after one call on the phone [a]
    the unit [pau-a.wav] has lost its last two samples' amplitude, and a
    second call with the same phones and flags returns another buffer. *)
Theorem crossfade_rewrites_inventory :
  let w := Examples.two_units in
  let first := Synth.synthesise ["a"%string] None true w in
  let second := Synth.synthesise ["a"%string] None true (fst first) in
  Synth.diphones (Synth.self w) !! "pau-a.wav"%string = Some [10; 10; 10; 10; 10; 10]
  /\ Synth.diphones (Synth.self (fst first)) !! "pau-a.wav"%string = Some [10; 10; 10; 10; 5; 0]
  /\ snd first = Ok (Synth.mkAudio 200 [10; 10; 10; 10; 5; 10; 20; 20; 20; 20])
  /\ snd second = Ok (Synth.mkAudio 200 [10; 10; 10; 10; 2; 5; 20; 20; 20; 20]).
Proof. vm_compute. repeat split. Qed.

(** C2 (fails on the code). With crossfade and no unit resolved,
    [synthesise] raises IndexError at [list_for_smoothing[0]]; with one
    unit resolved it smooths that unit at both ends and joins it to
    itself: five samples [10, 20, 30, 40, 50] give eight. *)
Theorem crossfade_degenerate_cases :
  Units.resolved (Synth.diphones (Synth.self Examples.empty_inventory))
    (Synth.phones_to_diphones []) = []
  /\ snd (Synth.synthesise [] None true Examples.empty_inventory) = Raise IndexError
  /\ Units.resolved (Synth.diphones (Synth.self Examples.silence_only))
       (Synth.phones_to_diphones []) = ["pau-pau.wav"%string]
  /\ snd (Synth.synthesise [] None true Examples.silence_only)
     = Ok (Synth.mkAudio 200 [0; 10; 30; 20; 10; 30; 20; 0]).
Proof. vm_compute. repeat split. Qed.

(** ** [normalise_phrase] and [normalise_dates] *)

Module DateFacts.

Import Str Utterance Dates.

Lemma append_cons x (a b : string) : String x a +:+ b = String x (a +:+ b).
Proof. reflexivity. Qed.

Lemma append_nil_l (b : string) : EmptyString +:+ b = b.
Proof. reflexivity. Qed.

Lemma span_digits_app g r :
  all_digits g = true -> stops_digits r -> span_digits (g +:+ r) = (g, r).
Proof.
  intros Hg Hr. induction g as [| c g IH].
  - rewrite append_nil_l. destruct r as [| c r]; simpl in *; [reflexivity | now rewrite Hr].
  - simpl in Hg. apply andb_prop in Hg as [Hc Hg].
    rewrite append_cons. simpl. rewrite Hc, (IH Hg). reflexivity.
Qed.

Lemma span_digits_spec s :
  all_digits (fst (span_digits s)) = true /\ stops_digits (snd (span_digits s)).
Proof.
  induction s as [| c s [IH1 IH2]]; simpl; [easy |].
  destruct (is_digit c) eqn:Hc; simpl.
  - now rewrite Hc.
  - easy.
Qed.

Lemma span_digits_digits s g r : span_digits s = (g, r) -> all_digits g = true.
Proof. intros H. pose proof (span_digits_spec s) as [H1 _]. now rewrite H in H1. Qed.

Lemma append_assoc (a b c : string) : (a +:+ b) +:+ c = a +:+ (b +:+ c).
Proof. induction a as [| x a IH]; [reflexivity |]. rewrite !append_cons. now rewrite IH. Qed.

Lemma append_nil_r (a : string) : a +:+ EmptyString = a.
Proof. induction a as [| x a IH]; [reflexivity |]. rewrite append_cons. now rewrite IH. Qed.

(** Matching again on the matched text gives the same groups: this is
    what [normalise_dates] does with [group(0)] of the search. *)
Lemma slash_append (t : string) : "/" +:+ t = String "/" t.
Proof. reflexivity. Qed.

Lemma match_date_again s m : match_date s = Some m -> match_date (group0 m) = Some m.
Proof.
  unfold match_date.
  destruct (span_digits s) as [g1 r1] eqn:E1.
  destruct g1 as [| c1 g1]; [discriminate |].
  destruct r1 as [| x r2]; [discriminate |].
  destruct (decide (x = "/"%char)) as [-> | Hx].
  2: { destruct x as [[] [] [] [] [] [] [] []]; try discriminate; now contradict Hx. }
  destruct (span_digits r2) as [g2 r3] eqn:E2.
  destruct g2 as [| c2 g2]; [discriminate |].
  pose proof (span_digits_digits _ _ _ E1) as D1.
  pose proof (span_digits_digits _ _ _ E2) as D2.
  assert (Hslash : forall t, stops_digits (String "/" t)) by (intros; reflexivity).
  destruct r3 as [| y r4].
  - intros [= <-]. simpl group0; rewrite ?slash_append.
    rewrite (span_digits_app (String c1 g1) _ D1 (Hslash _)).
    rewrite <- (append_nil_r (String c2 g2)) at 1.
    rewrite (span_digits_app (String c2 g2) EmptyString D2 I).
    rewrite ?append_nil_r. reflexivity.
  - destruct (decide (y = "/"%char)) as [-> | Hy].
    + destruct (span_digits r4) as [g3 r5] eqn:E3.
      pose proof (span_digits_digits _ _ _ E3) as D3.
      destruct (2 <=? String.length g3)%nat eqn:H3; intros [= <-]; simpl group0; rewrite ?slash_append.
      * rewrite (span_digits_app (String c1 g1) _ D1 (Hslash _)).
        rewrite (span_digits_app (String c2 g2) _ D2 (Hslash _)).
        rewrite <- (append_nil_r g3) at 1.
        rewrite (span_digits_app g3 EmptyString D3 I).
        rewrite ?append_nil_r, ?H3. reflexivity.
      * rewrite (span_digits_app (String c1 g1) _ D1 (Hslash _)).
        rewrite (span_digits_app (String c2 g2) _ D2 (Hslash _)).
        reflexivity.
    + intros H.
      assert (Hm : m = mkMatch (String c1 g1 +:+ "/" +:+ String c2 g2)
                     (String c1 g1) (String c2 g2) None).
      { destruct y as [[] [] [] [] [] [] [] []]; try (now inversion H); now contradict Hy. }
      subst m. simpl group0; rewrite ?slash_append.
      rewrite (span_digits_app (String c1 g1) _ D1 (Hslash _)).
      rewrite <- (append_nil_r (String c2 g2)) at 1.
      rewrite (span_digits_app (String c2 g2) EmptyString D2 I).
      rewrite ?append_nil_r. reflexivity.
Qed.

Lemma search_date_again s m : search_date s = Some m -> match_date (group0 m) = Some m.
Proof.
  induction s as [| c s IH]; simpl.
  - discriminate.
  - destruct (match_date (String c s)) eqn:E.
    + intros [= <-]. now apply match_date_again in E.
    + exact IH.
Qed.

End DateFacts.

Module PhraseFacts.

Import Str Utterance Dates DateFacts.

(** A day or a month that is not in its table ends [normalise_dates]
    with the KeyError of the first missing key: the month is looked up
    before the day. *)
Lemma normalise_dates_out_of_range date m :
  match_date date = Some m -> out_of_range m ->
  exists key, forall S (s : S), normalise_dates date s = (s, Raise (KeyError key)).
Proof.
  intros Hm Hbad.
  exists (match table_find mths (lstrip_zeros (group2 m)) with
          | None => lstrip_zeros (group2 m)
          | Some _ => lstrip_zeros (group1 m)
          end).
  intros S s. unfold normalise_dates. rewrite Hm.
  assert (Hday : table_find mths (lstrip_zeros (group2 m)) <> None ->
                 table_find dys (lstrip_zeros (group1 m)) = None).
  { destruct Hbad as [Hb | Hb]; [now intros [] | now intros _]. }
  unfold date_teens, date_tens_ones, date_no_year, table_get, bind, raise, ret.
  destruct (table_find mths (lstrip_zeros (group2 m))) as [mw |].
  - rewrite Hday by discriminate.
    destruct (group3 m) as [[| c y] |]; try reflexivity.
    destruct (table_mem yrs_10to19 (two_digit_year (String c y))); reflexivity.
  - destruct (group3 m) as [[| c y] |]; try reflexivity.
    destruct (table_mem yrs_10to19 (two_digit_year (String c y))); reflexivity.
Qed.

(** One call of [normalise_phrase] on a phrase with a date in it. *)
Lemma normalise_phrase_at_raise depth w m e :
  search_date (phrase w) = Some m ->
  (forall s : world, normalise_dates (group0 m) s = (s, Raise e)) ->
  normalise_phrase_at (S depth) w = (w, Raise e).
Proof.
  intros Hs Hd. simpl. unfold bind at 1, gets at 1. simpl.
  rewrite Hs. unfold bind at 1. unfold bind at 1, gets at 1.
  unfold bind at 1. rewrite Hd. reflexivity.
Qed.

End PhraseFacts.

(** C9. [normalise_phrase] on the phrase 09/03/1973 returns the tokens
    march, ninth, nineteen, seventy, three, and so it does on 09/03/73. *)
Theorem normalise_phrase_date_examples (out : list string) :
  Utterance.normalise_phrase (Utterance.mkWorld "09/03/1973" out)
  = (Utterance.mkWorld "march ninth nineteen seventy three" out,
     Ok ["march"; "ninth"; "nineteen"; "seventy"; "three"]%string)
  /\ Utterance.normalise_phrase (Utterance.mkWorld "09/03/73" out)
     = (Utterance.mkWorld "march ninth nineteen seventy three" out,
        Ok ["march"; "ninth"; "nineteen"; "seventy"; "three"]%string).
Proof. split; vm_compute; reflexivity. Qed.

Module YearFacts.

Import Str Utterance.

(** A digit of the tens table is not 1, so the year is not a teen. *)
Lemma tens_digit_not_teen a b tw :
  table_find yrs_tens (String a EmptyString) = Some tw ->
  table_mem yrs_10to19 (String a (String b EmptyString)) = false.
Proof.
  intros Ht.
  destruct a as [[] [] [] [] [] [] [] []]; vm_compute in Ht; try discriminate;
    unfold table_mem, table_find, yrs_10to19;
    repeat (match goal with
            | |- context [decide (?x = ?y)] =>
                destruct (decide (x = y)) as [E | _]; [discriminate E |]
            end);
    reflexivity.
Qed.

Lemma two_digit_year_nonempty year a b :
  two_digit_year year = String a (String b EmptyString) -> year <> EmptyString.
Proof. intros H ->. vm_compute in H. discriminate. Qed.

End YearFacts.

(** X21. For a date with a year whose last two digits are [a] and [b],
    [a] in the tens table (0 and 2 to 9, the word of 0 being the token o)
    and [b] in the ones table (1 to 9), and with day and month in their
    tables, [normalise_dates] returns the month, the day, nineteen, the
    tens word and the ones word, in this order. *)
Theorem normalise_dates_tens_and_ones {S : Type} (s : S) (date : string)
    (m : Utterance.Match) (year : string) (a b : ascii) (mw dw tw ow : string) :
  Utterance.match_date date = Some m ->
  Utterance.group3 m = Some year ->
  Utterance.two_digit_year year = String a (String b EmptyString) ->
  Utterance.table_find Utterance.mths (Str.lstrip_zeros (Utterance.group2 m)) = Some mw ->
  Utterance.table_find Utterance.dys (Str.lstrip_zeros (Utterance.group1 m)) = Some dw ->
  Utterance.table_find Utterance.yrs_tens (String a EmptyString) = Some tw ->
  Utterance.table_find Utterance.yrs_ones (String b EmptyString) = Some ow ->
  Utterance.normalise_dates date s
  = (s, Ok (mw +:+ " " +:+ dw +:+ " nineteen " +:+ tw +:+ " " +:+ ow)).
Proof.
  intros Hm Hy H2 Hmw Hdw Htw How.
  unfold Utterance.normalise_dates. rewrite Hm, Hy.
  pose proof (YearFacts.two_digit_year_nonempty _ _ _ H2) as Hne.
  destruct year as [| c year]; [now contradict Hne |].
  rewrite H2, (YearFacts.tens_digit_not_teen a b tw Htw).
  unfold Utterance.date_tens_ones, Utterance.table_get, bind.
  rewrite Hmw, Hdw. unfold ret at 1 2.
  change (Utterance.str_get (String a (String b EmptyString)) 0 s)
    with (s, Ok (String a EmptyString)).
  cbv iota beta. rewrite Htw. unfold ret at 1.
  change (Utterance.str_get (String a (String b EmptyString)) 1 s)
    with (s, Ok (String b EmptyString)).
  cbv iota beta. rewrite How. reflexivity.
Qed.

Lemma normalise_dates_tens_and_ones_witness :
  Utterance.normalise_dates "09/03/1905" tt
  = (tt, Ok ("march" +:+ " " +:+ "ninth" +:+ " nineteen " +:+ "o" +:+ " " +:+ "five")).
Proof.
  apply (normalise_dates_tens_and_ones tt "09/03/1905"
           (Utterance.mkMatch "09/03/1905" "09" "03" (Some "1905"%string))
           "1905" "0" "5" "march" "ninth" "o" "five"); reflexivity.
Defined.

(** C4. The code misses the case the claim names: the year 70 has the
    ones digit 0, and the token o is the word of the key 0 in the tens
    table only; the ones table has no key 0.  [normalise_dates] finds
    the month, the day and the tens word seventy, then raises KeyError on
    the key 0 instead of returning nineteen seventy o, and
    [normalise_phrase] lets the error through. *)
Theorem normalise_dates_year_70_raises :
  Utterance.table_find Utterance.yrs_tens "0" = Some "o"%string
  /\ Utterance.table_find Utterance.yrs_tens "7" = Some "seventy"%string
  /\ Utterance.table_find Utterance.yrs_ones "0" = None
  /\ Utterance.normalise_dates "09/03/70" tt = (tt, Raise (KeyError "0"))
  /\ Utterance.normalise_phrase (Utterance.mkWorld "09/03/70" [])
     = (Utterance.mkWorld "09/03/70" [], Raise (KeyError "0")).
Proof. repeat split; vm_compute; reflexivity. Qed.

(** ** [get_phone_seq] *)

Module LexiconFacts.

Import Utterance Lexicon.

Lemma phrase_output_nil w : with_output w [] = w.
Proof. destruct w. unfold with_output. simpl. now rewrite app_nil_r. Qed.

Lemma phrase_output_app w l1 l2 :
  with_output (with_output w l1) l2 = with_output w (l1 ++ l2).
Proof. unfold with_output. simpl. now rewrite app_assoc. Qed.

(** The loop over the words: a word of the dictionary adds its first
    pronunciation, any other word is reported and adds nothing. *)
Lemma lookup_loop dictionary words :
  entries_nonempty dictionary ->
  forall list_of_phones w,
    for_in words list_of_phones (fun list_of_phones word =>
      try_except
        (let* pronunciations := dictionary_get dictionary word in
         let* first := list_get pronunciations 0 in
         ret (list_of_phones ++ first))
        (on_KeyError (fun _ =>
           print (word_not_found word) ;;
           ret list_of_phones))) w
    = (with_output w (not_found dictionary words),
       Ok (list_of_phones ++ phones_of dictionary words)).
Proof.
  intros Hne. induction words as [| word words IH]; intros acc w.
  - simpl. unfold ret, phones_of. simpl. now rewrite phrase_output_nil, app_nil_r.
  - simpl for_in. unfold bind at 1.
    unfold try_except, dictionary_get, bind, phones_of, first_pronunciation.
    simpl map. simpl not_found.
    destruct (dictionary !! word) as [pronunciations |] eqn:Hw.
    + destruct pronunciations as [| first rest]; [now apply Hne in Hw |].
      simpl. rewrite IH. unfold phones_of. now rewrite <- app_assoc.
    + simpl. rewrite IH. fold (with_output w [word_not_found word]).
      rewrite phrase_output_app. simpl. reflexivity.
Qed.

End LexiconFacts.

(** C8. When the phrase normalises to a list of tokens, [get_phone_seq]
    raises no error, whether or not some token is absent from the
    pronunciation dictionary: it returns the in-order concatenation of
    the first pronunciations of the tokens the dictionary has, an absent
    token adds no phone and is reported on the output.  (Tokens are taken
    in reverse order for [reverse = words], and the phones are reversed
    for [reverse = phones].) *)
Theorem get_phone_seq_skips_unknown_words
    (dictionary : gmap string (list (list string))) (reverse : option string)
    (w w' : Utterance.world) (words : list string) :
  Lexicon.entries_nonempty dictionary ->
  Utterance.normalise_phrase w = (w', Ok words) ->
  Utterance.get_phone_seq dictionary reverse w
  = (Lexicon.with_output w'
       (Lexicon.not_found dictionary (Lexicon.words_order reverse words)),
     Ok (Lexicon.phones_order reverse
           (Lexicon.phones_of dictionary (Lexicon.words_order reverse words)))).
Proof.
  intros Hne Hnorm. unfold Utterance.get_phone_seq.
  rewrite (run_bind_ok _ _ w w' words Hnorm).
  erewrite run_bind_ok by (apply LexiconFacts.lookup_loop; exact Hne).
  reflexivity.
Qed.

Lemma get_phone_seq_skips_unknown_words_witness :
  Utterance.get_phone_seq Lexicon.small None (Utterance.mkWorld "go zzz home" [])
  = (Utterance.mkWorld "go zzz home" ["Word not found in the dictionary: zzz"%string],
     Ok ["G"; "OW1"; "HH"; "OW1"; "M"]%string).
Proof.
  apply (get_phone_seq_skips_unknown_words Lexicon.small None
           (Utterance.mkWorld "go zzz home" []) (Utterance.mkWorld "go zzz home" [])
           ["go"; "zzz"; "home"]%string).
  - intros word pronunciations H.
    unfold Lexicon.small in H.
    destruct (decide (word = "go"%string)) as [-> | Hgo].
    + rewrite lookup_insert_eq in H. now inversion H.
    + rewrite lookup_insert_ne in H by congruence.
      destruct (decide (word = "home"%string)) as [-> | Hhome].
      * rewrite lookup_insert_eq in H. now inversion H.
      * rewrite lookup_insert_ne in H by congruence.
        rewrite lookup_empty in H. discriminate.
  - vm_compute. reflexivity.
Defined.

(** ** [synthesise] with crossfade *)

Module CrossfadeFacts.

Import Synth Units Ramps Crossfade RampFacts.

Lemma gather_crossfade keys : forall concat_ary list_for_smoothing w,
  for_in keys (concat_ary, list_for_smoothing) (gather true) w
  = (with_output w (reported (diphones (self w)) keys),
     Ok (concat_ary, list_for_smoothing ++ resolved (diphones (self w)) keys)).
Proof.
  induction keys as [| k keys IH]; intros c l w.
  - simpl. unfold ret. now rewrite PlainFacts.with_output_nil, app_nil_r.
  - simpl for_in. unfold bind at 1.
    unfold gather at 1, try_except, getitem, bind, gets.
    simpl fst. simpl snd. simpl resolved. simpl reported.
    destruct (diphones (self w) !! k) as [samples |] eqn:Hk.
    + simpl. rewrite IH. now rewrite <- app_assoc.
    + simpl. rewrite IH. simpl. fold (with_output w [missing_diphone k]).
      now rewrite PlainFacts.with_output_app.
Qed.

Lemma resolved_present inventory keys :
  Forall (fun u => is_Some (inventory !! u)) (resolved inventory keys).
Proof.
  induction keys as [| k keys IH]; simpl; [constructor |].
  destruct (inventory !! k) eqn:Hk; [| exact IH].
  constructor; [| exact IH]. eexists. exact Hk.
Qed.

(** *** Shapes are kept by the ramps *)

Lemma fits_lookup n w unit :
  fits n w unit ->
  exists a, diphones (self w) !! unit = Some a /\ (n <= length a)%nat
            /\ samples_of (diphones (self w)) unit = a.
Proof.
  unfold fits, shape, samples_of.
  destruct (diphones (self w) !! unit) as [a |]; simpl; [| easy].
  intros H. now exists a.
Qed.

Lemma shape_with_unit w unit a v :
  shape (with_unit w unit a) v = if decide (unit = v) then Some (length a) else shape w v.
Proof.
  unfold shape, with_unit. simpl. rewrite lookup_insert. now destruct (decide (unit = v)).
Qed.

Lemma shape_end_ramp n w unit v :
  fits n w unit -> shape (end_ramp n w unit) v = shape w v.
Proof.
  intros Hf. destruct (fits_lookup _ _ _ Hf) as (a & Ha & Hn & Hs).
  unfold end_ramp. rewrite shape_with_unit, Hs.
  destruct (decide (unit = v)) as [<- |]; [| reflexivity].
  unfold shape. rewrite Ha. simpl. now rewrite length_tail_ramped.
Qed.

Lemma shape_beg_ramp n w unit v :
  fits n w unit -> shape (beg_ramp n w unit) v = shape w v.
Proof.
  intros Hf. destruct (fits_lookup _ _ _ Hf) as (a & Ha & Hn & Hs).
  unfold beg_ramp. rewrite shape_with_unit, Hs.
  destruct (decide (unit = v)) as [<- |]; [| reflexivity].
  unfold shape. rewrite Ha. simpl. now rewrite length_head_ramped.
Qed.

Lemma fits_shape n w w' unit :
  (forall v, shape w' v = shape w v) -> fits n w unit -> fits n w' unit.
Proof. intros H. unfold fits. now rewrite H. Qed.

Lemma shape_both_ramps n w unit v :
  fits n w unit -> shape (both_ramps n w unit) v = shape w v.
Proof.
  intros Hf. unfold both_ramps.
  rewrite shape_end_ramp.
  - now apply shape_beg_ramp.
  - apply (fits_shape n w); [| exact Hf]. intros u. now apply shape_beg_ramp.
Qed.

Lemma shape_fold_both n middle : forall w v,
  Forall (fits n w) middle ->
  shape (fold_left (both_ramps n) middle w) v = shape w v.
Proof.
  induction middle as [| u middle IH]; intros w v Hall; [reflexivity |].
  inversion Hall as [| ? ? Hu Hrest]; subst. simpl.
  rewrite IH.
  - now apply shape_both_ramps.
  - eapply Forall_impl; [exact Hrest |]. intros x Hx.
    apply (fits_shape n w); [| exact Hx]. intros y. now apply shape_both_ramps.
Qed.

Lemma shape_smoothed n first middle last w v :
  fits n w first -> Forall (fits n w) middle -> fits n w last ->
  shape (smoothed n first middle last w) v = shape w v.
Proof.
  intros Hf Hm Hl. unfold smoothed.
  assert (H1 : forall u, shape (end_ramp n w first) u = shape w u)
    by (intros; now apply shape_end_ramp).
  assert (Hm1 : Forall (fits n (end_ramp n w first)) middle).
  { eapply Forall_impl; [exact Hm |]. intros x Hx. now apply (fits_shape n w). }
  assert (H2 : forall u, shape (fold_left (both_ramps n) middle (end_ramp n w first)) u
                         = shape w u).
  { intros u. rewrite shape_fold_both by exact Hm1. apply H1. }
  rewrite shape_beg_ramp; [apply H2 |].
  now apply (fits_shape n w).
Qed.

(** *** The smoothing calls *)

Lemma smooth_end_world n w unit :
  (0 < n)%nat -> fits n w unit ->
  smooth_end unit (Z.of_nat n) w = (end_ramp n w unit, Ok unit).
Proof.
  intros Hn Hf. destruct (fits_lookup _ _ _ Hf) as (a & Ha & Hlen & Hs).
  unfold end_ramp. rewrite Hs. apply smooth_end_run; [exact Ha | lia].
Qed.

Lemma smooth_beg_world n w unit :
  fits n w unit ->
  smooth_beg unit (Z.of_nat n) w = (beg_ramp n w unit, Ok unit).
Proof.
  intros Hf. destruct (fits_lookup _ _ _ Hf) as (a & Ha & Hlen & Hs).
  unfold beg_ramp. rewrite Hs. apply smooth_beg_run; [exact Ha | lia].
Qed.

Lemma smooth_middle n middle : forall smooth_dip w,
  (0 < n)%nat -> Forall (fits n w) middle ->
  for_in middle smooth_dip
    (fun smooth_dip element =>
       smooth_beg element (Z.of_nat n) ;;
       smooth_end element (Z.of_nat n) ;;
       ret (smooth_dip ++ [element])) w
  = (fold_left (both_ramps n) middle w, Ok (smooth_dip ++ middle)).
Proof.
  induction middle as [| u middle IH]; intros acc w Hn Hall.
  - simpl. unfold ret. now rewrite app_nil_r.
  - inversion Hall as [| ? ? Hu Hrest]; subst. simpl for_in.
    assert (Hu' : fits n (beg_ramp n w u) u).
    { apply (fits_shape n w); [| exact Hu]. intros v. now apply shape_beg_ramp. }
    rewrite (run_bind_ok _ _ w (both_ramps n w u) (acc ++ [u])).
    + rewrite IH; [now rewrite <- app_assoc | exact Hn |].
      eapply Forall_impl; [exact Hrest |]. intros x Hx.
      apply (fits_shape n w); [| exact Hx]. intros y. now apply shape_both_ramps.
    + rewrite (run_bind_ok _ _ w (beg_ramp n w u) u) by now apply smooth_beg_world.
      rewrite (run_bind_ok _ _ _ (both_ramps n w u) u) by now apply smooth_end_world.
      reflexivity.
Qed.

Lemma slice_inner {A} (x y : A) (l : list A) : Np.slice 1 (-1) (x :: l ++ [y]) = l.
Proof.
  unfold Np.slice, Np.clamp_index.
  change (1 <? 0) with false. change (-1 <? 0) with true. cbv iota.
  simpl length. rewrite length_app. simpl length.
  replace (Z.to_nat (1 `min` Z.of_nat (Datatypes.S (length l + 1)))) with 1%nat by lia.
  replace (Z.to_nat (0 `max` (-1 + Z.of_nat (Datatypes.S (length l + 1)))
                     - 1 `min` Z.of_nat (Datatypes.S (length l + 1))))
    with (length l) by lia.
  change (drop 1 (x :: l ++ [y])) with (l ++ [y]). now rewrite take_app_length.
Qed.

Lemma smooth_the_diphones_run n first middle last w :
  (0 < n)%nat ->
  fits n w first -> Forall (fits n w) middle -> fits n w last ->
  smooth_the_diphones (first :: middle ++ [last]) (Z.of_nat n) w
  = (smoothed n first middle last w, Ok (first :: middle ++ [last])).
Proof.
  intros Hn Hf Hm Hl. unfold smooth_the_diphones.
  rewrite (run_bind_ok _ _ w w first) by reflexivity.
  rewrite (run_bind_ok _ _ w (end_ramp n w first) first) by now apply smooth_end_world.
  rewrite slice_inner.
  assert (H1 : forall u, shape (end_ramp n w first) u = shape w u)
    by (intros; now apply shape_end_ramp).
  assert (Hm1 : Forall (fits n (end_ramp n w first)) middle).
  { eapply Forall_impl; [exact Hm |]. intros x Hx. now apply (fits_shape n w). }
  rewrite (run_bind_ok _ _ _ _ _ (smooth_middle n middle [first] _ Hn Hm1)).
  rewrite (run_bind_ok _ _ _ _ last)
    by (rewrite app_comm_cons; apply run_list_get_last).
  erewrite run_bind_ok.
  2: { apply smooth_beg_world. apply (fits_shape n w); [| exact Hl].
       intros u. rewrite shape_fold_both by exact Hm1. apply H1. }
  reflexivity.
Qed.

(** *** The overlaps *)

Lemma np_add_overlap n (a b : list Z) w :
  (0 < n <= length a)%nat -> (n <= length b)%nat ->
  np_add (Np.slice_from (- Z.of_nat n) a) (Np.slice_to (Z.of_nat n) b) w
  = (w, Ok (overlap n a b)).
Proof.
  intros Ha Hb. rewrite slice_from_neg, slice_to_nat by lia.
  unfold np_add, Np.add, overlap.
  assert (L1 : length (drop (length a - n) a) = n) by (rewrite length_drop; lia).
  assert (L2 : length (take n b) = n) by (rewrite length_take; lia).
  rewrite L1, L2. unfold Np.broadcast_len.
  destruct (decide (n = n)) as [_ | Hno]; [| now contradict Hno].
  unfold Np.stretch. rewrite L1, L2.
  destruct (decide (n = n)) as [_ | Hno]; [| now contradict Hno].
  reflexivity.
Qed.

Lemma overlaps_drop n arrays k a b :
  arrays !! k = Some a -> arrays !! (Datatypes.S k) = Some b ->
  overlaps n (drop k arrays) = overlap n a b :: overlaps n (drop (Datatypes.S k) arrays).
Proof.
  revert arrays. induction k as [| k IH]; intros [| x [| y l']] Ha Hb;
    simpl in *; try discriminate.
  - now inversion Ha; inversion Hb.
  - now apply (IH (y :: l')).
Qed.

Lemma succ_of_nat k : Z.of_nat k + 1 = Z.of_nat (Datatypes.S k).
Proof. lia. Qed.

Lemma fits_samples n w unit : fits n w unit -> (n <= length (samples_of (diphones (self w)) unit))%nat.
Proof. intros Hf. destruct (fits_lookup _ _ _ Hf) as (a & _ & Hn & ->). exact Hn. Qed.

Lemma overlap_loop n us w : forall m k val_to_add,
  (0 < n)%nat -> Forall (fits n w) us -> (k + m = length us)%nat ->
  for_in_break (map Z.of_nat (seq k m)) val_to_add (overlap_step us (Z.of_nat n)) w
  = (w, Ok (val_to_add
            ++ overlaps n (drop k (map (samples_of (diphones (self w))) us)))).
Proof.
  induction m as [| m IH]; intros k acc Hn Hall Hk.
  - simpl. unfold ret. rewrite drop_ge by (rewrite length_map; lia).
    simpl. now rewrite app_nil_r.
  - simpl for_in_break.
    destruct (us !! k) as [e |] eqn:He.
    2: { apply lookup_ge_None in He. lia. }
    assert (Fe : fits n w e) by (eapply Forall_lookup_1; eauto).
    assert (Ae : map (samples_of (diphones (self w))) us !! k
                 = Some (samples_of (diphones (self w)) e))
      by (rewrite list_lookup_fmap, He; reflexivity).
    destruct (us !! Datatypes.S k) as [e' |] eqn:He'.
    + assert (Fe' : fits n w e') by (eapply Forall_lookup_1; eauto).
      assert (Ae' : map (samples_of (diphones (self w))) us !! Datatypes.S k
                    = Some (samples_of (diphones (self w)) e'))
        by (rewrite list_lookup_fmap, He'; reflexivity).
      rewrite (run_bind_ok _ _ w w
                 (inr (acc ++ [overlap n (samples_of (diphones (self w)) e)
                                 (samples_of (diphones (self w)) e')]))).
      * rewrite IH by (auto; lia).
        rewrite (overlaps_drop n _ k _ _ Ae Ae'). now rewrite <- app_assoc.
      * unfold overlap_step, try_except.
        rewrite (run_bind_ok _ _ w w e) by now apply run_list_get_nat.
        rewrite (run_bind_ok _ _ w w (samples_of (diphones (self w)) e)) by reflexivity.
        rewrite succ_of_nat.
        rewrite (run_bind_ok _ _ w w e') by now apply run_list_get_nat.
        rewrite (run_bind_ok _ _ w w (samples_of (diphones (self w)) e')) by reflexivity.
        erewrite run_bind_ok.
        2: { apply np_add_overlap.
             - split; [exact Hn | now apply fits_samples].
             - now apply fits_samples. }
        reflexivity.
    + apply lookup_ge_None in He'.
      rewrite (run_bind_ok _ _ w w (inl acc)).
      * unfold ret.
        assert (Hlast : drop k (map (samples_of (diphones (self w))) us)
                        = [samples_of (diphones (self w)) e]).
        { rewrite (drop_S _ _ k Ae). rewrite drop_ge by (rewrite length_map; lia).
          reflexivity. }
        rewrite Hlast. simpl. now rewrite app_nil_r.
      * unfold overlap_step, try_except.
        rewrite (run_bind_ok _ _ w w e) by now apply run_list_get_nat.
        rewrite (run_bind_ok _ _ w w (samples_of (diphones (self w)) e)) by reflexivity.
        rewrite succ_of_nat.
        rewrite (run_bind_raise _ _ w w IndexError) by now apply run_list_get_past.
        reflexivity.
Qed.

Lemma values_to_add_run n us w :
  (0 < n)%nat -> Forall (fits n w) us ->
  values_to_add us (Z.of_nat n) w
  = (w, Ok (overlaps n (map (samples_of (diphones (self w))) us))).
Proof.
  intros Hn Hall. unfold values_to_add. rewrite range_of_nat.
  rewrite (overlap_loop n us w (length us) 0 []) by (auto; lia).
  now rewrite drop_0.
Qed.

(** *** The trimmed parts *)

Lemma slice_neg_stop (a : list Z) n :
  (0 < n)%nat -> Np.slice 0 (- Z.of_nat n) a = take (length a - n) a.
Proof.
  intros Hn. unfold Np.slice, Np.clamp_index.
  change (0 <? 0) with false.
  assert (E : (- Z.of_nat n <? 0) = true) by (apply Z.ltb_lt; lia).
  rewrite E.
  replace (Z.to_nat (0 `min` Z.of_nat (length a))) with 0%nat by lia.
  rewrite drop_0. f_equal. lia.
Qed.

Lemma slice_inner_part (a : list Z) n :
  (0 < n)%nat -> Np.slice (Z.of_nat n) (- Z.of_nat n) a = inner n a.
Proof.
  intros Hn. unfold Np.slice, Np.clamp_index, inner.
  assert (E1 : (Z.of_nat n <? 0) = false) by (apply Z.ltb_ge; lia).
  assert (E2 : (- Z.of_nat n <? 0) = true) by (apply Z.ltb_lt; lia).
  rewrite E1, E2.
  destruct (decide (n <= length a)%nat) as [Hle | Hgt].
  - replace (Z.to_nat (Z.of_nat n `min` Z.of_nat (length a))) with n by lia.
    f_equal. lia.
  - replace (Z.to_nat (Z.of_nat n `min` Z.of_nat (length a))) with (length a) by lia.
    rewrite !drop_ge by lia. now rewrite !take_nil.
Qed.

Lemma slice_from_pos (a : list Z) n :
  Np.slice (Z.of_nat n) (Z.of_nat (length a)) a = drop n a.
Proof.
  unfold Np.slice, Np.clamp_index.
  assert (E1 : (Z.of_nat n <? 0) = false) by (apply Z.ltb_ge; lia).
  assert (E2 : (Z.of_nat (length a) <? 0) = false) by (apply Z.ltb_ge; lia).
  rewrite E1, E2.
  destruct (decide (n <= length a)%nat) as [Hle | Hgt].
  - replace (Z.to_nat (Z.of_nat n `min` Z.of_nat (length a))) with n by lia.
    apply take_ge. rewrite length_drop. lia.
  - replace (Z.to_nat (Z.of_nat n `min` Z.of_nat (length a))) with (length a) by lia.
    rewrite !drop_ge by lia. now rewrite take_nil.
Qed.

Lemma split_loop n middle w : forall dip_val_middle,
  for_in middle dip_val_middle
    (fun dip_val_middle element =>
       let* element := contents element in
       ret (dip_val_middle ++ [Np.split element [Z.of_nat n; - Z.of_nat n]])) w
  = (w, Ok (dip_val_middle
            ++ map (fun a => Np.split a [Z.of_nat n; - Z.of_nat n])
                 (map (samples_of (diphones (self w))) middle))).
Proof.
  induction middle as [| u middle IH]; intros acc.
  - simpl. unfold ret. now rewrite app_nil_r.
  - simpl map. simpl for_in.
    rewrite (run_bind_ok _ _ w w
               (acc ++ [Np.split (samples_of (diphones (self w)) u)
                          [Z.of_nat n; - Z.of_nat n]])) by reflexivity.
    rewrite IH. now rewrite <- app_assoc.
Qed.

Lemma kept_loop n (w : world) (arrays : list (list Z)) : forall dip_arr,
  (0 < n)%nat ->
  for_in (map (fun a => Np.split a [Z.of_nat n; - Z.of_nat n]) arrays) dip_arr
    (fun dip_arr element =>
       let* kept := list_get element 1 in
       ret (dip_arr ++ [kept])) w
  = (w, Ok (dip_arr ++ map (inner n) arrays)).
Proof.
  induction arrays as [| a arrays IH]; intros acc Hn.
  - simpl. unfold ret. now rewrite app_nil_r.
  - simpl map. simpl for_in.
    rewrite (run_bind_ok _ _ w w (acc ++ [inner n a])).
    + rewrite IH by exact Hn. now rewrite <- app_assoc.
    + unfold Np.split. simpl Np.pieces.
      rewrite (run_bind_ok _ _ w w (Np.slice (Z.of_nat n) (- Z.of_nat n) a))
        by reflexivity.
      now rewrite slice_inner_part.
Qed.

Lemma trimmed_parts_run n first middle last w :
  (0 < n)%nat ->
  let samples := samples_of (diphones (self w)) in
  trimmed_parts (first :: middle ++ [last]) (Z.of_nat n) w
  = (w, Ok (take (length (samples first) - n) (samples first)
            :: map (inner n) (map samples middle) ++ [drop n (samples last)])).
Proof.
  intros Hn samples. unfold trimmed_parts.
  rewrite (run_bind_ok _ _ w w first) by reflexivity.
  rewrite (run_bind_ok _ _ w w (samples first)) by reflexivity.
  rewrite slice_inner.
  rewrite (run_bind_ok _ _ w w _ (split_loop n middle w [])).
  rewrite (run_bind_ok _ _ w w last)
    by (rewrite app_comm_cons; apply run_list_get_last).
  rewrite (run_bind_ok _ _ w w (samples last)) by reflexivity.
  rewrite (run_bind_ok _ _ w w (Np.split (samples first) [- Z.of_nat n])) by reflexivity.
  rewrite (run_bind_ok _ _ w w (Np.slice 0 (- Z.of_nat n) (samples first))) by reflexivity.
  rewrite app_nil_l.
  rewrite (run_bind_ok _ _ w w _ (kept_loop n w (map samples middle) _ Hn)).
  rewrite (run_bind_ok _ _ w w (Np.split (samples last) [Z.of_nat n])) by reflexivity.
  rewrite (run_bind_ok _ _ w w
             (Np.slice (Z.of_nat n) (Z.of_nat (length (samples last))) (samples last)))
    by reflexivity.
  unfold ret. rewrite slice_neg_stop, slice_from_pos by exact Hn. reflexivity.
Qed.

(** *** The last loop *)

Lemma join_loop (val_to_add dip_arr : list (list Z)) (w : world) : forall m k concat_ary,
  (k + m = length val_to_add)%nat -> length dip_arr = Datatypes.S (length val_to_add) ->
  for_in (map Z.of_nat (seq k m)) concat_ary
    (fun concat_ary i =>
       let* overlap := list_get val_to_add i in
       let concat_ary := Np.concatenate concat_ary overlap in
       let* kept := list_get dip_arr (i + 1) in
       ret (Np.concatenate concat_ary kept)) w
  = (w, Ok (concat_ary
            ++ interleaved (drop k val_to_add) (drop (Datatypes.S k) dip_arr))).
Proof.
  induction m as [| m IH]; intros k c Hk Hlen.
  - simpl. unfold ret. rewrite (drop_ge val_to_add) by lia. simpl. now rewrite app_nil_r.
  - simpl for_in.
    destruct (val_to_add !! k) as [v |] eqn:Hv.
    2: { apply lookup_ge_None in Hv. lia. }
    destruct (dip_arr !! Datatypes.S k) as [d |] eqn:Hd.
    2: { apply lookup_ge_None in Hd. lia. }
    rewrite (run_bind_ok _ _ w w ((c ++ v) ++ d)).
    + rewrite IH by lia.
      rewrite (drop_S val_to_add v k Hv), (drop_S dip_arr d (Datatypes.S k) Hd).
      simpl interleaved. now rewrite <- !app_assoc.
    + rewrite (run_bind_ok _ _ w w v) by now apply run_list_get_nat.
      rewrite succ_of_nat.
      rewrite (run_bind_ok _ _ w w d) by now apply run_list_get_nat.
      reflexivity.
Qed.

Lemma join_run (val_to_add : list (list Z)) head rest (w : world) :
  length rest = length val_to_add ->
  join [] val_to_add (head :: rest) w = (w, Ok (head ++ interleaved val_to_add rest)).
Proof.
  intros Hlen. unfold join.
  rewrite (run_bind_ok _ _ w w head) by reflexivity.
  rewrite range_of_nat.
  rewrite (join_loop val_to_add (head :: rest) w (length val_to_add) 0)
    by (simpl; lia).
  now rewrite drop_0.
Qed.

(** *** The result, as the specification words it *)

Lemma interleaved_crossfaded n middle last : forall earlier,
  interleaved (overlaps n (earlier :: middle ++ [last]))
    (map (inner n) middle ++ [drop n last])
  = crossfaded_from n earlier middle last.
Proof.
  induction middle as [| u middle IH]; intros earlier.
  - simpl. now rewrite app_nil_r.
  - simpl. now rewrite <- IH.
Qed.

Lemma overlaps_length n (arrays : list (list Z)) :
  length (overlaps n arrays) = pred (length arrays).
Proof.
  induction arrays as [| a [| b l'] IH]; simpl in *; try reflexivity.
  now rewrite IH.
Qed.

Lemma overlap_length n (a b : list Z) :
  (n <= length a)%nat -> (n <= length b)%nat -> length (overlap n a b) = n.
Proof.
  intros Ha Hb. unfold overlap. rewrite length_zip_with, length_drop, length_take. lia.
Qed.

Lemma crossfaded_from_length n middle last : forall earlier,
  (n <= length earlier)%nat -> (n <= length last)%nat ->
  Forall (fun u => (n + n <= length u)%nat) middle ->
  (length (crossfaded_from n earlier middle last) + length middle * n
   = total_length (middle ++ [last]))%nat.
Proof.
  induction middle as [| u middle IH]; intros earlier He Hl Hm.
  - simpl. rewrite length_app, overlap_length, length_drop by lia. lia.
  - inversion Hm as [| ? ? Hu Hrest]; subst.
    simpl. rewrite !length_app, overlap_length by lia.
    unfold inner at 1. rewrite length_take, length_drop.
    specialize (IH u ltac:(lia) Hl Hrest). lia.
Qed.

Lemma overlaps_all_length n (arrays : list (list Z)) :
  Forall (fun a => (n <= length a)%nat) arrays ->
  Forall (fun segment => length segment = n) (overlaps n arrays).
Proof.
  induction arrays as [| a [| b l'] IH]; intros Hall; simpl; try constructor.
  - inversion Hall as [| ? ? Ha Hrest]; subst.
    inversion Hrest as [| ? ? Hb _]; subst. now apply overlap_length.
  - apply IH. now inversion Hall.
Qed.

Lemma shape_with_output w lines v : shape (with_output w lines) v = shape w v.
Proof. reflexivity. Qed.

Lemma fits_of_present n w unit :
  is_Some (diphones (self w) !! unit) ->
  (n <= length (samples_of (diphones (self w)) unit))%nat ->
  fits n w unit.
Proof.
  intros [a Ha] Hn. unfold fits, shape, samples_of in *. rewrite Ha in *. exact Hn.
Qed.

Lemma samples_length_of_shape w w' unit :
  shape w' unit = shape w unit ->
  is_Some (diphones (self w) !! unit) ->
  length (samples_of (diphones (self w')) unit)
  = length (samples_of (diphones (self w)) unit).
Proof.
  unfold shape, samples_of. intros H [a Ha]. rewrite Ha in *.
  destruct (diphones (self w') !! unit) as [a' |]; simpl in *; [| discriminate].
  now inversion H.
Qed.

(** The whole of the crossfade branch, from the units the keys resolve
    to. *)
Lemma crossfade_run n first middle last concat_w :
  (0 < n)%nat ->
  fits n concat_w first -> Forall (fits n concat_w) middle -> fits n concat_w last ->
  let w' := smoothed n first middle last concat_w in
  let samples := samples_of (diphones (self w')) in
  (let* smooth_dip := smooth_the_diphones (first :: middle ++ [last]) (Z.of_nat n) in
   let* val_to_add := values_to_add smooth_dip (Z.of_nat n) in
   let* dip_arr := trimmed_parts smooth_dip (Z.of_nat n) in
   join [] val_to_add dip_arr) concat_w
  = (w', Ok (crossfaded n (samples first) (map samples middle) (samples last))).
Proof.
  intros Hn Hf Hm Hl w' samples.
  rewrite (run_bind_ok _ _ _ _ _ (smooth_the_diphones_run n first middle last _ Hn Hf Hm Hl)).
  fold w'.
  assert (Hshape : forall v, shape w' v = shape concat_w v)
    by (intros v; now apply shape_smoothed).
  assert (Hall : Forall (fits n w') (first :: middle ++ [last])).
  { constructor; [now apply (fits_shape n concat_w) |].
    apply Forall_app. split.
    - eapply Forall_impl; [exact Hm |]. intros x Hx. now apply (fits_shape n concat_w).
    - constructor; [now apply (fits_shape n concat_w) | constructor]. }
  rewrite (run_bind_ok _ _ _ _ _ (values_to_add_run n _ w' Hn Hall)).
  rewrite (run_bind_ok _ _ _ _ _ (trimmed_parts_run n first middle last w' Hn)).
  rewrite join_run.
  - unfold crossfaded. f_equal. f_equal. fold samples.
    simpl map. rewrite map_app. simpl map.
    now rewrite interleaved_crossfaded.
  - rewrite overlaps_length. simpl. rewrite !length_app, !length_map.
    rewrite length_app. simpl. lia.
Qed.

(** *** Distinct units: what each array holds after smoothing *)

Lemma samples_with_unit w unit a v :
  samples_of (diphones (self (with_unit w unit a))) v
  = if decide (unit = v) then a else samples_of (diphones (self w)) v.
Proof.
  unfold samples_of, with_unit. simpl. rewrite lookup_insert.
  now destruct (decide (unit = v)).
Qed.

Lemma samples_end_ramp n w unit v :
  samples_of (diphones (self (end_ramp n w unit))) v
  = if decide (unit = v) then tail_ramped n (samples_of (diphones (self w)) unit)
    else samples_of (diphones (self w)) v.
Proof. unfold end_ramp. apply samples_with_unit. Qed.

Lemma samples_beg_ramp n w unit v :
  samples_of (diphones (self (beg_ramp n w unit))) v
  = if decide (unit = v) then head_ramped n (samples_of (diphones (self w)) unit)
    else samples_of (diphones (self w)) v.
Proof. unfold beg_ramp. apply samples_with_unit. Qed.

Lemma samples_both_ramps n w unit v :
  samples_of (diphones (self (both_ramps n w unit))) v
  = if decide (unit = v)
    then tail_ramped n (head_ramped n (samples_of (diphones (self w)) unit))
    else samples_of (diphones (self w)) v.
Proof.
  unfold both_ramps. rewrite samples_end_ramp, !samples_beg_ramp.
  destruct (decide (unit = v)) as [<- |]; [| reflexivity].
  destruct (decide (unit = unit)) as [_ | Hno]; [reflexivity | now contradict Hno].
Qed.

Lemma samples_fold_other n middle : forall w v,
  v ∉ middle ->
  samples_of (diphones (self (fold_left (both_ramps n) middle w))) v
  = samples_of (diphones (self w)) v.
Proof.
  induction middle as [| u middle IH]; intros w v Hv; [reflexivity |].
  apply not_elem_of_cons in Hv as [Hne Hv]. simpl.
  rewrite IH by exact Hv. rewrite samples_both_ramps.
  destruct (decide (u = v)) as [-> |]; [now contradict Hne | reflexivity].
Qed.

Lemma samples_fold_member n middle : forall w v,
  NoDup middle -> v ∈ middle ->
  samples_of (diphones (self (fold_left (both_ramps n) middle w))) v
  = tail_ramped n (head_ramped n (samples_of (diphones (self w)) v)).
Proof.
  induction middle as [| u middle IH]; intros w v Hnd Hv.
  - now apply elem_of_nil in Hv.
  - apply NoDup_cons in Hnd as [Hu Hnd]. simpl.
    apply elem_of_cons in Hv as [-> | Hv].
    + rewrite samples_fold_other by exact Hu. rewrite samples_both_ramps.
      destruct (decide (u = u)) as [_ | Hno]; [reflexivity | now contradict Hno].
    + rewrite IH by assumption. rewrite samples_both_ramps.
      destruct (decide (u = v)) as [-> |]; [now contradict Hu | reflexivity].
Qed.

Lemma samples_smoothed_distinct n first middle last w :
  NoDup (first :: middle ++ [last]) ->
  let before := samples_of (diphones (self w)) in
  let after := samples_of (diphones (self (smoothed n first middle last w))) in
  after first = tail_ramped n (before first)
  /\ (forall u, u ∈ middle -> after u = tail_ramped n (head_ramped n (before u)))
  /\ after last = head_ramped n (before last).
Proof.
  intros Hnd before after.
  apply NoDup_cons in Hnd as [Hfirst Hnd].
  apply NoDup_app in Hnd as (Hmid & Hdisj & _).
  assert (Hfm : first ∉ middle) by (intros H; apply Hfirst, elem_of_app; now left).
  assert (Hfl : first <> last).
  { intros ->. apply Hfirst, elem_of_app. right. now apply list_elem_of_singleton. }
  assert (Hlm : last ∉ middle).
  { intros H. apply (Hdisj last H). now apply list_elem_of_singleton. }
  unfold after, before, smoothed. repeat split.
  - rewrite samples_beg_ramp.
    destruct (decide (last = first)) as [E |]; [now contradict Hfl |].
    rewrite samples_fold_other by exact Hfm. rewrite samples_end_ramp.
    destruct (decide (first = first)) as [_ | Hno]; [reflexivity | now contradict Hno].
  - intros u Hu. rewrite samples_beg_ramp.
    destruct (decide (last = u)) as [-> |]; [now contradict Hlm |].
    rewrite samples_fold_member by assumption. rewrite samples_end_ramp.
    destruct (decide (first = u)) as [-> |]; [now contradict Hfm | reflexivity].
  - rewrite samples_beg_ramp.
    destruct (decide (last = last)) as [_ | Hno]; [| now contradict Hno].
    rewrite samples_fold_other by exact Hlm. rewrite samples_end_ramp.
    destruct (decide (first = last)) as [E |]; [now contradict Hfl | reflexivity].
Qed.

End CrossfadeFacts.

(** C6 (as amended). With crossfade, [n = int(rate / 100)] positive (the
    quotient truncated, not rounded), the keys resolving to two or more
    units [first, middle..., last] and every one of them at least [n]
    samples long, [synthesise] returns, having ramped the arrays of the
    inventory, the first array without its last [n] samples followed,
    for every further array, by its overlap with the one before and by
    what is kept of it.  Every overlap has exactly [n] samples: the sum
    sample by sample (at 16 bits) of the last [n] of the earlier and the
    first [n] of the later array.  Arrays keep their lengths, and when
    every unit between the first and the last has at least [2 n]
    samples, the buffer has [sum(len(u)) - (m - 1) n] samples.  When the
    units are distinct, the first array carries a tail ramp, the last a
    head ramp and every other both. *)
Theorem synthesise_crossfade_overlaps (phones : list string) (reverse : option string)
    (w : Synth.world) (n : nat) (first : Synth.ndarray) (middle : list Synth.ndarray)
    (last : Synth.ndarray) :
  let inventory := Synth.diphones (Synth.self w) in
  let keys := Synth.phones_to_diphones phones in
  let units := first :: middle ++ [last] in
  Synth.affected_values (Synth.rate (Synth.self w)) = Z.of_nat n ->
  (0 < n)%nat ->
  Units.resolved inventory keys = units ->
  Forall (fun u => (n <= length (Units.samples_of inventory u))%nat) units ->
  let w' := Crossfade.smoothed n first middle last
              (Units.with_output w (Units.reported inventory keys)) in
  let before := Units.samples_of inventory in
  let after := Units.samples_of (Synth.diphones (Synth.self w')) in
  let buffer := Crossfade.crossfaded n (after first) (map after middle) (after last) in
  Synth.synthesise phones reverse true w
  = (w', Ok (Synth.mkAudio (Synth.rate (Synth.self w))
               (Units.reversed_if_signal reverse buffer)))
  /\ Forall (fun segment => length segment = n) (Crossfade.overlaps n (map after units))
  /\ (forall u, u ∈ units -> length (after u) = length (before u))
  /\ (Forall (fun u => (n + n <= length (before u))%nat) middle ->
      Z.of_nat (length buffer)
      = Z.of_nat (Crossfade.total_length (map before units))
        - (Z.of_nat (length units) - 1) * Z.of_nat n)
  /\ (NoDup units ->
      after first = Ramps.tail_ramped n (before first)
      /\ (forall u, u ∈ middle ->
            after u = Ramps.tail_ramped n (Ramps.head_ramped n (before u)))
      /\ after last = Ramps.head_ramped n (before last)).
Proof.
  intros inventory keys units Hrate Hn Hres Hlen w' before after buffer.
  set (w1 := Units.with_output w (Units.reported inventory keys)).
  assert (Hpresent : Forall (fun u => is_Some (inventory !! u)) units).
  { rewrite <- Hres. apply CrossfadeFacts.resolved_present. }
  assert (Hfits : Forall (Crossfade.fits n w1) units).
  { apply Forall_forall. intros u Hu.
    apply CrossfadeFacts.fits_of_present.
    - exact (proj1 (Forall_forall _ _) Hpresent u Hu).
    - exact (proj1 (Forall_forall _ _) Hlen u Hu). }
  inversion Hfits as [| ? ? Hf Hrest]; subst.
  apply Forall_app in Hrest as [Hm Hl]. inversion Hl as [| ? ? Hl' _]; subst.
  assert (Hshape : forall v, Crossfade.shape w' v = Crossfade.shape w1 v)
    by (intros v; now apply CrossfadeFacts.shape_smoothed).
  assert (Hsame : forall u, u ∈ units -> length (after u) = length (before u)).
  { intros u Hu. apply CrossfadeFacts.samples_length_of_shape; [apply Hshape |].
    exact (proj1 (Forall_forall _ _) Hpresent u Hu). }
  split; [| split; [| split; [exact Hsame | split]]].
  - unfold Synth.synthesise.
    unfold bind at 1, gets at 1.
    rewrite (run_bind_ok _ _ _ _ _ (CrossfadeFacts.gather_crossfade keys [] [] w)).
    cbv zeta. simpl fst. simpl snd.
    fold inventory. rewrite Hres, Hrate. fold w1.
    rewrite (run_bind_ok _ _ _ _ _
               (CrossfadeFacts.crossfade_run n first middle last w1 Hn Hf Hm Hl')).
    reflexivity.
  - apply CrossfadeFacts.overlaps_all_length.
    apply Forall_fmap, Forall_forall. intros u Hu. cbv beta.
    unfold compose. rewrite (Hsame u Hu).
    exact (proj1 (Forall_forall _ _) Hlen u Hu).
  - intros Hmid. unfold buffer, Crossfade.crossfaded.
    assert (Hfirst : first ∈ units) by (unfold units; apply elem_of_cons; now left).
    assert (Hlast : last ∈ units).
    { unfold units. apply elem_of_cons. right. apply elem_of_app. right.
      now apply list_elem_of_singleton. }
    assert (Hin : forall u, u ∈ middle -> u ∈ units).
    { intros u Hu. unfold units. apply elem_of_cons. right. apply elem_of_app. now left. }
    pose proof (proj1 (Forall_forall _ _) Hlen first Hfirst) as Lf.
    pose proof (proj1 (Forall_forall _ _) Hlen last Hlast) as Ll.
    cbv beta in Lf, Ll.
    assert (Hlen' : Crossfade.total_length (map after units)
                    = Crossfade.total_length (map before units)).
    { clear -Hsame. induction units as [| u us IH]; [reflexivity |].
      simpl. rewrite (Hsame u) by (apply elem_of_cons; now left).
      rewrite IH; [reflexivity |]. intros v Hv. apply Hsame, elem_of_cons. now right. }
    rewrite <- Hlen'.
    pose proof (CrossfadeFacts.crossfaded_from_length n (map after middle) (after last)
                  (after first)) as Hcf.
    rewrite (Hsame first Hfirst), (Hsame last Hlast) in Hcf.
    specialize (Hcf Lf Ll).
    assert (Hmid' : Forall (fun u => (n + n <= length u)%nat) (map after middle)).
    { apply Forall_fmap, Forall_forall. intros u Hu. unfold compose.
      rewrite (Hsame u (Hin u Hu)).
      exact (proj1 (Forall_forall _ _) Hmid u Hu). }
    specialize (Hcf Hmid').
    rewrite length_app, length_take, (Hsame first Hfirst).
    unfold units in *. simpl map. simpl Crossfade.total_length.
    rewrite map_app in *. simpl map in *.
    rewrite (Hsame first Hfirst).
    rewrite length_map in Hcf. simpl length. rewrite length_app. simpl length.
    fold before in Lf. lia.
  - intros Hnd.
    exact (CrossfadeFacts.samples_smoothed_distinct n first middle last w1 Hnd).
Qed.

Lemma synthesise_crossfade_overlaps_witness :
  let w := Examples.two_units in
  let w' := Crossfade.smoothed 2 "pau-a.wav" [] "a-pau.wav" w in
  Synth.synthesise ["a"%string] None true w
  = (w', Ok (Synth.mkAudio 200 [10; 10; 10; 10; 5; 10; 20; 20; 20; 20]))
  /\ Z.of_nat (length [10; 10; 10; 10; 5; 10; 20; 20; 20; 20]) = 12 - (2 - 1) * 2.
Proof.
  destruct (synthesise_crossfade_overlaps ["a"%string] None Examples.two_units 2
              "pau-a.wav" [] "a-pau.wav") as (Hrun & _ & _ & Hlength & _).
  - reflexivity.
  - lia.
  - reflexivity.
  - repeat constructor.
  - split; [exact Hrun | apply Hlength; constructor].
Defined.

(** C6 (as stated) fails.  At 200 Hz (a window of 2) the units of 4, 3
    and 4 samples give a buffer of 8 samples, not 11 - 2 * 2: the middle
    unit is shorter than two windows.  At 170 Hz the window is
    int(1.7) = 1 and not round(1.7) = 2: two units of 6 samples give 11
    samples, not 12 - 2. *)
Lemma crossfade_claimed_length_fails :
  Crossfade.claimed_window 200 = 2
  /\ Synth.affected_values 200 = 2
  /\ snd (Synth.synthesise ["a"; "b"]%string None true Examples.three_units)
     = Ok (Synth.mkAudio 200 [10; 10; 5; 10; 10; 10; 20; 20])
  /\ ~ Crossfade.claimed_length Examples.three_units ["a"; "b"]%string
  /\ Crossfade.claimed_window 170 = 2
  /\ Synth.affected_values 170 = 1
  /\ ~ Crossfade.claimed_length Examples.two_units_170 ["a"%string].
Proof.
  assert (H3 : snd (Synth.synthesise ["a"; "b"]%string None true Examples.three_units)
               = Ok (Synth.mkAudio 200 [10; 10; 5; 10; 10; 10; 20; 20]))
    by (vm_compute; reflexivity).
  assert (C3 : Crossfade.claimed_samples Examples.three_units ["a"; "b"]%string = 7)
    by (vm_compute; reflexivity).
  assert (H2 : snd (Synth.synthesise ["a"%string] None true Examples.two_units_170)
               = Ok (Synth.mkAudio 170 [10; 10; 10; 10; 10; 0; 20; 20; 20; 20; 20]))
    by (vm_compute; reflexivity).
  assert (C2 : Crossfade.claimed_samples Examples.two_units_170 ["a"%string] = 10)
    by (vm_compute; reflexivity).
  split; [vm_compute; reflexivity |].
  split; [vm_compute; reflexivity |].
  split; [exact H3 |].
  split.
  { intros (w' & audio & Hrun & Hlen). rewrite Hrun in H3. simpl in H3.
    inversion H3; subst. rewrite C3 in Hlen. simpl in Hlen. discriminate Hlen. }
  split; [vm_compute; reflexivity |].
  split; [vm_compute; reflexivity |].
  intros (w' & audio & Hrun & Hlen). rewrite Hrun in H2. simpl in H2.
  inversion H2; subst. rewrite C2 in Hlen. simpl in Hlen. discriminate Hlen.
Qed.

(** ** [normalise_phrase] never runs out of nested calls *)

Module DepthFacts.

Import Str Utterance Dates DateFacts.

Lemma count_digits_app (a b : string) :
  count_digits (a +:+ b) = (count_digits a + count_digits b)%nat.
Proof.
  induction a as [| c a IH]; [reflexivity |].
  rewrite append_cons. simpl. rewrite IH. lia.
Qed.

Lemma count_digits_drop n : forall s, (count_digits (str_drop n s) <= count_digits s)%nat.
Proof.
  induction n as [| n IH]; intros [| c s]; simpl; try lia.
  specialize (IH s). lia.
Qed.

Lemma str_drop_app (a b : string) : str_drop (String.length a) (a +:+ b) = b.
Proof. induction a as [| c a IH]; [now destruct b | exact IH]. Qed.

Lemma starts_with_app (a rest : string) : starts_with a (a +:+ rest) = true.
Proof.
  unfold starts_with. induction a as [| d a IH].
  { rewrite append_nil_l. now destruct rest. }
  rewrite append_cons. simpl.
  destruct (ascii_dec d d) as [_ | N]; [exact IH | now contradict N].
Qed.

Lemma starts_with_inv (a : string) : forall s,
  starts_with a s = true -> exists rest, s = a +:+ rest.
Proof.
  unfold starts_with. induction a as [| c a IH]; intros s H.
  - now exists s.
  - destruct s as [| d s]; simpl in H; [discriminate |].
    destruct (ascii_dec c d) as [<- |]; [| discriminate].
    destruct (IH s H) as [rest ->]. now exists rest.
Qed.

Lemma replace_from_here old new c s :
  replace_from old new 0 (String c s)
  = if starts_with old (String c s)
    then new +:+ replace_from old new (String.length old - 1) s
    else String c (replace_from old new 0 s).
Proof. reflexivity. Qed.

(** What [replace] writes has no more digits than what it has not yet
    passed over. *)
Lemma replace_from_digits old new :
  count_digits new = 0%nat ->
  forall s skip,
    (count_digits (replace_from old new skip s) <= count_digits (str_drop skip s))%nat.
Proof.
  intros Hnew. induction s as [| c s IH]; intros skip.
  - destruct skip; simpl; lia.
  - destruct skip as [| k]; [rewrite replace_from_here | simpl replace_from].
    + destruct (starts_with old (String c s)).
      * rewrite count_digits_app, Hnew. simpl.
        specialize (IH (String.length old - 1)%nat).
        pose proof (count_digits_drop (String.length old - 1) s). lia.
      * simpl. specialize (IH 0%nat).
        replace (str_drop 0 s) with s in IH by now destruct s. lia.
    + simpl. apply IH.
Qed.

Lemma replace_head_digits old new rest :
  old <> EmptyString -> count_digits new = 0%nat ->
  (count_digits (replace old new (old +:+ rest)) + count_digits old
   <= count_digits (old +:+ rest))%nat.
Proof.
  intros Hold Hnew. destruct old as [| c old']; [now contradict Hold |].
  pose proof (starts_with_app (String c old') rest) as Hp.
  unfold replace. rewrite append_cons in *. rewrite replace_from_here, Hp.
  rewrite count_digits_app, Hnew.
  pose proof (replace_from_digits (String c old') new Hnew (old' +:+ rest)
                (String.length (String c old') - 1)) as H.
  replace (String.length (String c old') - 1)%nat with (String.length old') in *
    by (simpl; lia).
  rewrite str_drop_app in H.
  rewrite <- append_cons, count_digits_app. lia.
Qed.

(** Rewriting an occurrence takes its digits away. *)
Lemma replace_digits old new post :
  old <> EmptyString -> count_digits new = 0%nat ->
  forall pre,
    (count_digits (replace old new (pre +:+ old +:+ post)) + count_digits old
     <= count_digits (pre +:+ old +:+ post))%nat.
Proof.
  intros Hold Hnew. induction pre as [| x pre IH].
  - rewrite append_nil_l. now apply replace_head_digits.
  - rewrite append_cons.
    destruct (starts_with old (String x (pre +:+ old +:+ post))) eqn:Hp.
    + destruct (starts_with_inv _ _ Hp) as [rest ->]. now apply replace_head_digits.
    + unfold replace in *. rewrite replace_from_here, Hp. simpl. lia.
Qed.

Lemma span_digits_eq s g r :
  span_digits s = (g, r) -> s = g +:+ r /\ all_digits g = true.
Proof.
  revert g r. induction s as [| c s IH]; intros g r H; simpl in H.
  - now inversion H.
  - destruct (is_digit c) eqn:Hc.
    + destruct (span_digits s) as [g' r'] eqn:E. simpl in H. inversion H; subst.
      destruct (IH g' r eq_refl) as [-> D]. split; [reflexivity |].
      simpl. now rewrite Hc.
    + now inversion H.
Qed.

Lemma leading_digit c g t :
  all_digits (String c g) = true -> (0 < count_digits (String c g +:+ t))%nat.
Proof.
  intros H. simpl in H. apply andb_prop in H as [Hc _].
  change (String c g +:+ t) with (String c (g +:+ t)).
  simpl. rewrite Hc. lia.
Qed.

(** A match is a prefix of the text it is found at, and holds a digit. *)
Lemma match_date_prefix s m :
  match_date s = Some m ->
  (exists post, s = group0 m +:+ post) /\ (0 < count_digits (group0 m))%nat.
Proof.
  unfold match_date.
  destruct (span_digits s) as [g1 r1] eqn:E1.
  apply span_digits_eq in E1 as [-> D1].
  destruct g1 as [| c1 g1]; [discriminate |].
  destruct r1 as [| x r2]; [discriminate |].
  destruct (decide (x = "/"%char)) as [-> | Hx].
  2: { destruct x as [[] [] [] [] [] [] [] []]; try discriminate; now contradict Hx. }
  destruct (span_digits r2) as [g2 r3] eqn:E2.
  apply span_digits_eq in E2 as [-> D2].
  destruct g2 as [| c2 g2]; [discriminate |].
  assert (Hthree : forall g3 r5,
            String c1 g1 +:+ String "/" (String c2 g2 +:+ String "/" (g3 +:+ r5))
            = (String c1 g1 +:+ "/" +:+ String c2 g2 +:+ "/" +:+ g3) +:+ r5).
  { intros g3 r5. rewrite !slash_append.
    rewrite (append_assoc (String c1 g1)). rewrite (append_cons "/").
    rewrite (append_assoc (String c2 g2)). now rewrite (append_cons "/"). }
  destruct r3 as [| y r4].
  - intros [= <-]. simpl group0. split; [| now apply leading_digit].
    exists EmptyString. rewrite !slash_append.
    rewrite (append_assoc (String c1 g1)). now rewrite (append_cons "/").
  - destruct (decide (y = "/"%char)) as [-> | Hy].
    + destruct (span_digits r4) as [g3 r5] eqn:E3.
      apply span_digits_eq in E3 as [-> D3].
      destruct (2 <=? String.length g3)%nat; intros [= <-]; simpl group0;
        (split; [| now apply leading_digit]).
      * exists r5. apply Hthree.
      * exists (g3 +:+ r5). rewrite !slash_append.
        rewrite (append_assoc (String c1 g1)), (append_cons "/").
        now rewrite (append_assoc (String c2 g2)).
    + intros H.
      assert (Hm : m = mkMatch (String c1 g1 +:+ "/" +:+ String c2 g2)
                     (String c1 g1) (String c2 g2) None).
      { destruct y as [[] [] [] [] [] [] [] []]; try (now inversion H); now contradict Hy. }
      subst m. simpl group0. split; [| now apply leading_digit].
      exists (String y r4). rewrite !slash_append.
      rewrite (append_assoc (String c1 g1)). now rewrite (append_cons "/").
Qed.

Lemma search_date_occurrence s m :
  search_date s = Some m ->
  (exists pre post, s = pre +:+ group0 m +:+ post) /\ (0 < count_digits (group0 m))%nat.
Proof.
  induction s as [| c s IH]; simpl.
  - discriminate.
  - destruct (match_date (String c s)) as [m' |] eqn:E.
    + intros [= <-]. destruct (match_date_prefix _ _ E) as [[post Hpost] Hd].
      split; [| exact Hd]. exists EmptyString, post. now rewrite append_nil_l.
    + intros H. destruct (IH H) as [(pre & post & ->) Hd].
      split; [| exact Hd]. exists (String c pre), post. now rewrite append_cons.
Qed.

(** [normalise_dates] reads no state and leaves it alone. *)
Lemma normalise_dates_run {S} (s : S) date : normalise_dates date s = (s, spoken date).
Proof.
  unfold spoken, normalise_dates.
  destruct (match_date date) as [m |]; [| reflexivity].
  unfold date_teens, date_tens_ones, date_no_year, table_get, str_get, list_get,
    bind, ret, raise.
  cbv zeta.
  destruct (group3 m) as [[| c y] |];
    repeat (match goal with
            | |- context [table_find ?d ?k] => destruct (table_find d k)
            | |- context [table_mem ?d ?k] => destruct (table_mem d k)
            | |- context [?a <? ?b] => destruct (a <? b)
            | |- context [@lookup nat ascii (list ascii) _ ?i ?l] =>
                destruct (@lookup nat ascii (list ascii) _ i l)
            end; cbv beta iota);
    reflexivity.
Qed.

Lemma spoken_not_recursion date : spoken date <> Raise RecursionError.
Proof.
  unfold spoken, normalise_dates.
  destruct (match_date date) as [m |]; [| discriminate].
  unfold date_teens, date_tens_ones, date_no_year, table_get, str_get, list_get,
    bind, ret, raise.
  cbv zeta.
  destruct (group3 m) as [[| c y] |];
    repeat (match goal with
            | |- context [table_find ?d ?k] => destruct (table_find d k)
            | |- context [table_mem ?d ?k] => destruct (table_mem d k)
            | |- context [?a <? ?b] => destruct (a <? b)
            | |- context [@lookup nat ascii (list ascii) _ ?i ?l] =>
                destruct (@lookup nat ascii (list ascii) _ i l)
            end; cbv beta iota);
    discriminate.
Qed.

Lemma table_value_digits (d : table) key v :
  Forall (fun kv => count_digits (snd kv) = 0%nat) d ->
  table_find d key = Some v -> count_digits v = 0%nat.
Proof.
  induction d as [| [k x] d IH]; intros Hall H; simpl in H; [discriminate |].
  inversion Hall as [| ? ? Hx Hrest]; subst.
  destruct (decide (k = key)); [now inversion H; subst | now apply IH].
Qed.

Lemma tables_have_no_digits :
  Forall (fun kv => count_digits (snd kv) = 0%nat) mths
  /\ Forall (fun kv => count_digits (snd kv) = 0%nat) dys
  /\ Forall (fun kv => count_digits (snd kv) = 0%nat) yrs_ones
  /\ Forall (fun kv => count_digits (snd kv) = 0%nat) yrs_tens
  /\ Forall (fun kv => count_digits (snd kv) = 0%nat) yrs_10to19.
Proof. repeat split; repeat constructor. Qed.

(** A spoken date has no digit in it. *)
Lemma spoken_digits date text : spoken date = Ok text -> count_digits text = 0%nat.
Proof.
  destruct tables_have_no_digits as (Hm & Hd & Ho & Ht & Hy).
  unfold spoken, normalise_dates.
  destruct (match_date date) as [m |]; [| discriminate].
  unfold date_teens, date_tens_ones, date_no_year, table_get, bind, ret, raise.
  destruct (table_find mths (lstrip_zeros (group2 m))) as [mw |] eqn:Emw;
    [| destruct (group3 m) as [[| c y] |]; try discriminate;
       destruct (table_mem yrs_10to19 (two_digit_year (String c y))); discriminate].
  destruct (table_find dys (lstrip_zeros (group1 m))) as [dw |] eqn:Edw;
    [| destruct (group3 m) as [[| c y] |]; try discriminate;
       destruct (table_mem yrs_10to19 (two_digit_year (String c y))); discriminate].
  pose proof (table_value_digits _ _ _ Hm Emw) as Cm.
  pose proof (table_value_digits _ _ _ Hd Edw) as Cd.
  assert (Hplain : count_digits (mw +:+ " " +:+ dw) = 0%nat).
  { rewrite !count_digits_app, Cm, Cd. reflexivity. }
  destruct (group3 m) as [[| c y] |];
    try (simpl; intros H; inversion H; subst; exact Hplain).
  destruct (table_mem yrs_10to19 (two_digit_year (String c y))).
  - destruct (table_find yrs_10to19 (two_digit_year (String c y))) as [yw |] eqn:Eyw;
      [| discriminate].
    pose proof (table_value_digits _ _ _ Hy Eyw) as Cy.
    simpl. intros H; inversion H; subst.
    rewrite !count_digits_app, Cm, Cd, Cy. reflexivity.
  - destruct (str_get (two_digit_year (String c y)) 0 tt) as [u [y0 | e0]] eqn:E0;
      [| discriminate].
    cbv iota beta.
    destruct (table_find yrs_tens y0) as [tw |] eqn:Etw; [| discriminate].
    cbv iota beta.
    destruct (str_get (two_digit_year (String c y)) 1 u) as [u' [y1 | e1]] eqn:E1;
      [| discriminate].
    cbv iota beta.
    destruct (table_find yrs_ones y1) as [ow |] eqn:Eow; [| discriminate].
    pose proof (table_value_digits _ _ _ Ht Etw) as Ct.
    pose proof (table_value_digits _ _ _ Ho Eow) as Co.
    simpl. intros H; inversion H; subst.
    rewrite !count_digits_app, Cm, Cd, Ct, Co. reflexivity.
Qed.

Lemma for_in_tokens (text : list string) (w : world) : forall normalised_words,
  for_in text normalised_words (fun normalised_words word =>
    let word_without_punct := strip_punctuation word in
    ret (normalised_words ++ [lower word_without_punct])) w
  = (w, Ok (normalised_words
            ++ map (fun word => lower (strip_punctuation word)) text)).
Proof.
  induction text as [| word text IH]; intros acc; simpl.
  - unfold ret. now rewrite app_nil_r.
  - unfold bind at 1. unfold ret at 1. rewrite IH. now rewrite <- app_assoc.
Qed.

(** One call of [normalise_phrase]: without a date the phrase is cut
    into tokens; with one, the date is rewritten, the method calls
    itself, drops what the call returns and cuts the phrase the call
    left behind. *)
Lemma normalise_phrase_at_step depth w :
  normalise_phrase_at (Datatypes.S depth) w
  = match search_date (phrase w) with
    | None => (w, Ok (tokens (phrase w)))
    | Some m =>
        match spoken (group0 m) with
        | Raise e => (w, Raise e)
        | Ok text =>
            match normalise_phrase_at depth
                    (mkWorld (replace (group0 m) text (phrase w)) (stdout w)) with
            | (w', Ok _) => (w', Ok (tokens (phrase w')))
            | (w', Raise e) => (w', Raise e)
            end
        end
    end.
Proof.
  simpl normalise_phrase_at. unfold bind at 1, gets at 1.
  destruct (search_date (phrase w)) as [m |].
  - unfold bind at 1. unfold bind at 1, gets at 1.
    unfold bind at 1. rewrite (normalise_dates_run w (group0 m)).
    destruct (spoken (group0 m)) as [text | e]; [| reflexivity].
    unfold bind at 1. unfold set_phrase at 1, modify at 1.
    unfold bind at 1.
    destruct (normalise_phrase_at depth _) as [w' [r | e]]; [| reflexivity].
    unfold ret at 1. unfold bind at 1, gets at 1.
    now rewrite for_in_tokens.
  - unfold bind at 1, ret at 1. unfold bind at 1, gets at 1.
    now rewrite for_in_tokens.
Qed.

(** With more nested calls allowed than the phrase has digits, the
    result does not depend on how many are allowed, and it is not a
    RecursionError. *)
Lemma normalise_phrase_at_enough : forall depth depth' w,
  (count_digits (phrase w) < depth)%nat -> (count_digits (phrase w) < depth')%nat ->
  normalise_phrase_at depth w = normalise_phrase_at depth' w
  /\ snd (normalise_phrase_at depth w) <> Raise RecursionError.
Proof.
  induction depth as [| depth IH]; intros depth' w H1 H2; [lia |].
  destruct depth' as [| depth']; [lia |].
  rewrite !normalise_phrase_at_step.
  destruct (search_date (phrase w)) as [m |] eqn:Hs; [| split; [reflexivity | discriminate]].
  destruct (spoken (group0 m)) as [text | e] eqn:Hd.
  2: { split; [reflexivity |]. simpl. intros [= ->].
       now apply (spoken_not_recursion (group0 m)). }
  destruct (search_date_occurrence _ _ Hs) as [(pre & post & Hocc) Hdig].
  pose proof (spoken_digits _ _ Hd) as Hnew.
  assert (Hold : group0 m <> EmptyString).
  { intros E. rewrite E in Hdig. simpl in Hdig. lia. }
  pose proof (replace_digits (group0 m) text post Hold Hnew pre) as Hless.
  rewrite <- Hocc in Hless.
  set (w1 := mkWorld (replace (group0 m) text (phrase w)) (stdout w)).
  assert (L1 : (count_digits (phrase w1) < depth)%nat) by (simpl; lia).
  assert (L2 : (count_digits (phrase w1) < depth')%nat) by (simpl; lia).
  destruct (IH depth' w1 L1 L2) as [Heq Hne]. rewrite <- Heq.
  destruct (normalise_phrase_at depth w1) as [w' [r | e]]; simpl in *.
  - split; [reflexivity | discriminate].
  - split; [reflexivity | exact Hne].
Qed.

(** [normalise_phrase] returns or raises a KeyError or the like, never
    a RecursionError, and allowing more nested calls changes nothing. *)
Lemma normalise_phrase_total w depth :
  (count_digits (phrase w) < depth)%nat ->
  normalise_phrase_at depth w = normalise_phrase w
  /\ snd (normalise_phrase w) <> Raise RecursionError.
Proof.
  intros H. unfold normalise_phrase.
  destruct (normalise_phrase_at_enough (Datatypes.S (count_digits (phrase w))) depth w
              ltac:(lia) H) as [Heq Hne].
  split; [now rewrite Heq | exact Hne].
Qed.

End DepthFacts.

(** ** The model on small inputs *)

(** The window at the usual rates, and a product that binary64 rounds
    below the exact one: [49 * (1 / 49)] is just under 1 and truncates
    to 0. *)
Example affected_values_examples :
  Synth.affected_values 16000 = 160 /\ Synth.affected_values 44100 = 441
  /\ Synth.affected_values 199 = 1 /\ Synth.affected_values 99 = 0
  /\ Synth.scaled 49 (Float64.truediv 1 49) = 0
  /\ Synth.scaled (-32768) (Float64.truediv 159 160) = -32563.
Proof. vm_compute. repeat split. Qed.

(** With crossfade and no key in the inventory, [list_for_smoothing[0]]
    raises IndexError after the reports have been printed. *)
Lemma crossfade_without_units_raises (phones : list string) (reverse : option string)
    (w : Synth.world) :
  let inventory := Synth.diphones (Synth.self w) in
  let keys := Synth.phones_to_diphones phones in
  Units.resolved inventory keys = [] ->
  Synth.synthesise phones reverse true w
  = (Units.with_output w (Units.reported inventory keys), Raise IndexError).
Proof.
  intros inventory keys Hres. unfold Synth.synthesise.
  unfold bind at 1, gets at 1.
  rewrite (run_bind_ok _ _ _ _ _ (CrossfadeFacts.gather_crossfade keys [] [] w)).
  cbv zeta. simpl fst. simpl snd. fold inventory. rewrite Hres.
  reflexivity.
Qed.

(** A window longer than the array: [smooth_end] has rewritten all of
    it when [values_updated[i]] raises IndexError. *)
Example smooth_end_short_array :
  let after := Synth.smooth_end "u" 7 Examples.one_array in
  snd after = Raise IndexError
  /\ Synth.diphones (Synth.self (fst after)) !! "u"%string = Some [8; 7; 5; 4].
Proof. vm_compute. repeat split. Qed.

(** Dates in running text; a date after a valid one still raises. *)
Example normalise_phrase_examples :
  snd (Utterance.normalise_phrase
         (Utterance.mkWorld "Today is 09/03/1973, ok? See you on 1/2" []))
  = Ok ["today"; "is"; "march"; "ninth"; "nineteen"; "seventy"; "three"; "ok";
        "see"; "you"; "on"; "february"; "first"]%string
  /\ snd (Utterance.normalise_phrase (Utterance.mkWorld "12/3 and 99/99" []))
     = Raise (KeyError "99")
  /\ snd (Utterance.normalise_phrase (Utterance.mkWorld "09/03/05" []))
     = Ok ["march"; "ninth"; "nineteen"; "o"; "five"]%string
  /\ snd (Utterance.normalise_phrase (Utterance.mkWorld "09/03/15" []))
     = Ok ["march"; "ninth"; "nineteen"; "fifteen"]%string.
Proof. vm_compute. repeat split. Qed.

(** ** Dates out of range *)

Module RangeFacts.

Import Str Utterance Dates DateFacts DepthFacts.

Lemma spoken_out_of_range m :
  match_date (group0 m) = Some m -> out_of_range m ->
  exists key, spoken (group0 m) = Raise (KeyError key).
Proof.
  intros Hm Hbad.
  destruct (PhraseFacts.normalise_dates_out_of_range _ _ Hm Hbad) as [key Hkey].
  exists key. unfold spoken. now rewrite (Hkey unit tt).
Qed.

(** The nested calls reach every text of the rescans, and the KeyError
    of a date found there comes back through all of them. *)
Lemma rescans_raise text later :
  rescans text later ->
  forall m key depth out,
    search_date later = Some m ->
    spoken (group0 m) = Raise (KeyError key) ->
    (count_digits text < depth)%nat ->
    normalise_phrase_at depth (mkWorld text out) = (mkWorld later out, Raise (KeyError key)).
Proof.
  induction 1 as [text | text m0 words later Hs0 Hd0 Hrest IH];
    intros m key depth out Hs Hd Hdepth.
  - destruct depth as [| depth]; [lia |].
    rewrite normalise_phrase_at_step. simpl phrase. now rewrite Hs, Hd.
  - destruct depth as [| depth]; [lia |].
    rewrite normalise_phrase_at_step. simpl phrase. simpl stdout. rewrite Hs0, Hd0.
    destruct (search_date_occurrence _ _ Hs0) as [(pre & post & Hocc) Hdig].
    assert (Hold : group0 m0 <> EmptyString).
    { intros E. rewrite E in Hdig. simpl in Hdig. lia. }
    pose proof (replace_digits (group0 m0) words post Hold (spoken_digits _ _ Hd0) pre)
      as Hless.
    rewrite <- Hocc in Hless.
    rewrite (IH m key depth out Hs Hd) by lia. reflexivity.
Qed.

End RangeFacts.

(** C10 (as amended). A phrase in which the search of the date pattern
    finds a date whose day (with leading zeros stripped) is not in the
    table of days 1 to 31, or whose month is not in the table of months 1
    to 12, makes [normalise_phrase] raise KeyError instead of returning
    tokens; the date may be the first one found or one found when the
    text is scanned again after earlier dates have been rewritten, and
    the phrase is left as it was when the date was found. *)
Theorem normalise_phrase_out_of_range_date (w : Utterance.world) (later : string)
    (m : Utterance.Match) :
  Dates.rescans (Utterance.phrase w) later ->
  Utterance.search_date later = Some m ->
  Dates.out_of_range m ->
  exists key,
    Utterance.normalise_phrase w
    = (Utterance.mkWorld later (Utterance.stdout w), Raise (KeyError key)).
Proof.
  intros Hre Hs Hbad.
  destruct (RangeFacts.spoken_out_of_range m (DateFacts.search_date_again _ _ Hs) Hbad)
    as [key Hkey].
  exists key. unfold Utterance.normalise_phrase. destruct w as [text out].
  cbn [Utterance.phrase Utterance.stdout] in *.
  apply (RangeFacts.rescans_raise text later Hre m key); auto.
Qed.

Lemma normalise_phrase_out_of_range_date_witness :
  exists key,
    Utterance.normalise_phrase (Utterance.mkWorld "12/3 and 99/99" [])
    = (Utterance.mkWorld "march twelfth and 99/99" [], Raise (KeyError key)).
Proof.
  apply (normalise_phrase_out_of_range_date (Utterance.mkWorld "12/3 and 99/99" [])
           "march twelfth and 99/99" (Utterance.mkMatch "99/99" "99" "99" None)).
  - apply (Dates.rescans_next "12/3 and 99/99" (Utterance.mkMatch "12/3" "12" "3" None)
             "march twelfth" "march twelfth and 99/99").
    + reflexivity.
    + reflexivity.
    + apply Dates.rescans_here.
  - reflexivity.
  - left. reflexivity.
Defined.

(** C10 (as stated) fails: the phrase 1/2 and 41/2 contains 41/2, which
    matches the date pattern and has the day 41, but the search finds
    1/2 first and [replace] rewrites every occurrence of it, also the
    one inside 41/2; no date is left and the tokens are returned. *)
Lemma normalise_phrase_rewritten_date_returns :
  Utterance.match_date (Dates.str_drop 8 "1/2 and 41/2")
  = Some (Utterance.mkMatch "41/2" "41" "2" None)
  /\ Dates.out_of_range (Utterance.mkMatch "41/2" "41" "2" None)
  /\ Utterance.normalise_phrase (Utterance.mkWorld "1/2 and 41/2" [])
     = (Utterance.mkWorld "february first and 4february first" [],
        Ok ["february"; "first"; "and"; "4february"; "first"]%string)
  /\ ~ Dates.claimed_abort "1/2 and 41/2".
Proof.
  assert (Hrun : Utterance.normalise_phrase (Utterance.mkWorld "1/2 and 41/2" [])
                 = (Utterance.mkWorld "february first and 4february first" [],
                    Ok ["february"; "first"; "and"; "4february"; "first"]%string))
    by (vm_compute; reflexivity).
  split; [reflexivity |]. split; [right; reflexivity |]. split; [exact Hrun |].
  intros Hclaim.
  destruct (Hclaim (Utterance.mkMatch "41/2" "41" "2" None)) as [key Hkey].
  - exists 8%nat. reflexivity.
  - right. reflexivity.
  - rewrite Hrun in Hkey. discriminate Hkey.
Qed.

(** * Further properties *)

(** ** Windows that fit, and windows that do not *)

Module WindowFacts.

Import Synth Ramps Windows RampFacts.

Lemma head_ramped_is_head_ramp n a :
  (n <= length a)%nat -> is_head_ramp n a (head_ramped n a).
Proof.
  intros Hn. split; [now apply length_head_ramped |]. split.
  - intros i Hi. unfold head_ramped.
    rewrite lookup_app_l by (rewrite length_zip_with, length_take, length_factors; lia).
    rewrite lookup_zip_with, lookup_take_lt by lia.
    destruct (a !! i) as [x |] eqn:Hx.
    2: { apply lookup_ge_None in Hx. lia. }
    simpl. now rewrite lookup_factors.
  - intros j Hj. unfold head_ramped.
    rewrite lookup_app_r by (rewrite length_zip_with, length_take, length_factors; lia).
    rewrite length_zip_with, length_take, length_factors, lookup_drop.
    f_equal. lia.
Qed.

Lemma for_in_app {S A B} (xs ys : list A) (body : B -> A -> M S B) : forall acc s,
  for_in (xs ++ ys) acc body s
  = match for_in xs acc body s with
    | (s', Ok acc') => for_in ys acc' body s'
    | (s', Raise e) => (s', Raise e)
    end.
Proof.
  induction xs as [| x xs IH]; intros acc s; [reflexivity |].
  simpl. unfold bind. destruct (body acc x s) as [s' [acc' | e]]; [apply IH | reflexivity].
Qed.

Lemma slice_from_over {A} (a : list A) n :
  (length a <= n)%nat -> Np.slice_from (- Z.of_nat n) a = a.
Proof.
  intros Hn. unfold Np.slice_from, Np.slice, Np.clamp_index.
  assert (E2 : (Z.of_nat (length a) <? 0) = false) by (apply Z.ltb_ge; lia).
  rewrite E2.
  destruct (- Z.of_nat n <? 0) eqn:E1.
  - replace (Z.to_nat (Z.max 0 (- Z.of_nat n + Z.of_nat (length a)))) with 0%nat by lia.
    rewrite ?drop_0. apply take_ge. simpl. lia.
  - apply Z.ltb_ge in E1.
    replace (Z.to_nat ((- Z.of_nat n) `min` Z.of_nat (length a))) with 0%nat by lia.
    rewrite ?drop_0. apply take_ge. simpl. lia.
Qed.

Lemma view_from_base_over {A} (a : list A) n :
  (length a <= n)%nat -> Np.view_from_base (- Z.of_nat n) a = 0%nat.
Proof.
  intros Hn. unfold Np.view_from_base, Np.clamp_index.
  destruct (- Z.of_nat n <? 0) eqn:E1; [lia |].
  apply Z.ltb_ge in E1. lia.
Qed.

(** The writes of [smooth_end] when the view is the whole array. *)
Lemma overrun_tail_writes unit n vals : forall m k w cur,
  diphones (self w) !! unit = Some cur ->
  length vals = length cur -> (length cur <= n)%nat -> (k + m = length cur)%nat ->
  for_in (map Z.of_nat (seq k m)) tt
    (fun _ i =>
       let* v := list_get vals i in
       view_from_setitem unit (- Z.of_nat n) i v) w
  = (with_unit w unit (list_inserts k (take m (drop k vals)) cur), Ok tt).
Proof.
  induction m as [| m IH]; intros k w cur Hcur Hvals Hn Hk.
  - simpl. unfold ret. now rewrite with_unit_same.
  - simpl for_in.
    destruct (vals !! k) as [v |] eqn:Hv.
    2: { apply lookup_ge_None in Hv. lia. }
    rewrite (run_bind_ok _ _ w (with_unit w unit (<[k := v]> cur)) tt).
    + rewrite (IH (Datatypes.S k) _ (<[k := v]> cur)); try lia.
      * rewrite with_unit_twice. f_equal. f_equal.
        rewrite (drop_S vals v k Hv). simpl take. simpl list_inserts.
        now rewrite list_insert_inserts_lt by lia.
      * apply with_unit_lookup.
      * now rewrite length_insert.
      * now rewrite length_insert.
      * rewrite length_insert. lia.
    + rewrite (run_bind_ok _ _ w w v) by now apply run_list_get_nat.
      unfold view_from_setitem, bind, contents, gets. rewrite Hcur.
      change (default [] (Some cur)) with cur.
      rewrite view_from_base_over by lia. rewrite Nat2Z.id.
      destruct (decide (k < length cur - 0)%nat) as [_ | Hno]; [| lia].
      reflexivity.
Qed.

Lemma overrun_head_writes unit n vals : forall m k w cur,
  diphones (self w) !! unit = Some cur ->
  length vals = length cur -> (length cur <= n)%nat -> (k + m = length cur)%nat ->
  for_in (map Z.of_nat (seq k m)) tt
    (fun _ i =>
       let* v := list_get vals i in
       view_to_setitem unit (Z.of_nat n) i v) w
  = (with_unit w unit (list_inserts k (take m (drop k vals)) cur), Ok tt).
Proof.
  induction m as [| m IH]; intros k w cur Hcur Hvals Hn Hk.
  - simpl. unfold ret. now rewrite with_unit_same.
  - simpl for_in.
    destruct (vals !! k) as [v |] eqn:Hv.
    2: { apply lookup_ge_None in Hv. lia. }
    rewrite (run_bind_ok _ _ w (with_unit w unit (<[k := v]> cur)) tt).
    + rewrite (IH (Datatypes.S k) _ (<[k := v]> cur)); try lia.
      * rewrite with_unit_twice. f_equal. f_equal.
        rewrite (drop_S vals v k Hv). simpl take. simpl list_inserts.
        now rewrite list_insert_inserts_lt by lia.
      * apply with_unit_lookup.
      * now rewrite length_insert.
      * now rewrite length_insert.
      * rewrite length_insert. lia.
    + rewrite (run_bind_ok _ _ w w v) by now apply run_list_get_nat.
      unfold view_to_setitem, bind, contents, gets. rewrite Hcur.
      change (default [] (Some cur)) with cur.
      rewrite slice_to_nat, Nat2Z.id, length_take.
      destruct (decide (k < n `min` length cur)%nat) as [_ | Hno]; [| lia].
      reflexivity.
Qed.

Lemma inserts_all (a vals : list Z) :
  length vals = length a -> list_inserts 0 (take (length a) (drop 0 vals)) a = vals.
Proof.
  intros Hv. rewrite drop_0, take_ge by lia.
  rewrite <- (app_nil_r a). rewrite list_inserts_0_r by lia. apply app_nil_r.
Qed.

Lemma seq_split (len n : nat) :
  (len < n)%nat -> seq 0 n = seq 0 len ++ len :: seq (Datatypes.S len) (n - len - 1).
Proof.
  intros H. replace n with (len + Datatypes.S (n - len - 1))%nat at 1 by lia.
  rewrite seq_app. reflexivity.
Qed.

Lemma smooth_end_overrun w unit a n :
  diphones (self w) !! unit = Some a -> (length a < n)%nat ->
  smooth_end unit (Z.of_nat n) w
  = (with_unit w unit (zip_with scaled a (reverse (factors n))), Raise IndexError).
Proof.
  intros Ha Hn. unfold smooth_end.
  rewrite range_of_nat, factors_as_range.
  unfold bind at 1, contents at 1, gets at 1. rewrite Ha.
  change (default [] (Some a)) with a.
  rewrite map_zip_scaled, slice_from_over by lia.
  set (vals := zip_with scaled a (reverse (factors n))).
  assert (Hvals : length vals = length a).
  { unfold vals. rewrite length_zip_with, length_reverse, length_factors. lia. }
  rewrite (seq_split (length a) n Hn), map_app.
  unfold bind at 1. rewrite for_in_app.
  rewrite (overrun_tail_writes unit n vals (length a) 0 w a) by (auto; lia).
  rewrite inserts_all by exact Hvals.
  simpl map. simpl for_in.
  rewrite (run_bind_raise _ _ _ (with_unit w unit vals) IndexError); [reflexivity |].
  rewrite (run_bind_raise _ _ _ (with_unit w unit vals) IndexError); [reflexivity |].
  apply run_list_get_past. lia.
Qed.

Lemma smooth_beg_overrun w unit a n :
  diphones (self w) !! unit = Some a -> (length a < n)%nat ->
  smooth_beg unit (Z.of_nat n) w
  = (with_unit w unit (zip_with scaled a (factors n)), Raise IndexError).
Proof.
  intros Ha Hn. unfold smooth_beg.
  rewrite range_of_nat, factors_as_range.
  unfold bind at 1, contents at 1, gets at 1. rewrite Ha.
  change (default [] (Some a)) with a.
  rewrite map_zip_scaled, slice_to_nat, take_ge by lia.
  set (vals := zip_with scaled a (factors n)).
  assert (Hvals : length vals = length a).
  { unfold vals. rewrite length_zip_with, length_factors. lia. }
  rewrite (seq_split (length a) n Hn), map_app.
  unfold bind at 1. rewrite for_in_app.
  rewrite (overrun_head_writes unit n vals (length a) 0 w a) by (auto; lia).
  rewrite inserts_all by exact Hvals.
  simpl map. simpl for_in.
  rewrite (run_bind_raise _ _ _ (with_unit w unit vals) IndexError); [reflexivity |].
  rewrite (run_bind_raise _ _ _ (with_unit w unit vals) IndexError); [reflexivity |].
  apply run_list_get_past. lia.
Qed.

Lemma overrun_end_samples n (a : list Z) :
  (length a <= n)%nat -> is_overrun_end n a (zip_with scaled a (reverse (factors n))).
Proof.
  intros Hn. split.
  - rewrite length_zip_with, length_reverse, length_factors. lia.
  - intros j Hj. rewrite lookup_zip_with.
    destruct (a !! j) as [x |] eqn:Hx.
    2: { apply lookup_ge_None in Hx. lia. }
    simpl. rewrite reverse_lookup by (rewrite length_factors; lia).
    rewrite length_factors.
    rewrite lookup_factors by lia. simpl.
    do 2 f_equal. unfold code_factor. do 2 f_equal. lia.
Qed.

End WindowFacts.

(** X1. [smooth_beg] on an array of at least [n] samples returns the
    same array object, rewritten in place: the sample at index [i]
    ([i < n]) is replaced by [int(a * (i / n))], the samples from index
    [n] on are unchanged and the length is kept. *)
Theorem smooth_beg_head_ramp (w : Synth.world) (unit : Synth.ndarray) (a : list Z) (n : nat) :
  Synth.diphones (Synth.self w) !! unit = Some a ->
  (n <= length a)%nat ->
  exists a',
    Synth.smooth_beg unit (Z.of_nat n) w = (Ramps.with_unit w unit a', Ok unit)
    /\ Windows.is_head_ramp n a a'.
Proof.
  intros Ha Hn. exists (Ramps.head_ramped n a). split.
  - now apply RampFacts.smooth_beg_run.
  - now apply WindowFacts.head_ramped_is_head_ramp.
Qed.

Lemma smooth_beg_head_ramp_witness :
  exists a',
    Synth.smooth_beg "u" 2 Examples.one_array
    = (Ramps.with_unit Examples.one_array "u" a', Ok "u"%string)
    /\ Windows.is_head_ramp 2 [10; 10; 10; 10] a'.
Proof.
  apply (smooth_beg_head_ramp Examples.one_array "u" [10; 10; 10; 10] 2).
  - reflexivity.
  - simpl. lia.
Defined.

(** X2. [smooth_end] with a window longer than the array raises
    IndexError (at [values_updated[i]] for [i = len]), and by then it
    has rewritten every sample of the array: sample [j] is left scaled
    by [(n - 1 - j) / n]. *)
Theorem smooth_end_window_longer_than_array (w : Synth.world) (unit : Synth.ndarray)
    (a : list Z) (n : nat) :
  Synth.diphones (Synth.self w) !! unit = Some a ->
  (length a < n)%nat ->
  exists a',
    Synth.smooth_end unit (Z.of_nat n) w = (Ramps.with_unit w unit a', Raise IndexError)
    /\ Windows.is_overrun_end n a a'.
Proof.
  intros Ha Hn. exists (zip_with Synth.scaled a (reverse (Ramps.factors n))). split.
  - now apply WindowFacts.smooth_end_overrun.
  - apply WindowFacts.overrun_end_samples. lia.
Qed.

Lemma smooth_end_window_longer_than_array_witness :
  exists a',
    Synth.smooth_end "u" 7 Examples.one_array
    = (Ramps.with_unit Examples.one_array "u" a', Raise IndexError)
    /\ Windows.is_overrun_end 7 [10; 10; 10; 10] a'.
Proof.
  apply (smooth_end_window_longer_than_array Examples.one_array "u" [10; 10; 10; 10] 7).
  - reflexivity.
  - simpl. lia.
Defined.

(** X3. [smooth_beg] with a window longer than the array raises
    IndexError as well, after it has scaled every sample [j] of the
    array by [j / n]. *)
Theorem smooth_beg_window_longer_than_array (w : Synth.world) (unit : Synth.ndarray)
    (a : list Z) (n : nat) :
  Synth.diphones (Synth.self w) !! unit = Some a ->
  (length a < n)%nat ->
  exists a',
    Synth.smooth_beg unit (Z.of_nat n) w = (Ramps.with_unit w unit a', Raise IndexError)
    /\ Windows.is_overrun_beg n a a'.
Proof.
  intros Ha Hn. exists (zip_with Synth.scaled a (Ramps.factors n)). split.
  - now apply WindowFacts.smooth_beg_overrun.
  - split.
    + rewrite length_zip_with, RampFacts.length_factors. lia.
    + intros j Hj. rewrite lookup_zip_with.
      destruct (a !! j) as [x |] eqn:Hx.
      2: { apply lookup_ge_None in Hx. lia. }
      simpl. now rewrite RampFacts.lookup_factors by lia.
Qed.

Lemma smooth_beg_window_longer_than_array_witness :
  exists a',
    Synth.smooth_beg "u" 7 Examples.one_array
    = (Ramps.with_unit Examples.one_array "u" a', Raise IndexError)
    /\ Windows.is_overrun_beg 7 [10; 10; 10; 10] a'.
Proof.
  apply (smooth_beg_window_longer_than_array Examples.one_array "u" [10; 10; 10; 10] 7).
  - reflexivity.
  - simpl. lia.
Defined.

(** ** Crossfade at the edges *)

Module EdgeFacts.

Import Synth Units Ramps Crossfade RampFacts CrossfadeFacts.

(** The first loop and the reading of the rate, for both modes. *)
Lemma synthesise_crossfade_start phones reverse w :
  synthesise phones reverse true w
  = (let w1 := with_output w (reported (diphones (self w)) (phones_to_diphones phones)) in
     let units := resolved (diphones (self w)) (phones_to_diphones phones) in
     let n := affected_values (rate (self w)) in
     match (let* smooth_dip := smooth_the_diphones units n in
            let* val_to_add := values_to_add smooth_dip n in
            let* dip_arr := trimmed_parts smooth_dip n in
            join [] val_to_add dip_arr) w1 with
     | (w', Ok concat_ary) =>
         (w', Ok (mkAudio (rate (self w)) (reversed_if_signal reverse concat_ary)))
     | (w', Raise e) => (w', Raise e)
     end).
Proof.
  unfold synthesise. unfold bind at 1, gets at 1.
  rewrite (run_bind_ok _ _ _ _ _ (gather_crossfade (phones_to_diphones phones) [] [] w)).
  cbv zeta. simpl fst. simpl snd. unfold bind at 1.
  destruct (bind _ _ _) as [w' [c | e]]; reflexivity.
Qed.

Lemma smooth_end_zero unit w : smooth_end unit 0 w = (w, Ok unit).
Proof. reflexivity. Qed.

Lemma smooth_beg_zero unit w : smooth_beg unit 0 w = (w, Ok unit).
Proof. reflexivity. Qed.

Lemma smooth_middle_zero middle : forall smooth_dip w,
  for_in middle smooth_dip
    (fun smooth_dip element =>
       smooth_beg element 0 ;;
       smooth_end element 0 ;;
       ret (smooth_dip ++ [element])) w
  = (w, Ok (smooth_dip ++ middle)).
Proof.
  induction middle as [| u middle IH]; intros acc w.
  - simpl. unfold ret. now rewrite app_nil_r.
  - simpl for_in. rewrite (run_bind_ok _ _ w w (acc ++ [u])) by reflexivity.
    rewrite IH. now rewrite <- app_assoc.
Qed.

Lemma smooth_the_diphones_zero first middle last w :
  smooth_the_diphones (first :: middle ++ [last]) 0 w
  = (w, Ok (first :: middle ++ [last])).
Proof.
  unfold smooth_the_diphones.
  rewrite (run_bind_ok _ _ w w first) by reflexivity.
  rewrite (run_bind_ok _ _ w w first) by reflexivity.
  rewrite slice_inner.
  rewrite (run_bind_ok _ _ _ _ _ (smooth_middle_zero middle [first] w)).
  rewrite (run_bind_ok _ _ _ _ last)
    by (rewrite app_comm_cons; apply run_list_get_last).
  rewrite (run_bind_ok _ _ w w last) by reflexivity.
  reflexivity.
Qed.

Lemma np_add_nothing (a b : list Z) w :
  (2 <= length a)%nat ->
  np_add (Np.slice_from (- 0) a) (Np.slice_to 0 b) w = (w, Raise ValueError).
Proof.
  intros Ha.
  assert (Hwhole : Np.slice_from (- 0) a = a).
  { unfold Np.slice_from, Np.slice, Np.clamp_index. change (- 0 <? 0) with false.
    assert (E : (Z.of_nat (length a) <? 0) = false) by (apply Z.ltb_ge; lia).
    rewrite E.
    replace (Z.to_nat ((- 0) `min` Z.of_nat (length a))) with 0%nat by lia.
    rewrite ?drop_0. apply take_ge. simpl. lia. }
  assert (Hnone : Np.slice_to 0 b = []).
  { change 0 with (Z.of_nat 0). now rewrite slice_to_nat. }
  rewrite Hwhole, Hnone. unfold np_add, Np.add, Np.broadcast_len.
  simpl (length []).
  destruct (decide (length a = 0%nat)); [lia |].
  destruct (decide (length a = 1%nat)); [lia |].
  destruct (decide (0%nat = 1%nat)); [lia |]. reflexivity.
Qed.

(** With one unit, [smooth_dip] holds the unit twice: as the first and
    as the last. *)
Lemma smooth_the_diphones_single n unit w :
  (0 < n)%nat -> fits n w unit ->
  smooth_the_diphones [unit] (Z.of_nat n) w
  = (beg_ramp n (end_ramp n w unit) unit, Ok [unit; unit]).
Proof.
  intros Hn Hf. unfold smooth_the_diphones.
  rewrite (run_bind_ok _ _ w w unit) by reflexivity.
  rewrite (run_bind_ok _ _ w (end_ramp n w unit) unit) by now apply smooth_end_world.
  change (Np.slice 1 (-1) [unit]) with (@nil ndarray).
  simpl for_in. rewrite (run_bind_ok _ _ _ _ [unit]) by reflexivity.
  rewrite (run_bind_ok _ _ _ _ unit) by reflexivity.
  erewrite run_bind_ok.
  2: { apply smooth_beg_world. apply (fits_shape n w); [| exact Hf].
       intros v. now apply shape_end_ramp. }
  reflexivity.
Qed.

End EdgeFacts.

(** X4. With crossfade, when the first unit the keys resolve to is
    shorter than the window [n = int(rate / 100)], [synthesise] raises
    IndexError (nothing catches the one of [smooth_end]); the reports of
    the missing keys have been printed and the unit has been rewritten
    in the inventory. *)
Theorem crossfade_first_unit_shorter_than_window (phones : list string)
    (reverse : option string) (w : Synth.world) (n : nat) (first : Synth.ndarray)
    (others : list Synth.ndarray) :
  let inventory := Synth.diphones (Synth.self w) in
  let keys := Synth.phones_to_diphones phones in
  Synth.affected_values (Synth.rate (Synth.self w)) = Z.of_nat n ->
  Units.resolved inventory keys = first :: others ->
  (length (Units.samples_of inventory first) < n)%nat ->
  exists a',
    Synth.synthesise phones reverse true w
    = (Ramps.with_unit (Units.with_output w (Units.reported inventory keys)) first a',
       Raise IndexError)
    /\ Windows.is_overrun_end n (Units.samples_of inventory first) a'.
Proof.
  rename reverse into flag. intros inventory keys Hrate Hres Hshort.
  assert (Hpresent : is_Some (inventory !! first)).
  { pose proof (CrossfadeFacts.resolved_present inventory keys) as H.
    rewrite Hres in H. now inversion H. }
  destruct Hpresent as [a Ha].
  assert (Hs : Units.samples_of inventory first = a)
    by (unfold Units.samples_of; now rewrite Ha).
  rewrite Hs in *.
  set (w1 := Units.with_output w (Units.reported inventory keys)).
  pose proof (WindowFacts.smooth_end_overrun w1 first a n Ha Hshort) as Hrun.
  exists (zip_with Synth.scaled a (reverse (Ramps.factors n))).
  split; [| apply WindowFacts.overrun_end_samples; lia].
  set (a' := zip_with Synth.scaled a (reverse (Ramps.factors n))) in *.
  rewrite EdgeFacts.synthesise_crossfade_start. cbv zeta.
  fold inventory keys. rewrite Hres, Hrate. fold w1.
  unfold Synth.smooth_the_diphones.
  rewrite (run_bind_raise _ _ w1 (Ramps.with_unit w1 first a') IndexError); [reflexivity |].
  rewrite (run_bind_ok _ _ w1 w1 first) by reflexivity.
  rewrite (run_bind_raise _ _ w1 (Ramps.with_unit w1 first a') IndexError); [reflexivity |].
  exact Hrun.
Qed.

Lemma crossfade_first_unit_shorter_than_window_witness :
  exists a',
    Synth.synthesise ["a"%string] None true (MoreExamples.units_at 700)
    = (Ramps.with_unit (MoreExamples.units_at 700) "pau-a.wav" a', Raise IndexError)
    /\ Windows.is_overrun_end 7 [10; 10; 10; 10; 10; 10] a'.
Proof.
  apply (crossfade_first_unit_shorter_than_window ["a"%string] None
           (MoreExamples.units_at 700) 7 "pau-a.wav" ["a-pau.wav"%string]).
  - reflexivity.
  - reflexivity.
  - vm_compute. lia.
Defined.

(** X5. With crossfade and exactly one unit resolved, of at least
    [n = int(rate / 100) >= 1] samples, [synthesise] does not return the
    unit as it is: the unit is ramped at both ends in the inventory and
    the buffer is the unit without its last [n] samples, the overlap of
    its end with its own start, and the unit without its first [n]
    samples: [2 len - n] samples. *)
Theorem crossfade_single_unit (phones : list string) (reverse : option string)
    (w : Synth.world) (n : nat) (unit : Synth.ndarray) :
  let inventory := Synth.diphones (Synth.self w) in
  let keys := Synth.phones_to_diphones phones in
  let a := Units.samples_of inventory unit in
  let a' := Ramps.head_ramped n (Ramps.tail_ramped n a) in
  Synth.affected_values (Synth.rate (Synth.self w)) = Z.of_nat n ->
  (0 < n <= length a)%nat ->
  Units.resolved inventory keys = [unit] ->
  Synth.synthesise phones reverse true w
  = (Ramps.with_unit (Units.with_output w (Units.reported inventory keys)) unit a',
     Ok (Synth.mkAudio (Synth.rate (Synth.self w))
           (Units.reversed_if_signal reverse (Crossfade.crossfaded n a' [] a'))))
  /\ (length (Crossfade.crossfaded n a' [] a') + n = 2 * length a)%nat.
Proof.
  intros inventory keys a a' Hrate Hn Hres.
  assert (Hpresent : is_Some (inventory !! unit)).
  { pose proof (CrossfadeFacts.resolved_present inventory keys) as H.
    rewrite Hres in H. now inversion H. }
  set (w1 := Units.with_output w (Units.reported inventory keys)).
  assert (Hf : Crossfade.fits n w1 unit).
  { apply CrossfadeFacts.fits_of_present; [exact Hpresent | exact (proj2 Hn)]. }
  assert (Hw' : Crossfade.beg_ramp n (Crossfade.end_ramp n w1 unit) unit
                = Ramps.with_unit w1 unit a').
  { unfold Crossfade.beg_ramp. rewrite CrossfadeFacts.samples_end_ramp.
    destruct (decide (unit = unit)) as [_ | Hno]; [| now contradict Hno].
    unfold Crossfade.end_ramp. now rewrite RampFacts.with_unit_twice. }
  assert (Hlen' : length a' = length a).
  { unfold a'. rewrite RampFacts.length_head_ramped; rewrite RampFacts.length_tail_ramped; lia. }
  split.
  - rewrite EdgeFacts.synthesise_crossfade_start. cbv zeta.
    fold inventory keys. rewrite Hres, Hrate. fold w1.
    rewrite (run_bind_ok _ _ _ _ _ (EdgeFacts.smooth_the_diphones_single n unit w1
                                      (proj1 Hn) Hf)).
    rewrite Hw'. set (w' := Ramps.with_unit w1 unit a').
    assert (Hsamples : Units.samples_of (Synth.diphones (Synth.self w')) unit = a').
    { unfold w'. rewrite CrossfadeFacts.samples_with_unit.
      destruct (decide (unit = unit)) as [_ | Hno]; [reflexivity | now contradict Hno]. }
    assert (Hf' : Crossfade.fits n w' unit).
    { apply CrossfadeFacts.fits_of_present.
      - unfold w'. rewrite RampFacts.with_unit_lookup. now eexists.
      - rewrite Hsamples. lia. }
    rewrite (run_bind_ok _ _ _ _ _
               (CrossfadeFacts.values_to_add_run n [unit; unit] w' (proj1 Hn)
                  ltac:(repeat constructor; exact Hf'))).
    rewrite (run_bind_ok _ _ _ _ _
               (CrossfadeFacts.trimmed_parts_run n unit [] unit w' (proj1 Hn))).
    rewrite CrossfadeFacts.join_run by reflexivity.
    cbn [map]. rewrite !Hsamples. unfold Crossfade.crossfaded.
    cbn [Crossfade.overlaps Crossfade.interleaved Crossfade.crossfaded_from app].
    rewrite ?app_nil_r. reflexivity.
  - unfold Crossfade.crossfaded. simpl.
    rewrite !length_app, length_take, length_drop.
    rewrite CrossfadeFacts.overlap_length by lia. lia.
Qed.

Lemma crossfade_single_unit_witness :
  let a' := Ramps.head_ramped 2 (Ramps.tail_ramped 2 [10; 20; 30; 40; 50]) in
  Synth.synthesise [] None true Examples.silence_only
  = (Ramps.with_unit Examples.silence_only "pau-pau.wav" a',
     Ok (Synth.mkAudio 200 (Crossfade.crossfaded 2 a' [] a')))
  /\ (length (Crossfade.crossfaded 2 a' [] a') + 2 = 2 * 5)%nat.
Proof.
  apply (crossfade_single_unit [] None Examples.silence_only 2 "pau-pau.wav").
  - reflexivity.
  - vm_compute. lia.
  - reflexivity.
Defined.

(** X6. With crossfade at a rate below 100 the window is 0: no array
    is changed, and when the keys resolve to two or more units the first
    of which has two or more samples, [np.add] of the whole first array
    and an empty slice cannot be broadcast: [synthesise] raises
    ValueError, which the handler for IndexError does not catch. *)
Theorem crossfade_zero_window (phones : list string) (reverse : option string)
    (w : Synth.world) (first : Synth.ndarray) (middle : list Synth.ndarray)
    (last : Synth.ndarray) :
  let inventory := Synth.diphones (Synth.self w) in
  let keys := Synth.phones_to_diphones phones in
  Synth.affected_values (Synth.rate (Synth.self w)) = 0 ->
  Units.resolved inventory keys = first :: middle ++ [last] ->
  (2 <= length (Units.samples_of inventory first))%nat ->
  Synth.synthesise phones reverse true w
  = (Units.with_output w (Units.reported inventory keys), Raise ValueError).
Proof.
  intros inventory keys Hrate Hres Hlen.
  rewrite EdgeFacts.synthesise_crossfade_start. cbv zeta.
  fold inventory keys. rewrite Hres, Hrate.
  set (w1 := Units.with_output w (Units.reported inventory keys)).
  rewrite (run_bind_ok _ _ _ _ _ (EdgeFacts.smooth_the_diphones_zero first middle last w1)).
  rewrite (run_bind_raise _ _ w1 w1 ValueError); [reflexivity |].
  unfold Synth.values_to_add. simpl length.
  rewrite (RampFacts.range_of_nat (Datatypes.S (length (middle ++ [last])))).
  rewrite length_app. simpl length.
  replace (length middle + 1)%nat with (Datatypes.S (length middle)) by lia.
  simpl seq. simpl map. simpl for_in_break.
  rewrite (run_bind_raise _ _ w1 w1 ValueError); [reflexivity |].
  unfold Synth.overlap_step, try_except.
  rewrite (run_bind_ok _ _ w1 w1 first) by reflexivity.
  rewrite (run_bind_ok _ _ w1 w1 (Units.samples_of inventory first)) by reflexivity.
  assert (Hsecond : exists second, (first :: middle ++ [last]) !! 1%nat = Some second).
  { destruct middle as [| u middle]; simpl; eauto. }
  destruct Hsecond as [second Hsecond].
  rewrite (run_bind_ok _ _ w1 w1 second)
    by (apply (run_list_get_nat _ 1%nat); exact Hsecond).
  rewrite (run_bind_ok _ _ w1 w1 (Units.samples_of inventory second)) by reflexivity.
  rewrite (run_bind_raise _ _ w1 w1 ValueError); [reflexivity |].
  now apply EdgeFacts.np_add_nothing.
Qed.

Lemma crossfade_zero_window_witness :
  Synth.synthesise ["a"%string] None true (MoreExamples.units_at 50)
  = (MoreExamples.units_at 50, Raise ValueError).
Proof.
  apply (crossfade_zero_window ["a"%string] None (MoreExamples.units_at 50)
           "pau-a.wav" [] "a-pau.wav").
  - reflexivity.
  - reflexivity.
  - vm_compute. lia.
Defined.

(** ** Reversal of the signal *)

Module ReversalFacts.

Import Synth Units.

(** [reverse] is read once, after the buffer has been put together. *)
Lemma synthesise_then_reversal phones smooth_concat w :
  exists r : world * result (list Z),
    forall reverse,
      synthesise phones reverse smooth_concat w
      = match r with
        | (w', Ok concat_ary) =>
            (w', Ok (mkAudio (rate (self w)) (reversed_if_signal reverse concat_ary)))
        | (w', Raise e) => (w', Raise e)
        end.
Proof.
  exists ((let* gathered :=
             for_in (phones_to_diphones phones) ([], []) (gather smooth_concat) in
           if smooth_concat then
             let* smooth_dip :=
               smooth_the_diphones (snd gathered) (affected_values (rate (self w))) in
             let* val_to_add := values_to_add smooth_dip (affected_values (rate (self w))) in
             let* dip_arr := trimmed_parts smooth_dip (affected_values (rate (self w))) in
             join (fst gathered) val_to_add dip_arr
           else ret (fst gathered)) w).
  intros reverse. unfold synthesise. unfold bind at 1, gets at 1.
  unfold bind at 1. unfold bind at 5.
  destruct (for_in (phones_to_diphones phones) ([], []) (gather smooth_concat) w)
    as [w1 [gathered | e]]; [| reflexivity].
  cbv zeta. unfold bind at 1.
  destruct smooth_concat.
  - destruct (bind _ _ w1) as [w' [c | e]]; reflexivity.
  - reflexivity.
Qed.

End ReversalFacts.

(** X7. In both modes and on every input, [reverse = 'signal'] changes
    nothing but the order of the samples: the call leaves the same
    inventory and output behind and raises the same exception, and when
    it returns, its buffer is the buffer of the call without reversal,
    flipped end to end.  Any other value of [reverse] (such as 'words' or
    'phones', which [main] passes on as well) leaves the buffer as it is. *)
Theorem signal_reversal_flips_buffer (phones : list string) (smooth_concat : bool)
    (w : Synth.world) :
  let plain := Synth.synthesise phones None smooth_concat w in
  let mirrored := Synth.synthesise phones (Some "signal"%string) smooth_concat w in
  fst mirrored = fst plain
  /\ match snd plain with
     | Ok audio =>
         snd mirrored = Ok (Synth.mkAudio (Synth.audio_rate audio) (rev (Synth.data audio)))
     | Raise e => snd mirrored = Raise e
     end
  /\ forall reverse, reverse <> Some "signal"%string ->
       Synth.synthesise phones reverse smooth_concat w = plain.
Proof.
  intros plain mirrored. unfold plain, mirrored.
  destruct (ReversalFacts.synthesise_then_reversal phones smooth_concat w) as [r Hr].
  rewrite !Hr. destruct r as [w' [c | e]]; simpl.
  - repeat split. intros reverse Hne. rewrite Hr. unfold Units.reversed_if_signal.
    destruct (decide (reverse = Some "signal"%string)) as [E | _]; [now contradict Hne |].
    reflexivity.
  - repeat split. intros reverse Hne. now rewrite Hr.
Qed.

Lemma signal_reversal_flips_buffer_witness :
  Synth.synthesise ["a"%string] (Some "words"%string) true Examples.two_units
  = Synth.synthesise ["a"%string] None true Examples.two_units.
Proof.
  pose proof (signal_reversal_flips_buffer ["a"%string] true Examples.two_units) as H.
  cbv zeta in H. destruct H as (_ & _ & H). apply H. discriminate.
Defined.

(** ** Keys and the spelling of phones *)

Module SpellingFacts.

Import Str Synth DiphoneKeys Phones.

Lemma lower_char_digit c : is_digit (lower_char c) = is_digit c.
Proof. destruct c as [[] [] [] [] [] [] [] []]; reflexivity. Qed.

Lemma lower_char_twice c : lower_char (lower_char c) = lower_char c.
Proof. destruct c as [[] [] [] [] [] [] [] []]; reflexivity. Qed.

Lemma lower_strip_digits s : lower (strip_digits s) = strip_digits (lower s).
Proof.
  induction s as [| c s IH]; [reflexivity |]. simpl.
  rewrite lower_char_digit. destruct (is_digit c); simpl; now rewrite IH.
Qed.

Lemma lower_twice s : lower (lower s) = lower s.
Proof.
  induction s as [| c s IH]; [reflexivity |]. simpl. now rewrite lower_char_twice, IH.
Qed.

Lemma strip_digits_twice s : strip_digits (strip_digits s) = strip_digits s.
Proof.
  induction s as [| c s IH]; [reflexivity |]. simpl.
  destruct (is_digit c) eqn:Hc; simpl; [exact IH | now rewrite Hc, IH].
Qed.

Lemma spelled_twice phone : spelled (spelled phone) = spelled phone.
Proof.
  unfold spelled. now rewrite lower_strip_digits, lower_twice, strip_digits_twice.
Qed.

Lemma phones_to_diphones_spelled phones :
  phones_to_diphones phones
  = adjacent_keys ("pau"%string :: map spelled phones ++ ["pau"%string]).
Proof.
  unfold phones_to_diphones.
  rewrite (DiphoneKeysFacts.diphone_loop_spec _ _ 0%nat []) by reflexivity.
  rewrite drop_0. simpl app at 1. now rewrite map_map.
Qed.

End SpellingFacts.

(** X8. The keys do not depend on the case of the phones nor on their
    stress digits: the phone list and its lowercase, digit-free spelling
    give the same keys, and so do any two lists with the same spelling
    (AH0 and ah1 name the same unit). *)
Theorem phones_to_diphones_ignores_case_and_stress (phones phones' : list string) :
  Synth.phones_to_diphones (map Phones.spelled phones) = Synth.phones_to_diphones phones
  /\ (map Phones.spelled phones = map Phones.spelled phones' ->
      Synth.phones_to_diphones phones = Synth.phones_to_diphones phones').
Proof.
  split.
  - rewrite !SpellingFacts.phones_to_diphones_spelled, map_map.
    do 3 f_equal. apply map_ext. intros p. apply SpellingFacts.spelled_twice.
  - intros H. rewrite !SpellingFacts.phones_to_diphones_spelled. now rewrite H.
Qed.

Lemma phones_to_diphones_ignores_case_and_stress_witness :
  Synth.phones_to_diphones ["HH"; "AH0"; "L"; "OW1"]%string
  = Synth.phones_to_diphones ["hh"; "ah1"; "l2"; "Ow"]%string.
Proof.
  apply (proj2 (phones_to_diphones_ignores_case_and_stress
                  ["HH"; "AH0"; "L"; "OW1"]%string ["hh"; "ah1"; "l2"; "Ow"]%string)).
  reflexivity.
Defined.

(** ** What [normalise_phrase] leaves behind *)

Module SuccessFacts.

Import Str Utterance Dates DateFacts DepthFacts Tokens.

Lemma normalise_phrase_at_success : forall depth w w' words,
  normalise_phrase_at depth w = (w', Ok words) ->
  search_date (phrase w') = None
  /\ words = tokens (phrase w')
  /\ stdout w' = stdout w
  /\ rescans (phrase w) (phrase w').
Proof.
  induction depth as [| depth IH]; intros w w' words H; [discriminate |].
  rewrite normalise_phrase_at_step in H.
  destruct (search_date (phrase w)) as [m |] eqn:Hs.
  - destruct (spoken (group0 m)) as [text | e] eqn:Hd; [| discriminate].
    destruct (normalise_phrase_at depth _) as [w2 [r | e]] eqn:E; [| discriminate].
    inversion H; subst. destruct (IH _ _ _ E) as (Hnone & _ & Hout & Hre).
    repeat split; [exact Hnone | exact Hout |].
    eapply rescans_next; eauto.
  - inversion H; subst. repeat split; [exact Hs | apply rescans_here].
Qed.

Lemma normalise_phrase_no_date w :
  search_date (phrase w) = None -> normalise_phrase w = (w, Ok (tokens (phrase w))).
Proof.
  intros Hs. unfold normalise_phrase. rewrite normalise_phrase_at_step. now rewrite Hs.
Qed.

Lemma slash_after_digits g r :
  all_chars (fun c => negb (is_slash c)) (g +:+ String "/" r) = false.
Proof.
  induction g as [| c g IH]; [reflexivity |].
  rewrite append_cons. simpl. rewrite IH. apply andb_false_r.
Qed.

Lemma match_date_slash s m :
  match_date s = Some m -> all_chars (fun c => negb (is_slash c)) s = false.
Proof.
  unfold match_date.
  destruct (span_digits s) as [g1 r1] eqn:E1.
  apply span_digits_eq in E1 as [-> _].
  destruct g1 as [| c1 g1]; [discriminate |].
  destruct r1 as [| x r2]; [discriminate |].
  destruct (decide (x = "/"%char)) as [-> | Hx].
  - intros _. apply slash_after_digits.
  - destruct x as [[] [] [] [] [] [] [] []]; try discriminate; now contradict Hx.
Qed.

Lemma search_date_slash s m :
  search_date s = Some m -> all_chars (fun c => negb (is_slash c)) s = false.
Proof.
  induction s as [| c s IH]; simpl; [discriminate |].
  destruct (match_date (String c s)) as [m' |] eqn:E.
  - intros _. now apply match_date_slash in E.
  - intros H. rewrite (IH H). apply andb_false_r.
Qed.

(** *** Tokens *)

Lemma lower_char_kind c :
  is_space (lower_char c) = is_space c
  /\ is_punctuation (lower_char c) = is_punctuation c
  /\ is_upper (lower_char c) = false.
Proof. destruct c as [[] [] [] [] [] [] [] []]; repeat split. Qed.

Lemma all_chars_list p (l : list ascii) :
  all_chars p (string_of_list_ascii l) = forallb p l.
Proof. induction l as [| c l IH]; simpl; [reflexivity | now rewrite IH]. Qed.

Lemma forallb_rev_true (p : ascii -> bool) l :
  forallb p l = true -> forallb p (rev l) = true.
Proof.
  rewrite !forallb_forall. intros H x Hx. apply H. now apply in_rev.
Qed.

Lemma split_from_no_space s : forall word,
  forallb (fun c => negb (is_space c)) word = true ->
  Forall (fun t => all_chars (fun c => negb (is_space c)) t = true) (split_from word s).
Proof.
  induction s as [| c s IH]; intros word Hw; simpl.
  - destruct word as [| x word]; constructor; [| constructor].
    rewrite all_chars_list. now apply forallb_rev_true.
  - destruct (is_space c) eqn:Hc.
    + destruct word as [| x word]; [now apply IH |].
      constructor; [| now apply IH].
      rewrite all_chars_list. now apply forallb_rev_true.
    + apply IH. simpl. now rewrite Hc.
Qed.

Lemma strip_punctuation_clean t :
  all_chars (fun c => negb (is_space c)) t = true ->
  all_chars (fun c => negb (is_space c) && negb (is_punctuation c)) (strip_punctuation t)
  = true.
Proof.
  induction t as [| c t IH]; simpl; [reflexivity |].
  intros H. apply andb_prop in H as [Hc Ht].
  destruct (is_punctuation c) eqn:Hp; simpl; [now apply IH |].
  rewrite Hc, Hp. simpl. now apply IH.
Qed.

Lemma lower_clean t :
  all_chars (fun c => negb (is_space c) && negb (is_punctuation c)) t = true ->
  all_chars token_char (lower t) = true.
Proof.
  induction t as [| c t IH]; simpl; [reflexivity |].
  intros H. apply andb_prop in H as [Hc Ht].
  destruct (lower_char_kind c) as (Hs & Hp & Hu).
  unfold token_char at 1. rewrite Hs, Hp, Hu, Hc. simpl. now apply IH.
Qed.

Lemma tokens_clean text : Forall (fun t => all_chars token_char t = true) (tokens text).
Proof.
  unfold tokens, split. apply Forall_fmap.
  eapply Forall_impl; [apply (split_from_no_space text []); reflexivity |].
  intros t Ht. unfold compose. now apply lower_clean, strip_punctuation_clean.
Qed.

End SuccessFacts.

(** ** The forms of a date *)

Module FormFacts.

Import Str Utterance Dates DateFacts.

Lemma nonempty_cons (s : string) : s <> EmptyString -> exists c t, s = String c t.
Proof. destruct s as [| c t]; [easy | intros _; now exists c, t]. Qed.

Lemma match_date_day_month d mo :
  d <> EmptyString -> mo <> EmptyString ->
  all_digits d = true -> all_digits mo = true ->
  match_date (d +:+ "/" +:+ mo) = Some (mkMatch (d +:+ "/" +:+ mo) d mo None).
Proof.
  intros Hd Hmo Dd Dmo. unfold match_date. rewrite slash_append.
  rewrite (span_digits_app d (String "/" mo) Dd eq_refl).
  destruct (nonempty_cons d Hd) as (c1 & g1 & ->).
  rewrite <- (append_nil_r mo) at 1.
  rewrite (span_digits_app mo EmptyString Dmo I).
  destruct (nonempty_cons mo Hmo) as (c2 & g2 & ->).
  now rewrite slash_append.
Qed.

Lemma match_date_day_month_year d mo y :
  d <> EmptyString -> mo <> EmptyString ->
  all_digits d = true -> all_digits mo = true -> all_digits y = true ->
  (2 <= String.length y)%nat ->
  match_date (d +:+ "/" +:+ mo +:+ "/" +:+ y)
  = Some (mkMatch (d +:+ "/" +:+ mo +:+ "/" +:+ y) d mo (Some y)).
Proof.
  intros Hd Hmo Dd Dmo Dy Hy. unfold match_date. rewrite !slash_append.
  rewrite (span_digits_app d (String "/" (mo +:+ String "/" y)) Dd eq_refl).
  destruct (nonempty_cons d Hd) as (c1 & g1 & ->).
  rewrite (span_digits_app mo (String "/" y) Dmo eq_refl).
  destruct (nonempty_cons mo Hmo) as (c2 & g2 & ->).
  rewrite <- (append_nil_r y) at 1.
  rewrite (span_digits_app y EmptyString Dy I).
  apply Nat.leb_le in Hy. rewrite Hy. now rewrite !slash_append.
Qed.

Lemma table_find_in (d : table) key v : table_find d key = Some v -> In key (map fst d).
Proof.
  induction d as [| [k x] d IH]; simpl; [discriminate |].
  destruct (decide (k = key)) as [-> | _]; [now left | right; now apply IH].
Qed.

Lemma lstrip_zeros_other c t : c <> "0"%char -> lstrip_zeros (String c t) = String c t.
Proof.
  intros Hc. destruct c as [[] [] [] [] [] [] [] []]; try reflexivity. now contradict Hc.
Qed.

(** A number that strips to a key of a table is a non-empty string of
    digits. *)
Lemma stripped_key_digits (d : table) x v :
  Forall (fun k => all_digits k = true) (map fst d) ->
  table_find d EmptyString = None ->
  table_find d (lstrip_zeros x) = Some v -> all_digits x = true /\ x <> EmptyString.
Proof.
  intros Hkeys Hnil. induction x as [| c x IH].
  - intros H. simpl in H. congruence.
  - destruct (decide (c = "0"%char)) as [-> | Hc].
    + change (lstrip_zeros (String "0" x)) with (lstrip_zeros x).
      intros H. destruct (IH H) as [D _]. split; [exact D | discriminate].
    + rewrite (lstrip_zeros_other c x Hc). intros H. split; [| discriminate].
      apply table_find_in in H. now apply (proj1 (List.Forall_forall _ _) Hkeys).
Qed.

Lemma month_digits x v :
  table_find mths (lstrip_zeros x) = Some v -> all_digits x = true /\ x <> EmptyString.
Proof. apply stripped_key_digits; [repeat constructor | reflexivity]. Qed.

Lemma day_digits x v :
  table_find dys (lstrip_zeros x) = Some v -> all_digits x = true /\ x <> EmptyString.
Proof. apply stripped_key_digits; [repeat constructor | reflexivity]. Qed.

Lemma list_ascii_app (a b : string) :
  list_ascii_of_string (a +:+ b) = list_ascii_of_string a ++ list_ascii_of_string b.
Proof.
  induction a as [| x a IH]; [reflexivity |]. rewrite append_cons. simpl. now rewrite IH.
Qed.

Lemma length_list_ascii (a : string) : length (list_ascii_of_string a) = String.length a.
Proof. induction a as [| x a IH]; simpl; [reflexivity | now rewrite IH]. Qed.

Lemma length_append (a b : string) :
  String.length (a +:+ b) = (String.length a + String.length b)%nat.
Proof. induction a as [| x a IH]; [reflexivity |]. rewrite append_cons. simpl. now rewrite IH. Qed.

(** [year[-2:]] keeps the last two digits. *)
Lemma two_digit_year_last c a b :
  two_digit_year (c +:+ String a (String b EmptyString)) = String a (String b EmptyString).
Proof.
  unfold two_digit_year.
  destruct (decide (String.length (c +:+ String a (String b EmptyString)) = 2%nat)) as [E | _].
  - rewrite length_append in E. simpl in E. destruct c as [| x c]; [reflexivity |].
    simpl in E. lia.
  - unfold str_slice_from. rewrite list_ascii_app.
    change (-2) with (- Z.of_nat 2).
    rewrite RampFacts.slice_from_neg by (rewrite length_app; simpl; lia).
    rewrite length_app. simpl length.
    replace (length (list_ascii_of_string c) + 2 - 2)%nat
      with (length (list_ascii_of_string c)) by lia.
    now rewrite drop_app_length.
Qed.

Lemma all_digits_app (a b : string) :
  all_digits a = true -> all_digits b = true -> all_digits (a +:+ b) = true.
Proof.
  intros Ha Hb. induction a as [| x a IH]; [exact Hb |].
  rewrite append_cons. simpl in *. apply andb_prop in Ha as [Hx Ha].
  now rewrite Hx, IH.
Qed.

Lemma year_shape c a b :
  all_digits c = true -> is_digit a = true -> is_digit b = true ->
  let year := c +:+ String a (String b EmptyString) in
  all_digits year = true /\ (2 <= String.length year)%nat /\ year <> EmptyString.
Proof.
  intros Dc Da Db. cbv zeta. repeat split.
  - apply all_digits_app; [exact Dc |]. simpl. now rewrite Da, Db.
  - rewrite length_append. simpl. lia.
  - intros E. apply (f_equal String.length) in E. rewrite length_append in E.
    simpl in E. lia.
Qed.

(** What [normalise_dates] does with a date that has a year. *)
Lemma normalise_dates_with_year {S} (s : S) date m year :
  match_date date = Some m -> group3 m = Some year -> year <> EmptyString ->
  normalise_dates date s
  = (if table_mem yrs_10to19 (two_digit_year year)
     then date_teens (lstrip_zeros (group2 m)) (lstrip_zeros (group1 m)) (two_digit_year year)
     else date_tens_ones (lstrip_zeros (group2 m)) (lstrip_zeros (group1 m))
            (two_digit_year year)) s.
Proof.
  intros Hm Hy Hne. unfold normalise_dates. rewrite Hm, Hy.
  destruct year as [| x year]; [now contradict Hne | reflexivity].
Qed.

Lemma full_date_run {S} (s : S) d mo c a b :
  d <> EmptyString -> mo <> EmptyString ->
  all_digits d = true -> all_digits mo = true ->
  all_digits c = true -> is_digit a = true -> is_digit b = true ->
  let year := String a (String b EmptyString) in
  normalise_dates (d +:+ "/" +:+ mo +:+ "/" +:+ c +:+ year) s
  = (if table_mem yrs_10to19 year
     then date_teens (lstrip_zeros mo) (lstrip_zeros d) year
     else date_tens_ones (lstrip_zeros mo) (lstrip_zeros d) year) s.
Proof.
  intros Hd Hmo Dd Dmo Dc Da Db. cbv zeta.
  pose proof (year_shape c a b Dc Da Db) as H. cbv zeta in H.
  destruct H as (Dy & Ly & Ny).
  rewrite (normalise_dates_with_year s _ _ (c +:+ String a (String b EmptyString))
             (match_date_day_month_year d mo _ Hd Hmo Dd Dmo Dy Ly) eq_refl Ny).
  cbn [group1 group2]. now rewrite two_digit_year_last.
Qed.

Lemma table_key_two_digits (d : table) key v :
  Forall (fun k => exists a b, k = String a (String b EmptyString)
                                /\ is_digit a = true /\ is_digit b = true) (map fst d) ->
  table_find d key = Some v ->
  exists a b, key = String a (String b EmptyString) /\ is_digit a = true /\ is_digit b = true.
Proof.
  intros Hkeys H. apply table_find_in in H.
  now apply (proj1 (List.Forall_forall _ _) Hkeys).
Qed.

Lemma teen_two_digits key v :
  table_find yrs_10to19 key = Some v ->
  exists a b, key = String a (String b EmptyString) /\ is_digit a = true /\ is_digit b = true.
Proof.
  apply table_key_two_digits.
  repeat (constructor; [eexists _, _; repeat split |]). constructor.
Qed.

Lemma tens_digit a tw :
  table_find yrs_tens (String a EmptyString) = Some tw -> is_digit a = true.
Proof.
  intros H. apply table_find_in in H. simpl in H.
  repeat (destruct H as [H | H]; [now inversion H |]). destruct H.
Qed.

End FormFacts.

(** X9. When [normalise_phrase] returns, [self.phrase] holds no date any
    more: the date pattern finds nothing in it.  The tokens returned are
    the words of that final phrase, the phrase was reached from the
    first one by rewriting the dates found one after the other, and
    nothing was printed. *)
Theorem normalise_phrase_leaves_no_date (w w' : Utterance.world) (words : list string) :
  Utterance.normalise_phrase w = (w', Ok words) ->
  Utterance.search_date (Utterance.phrase w') = None
  /\ words = Dates.tokens (Utterance.phrase w')
  /\ Utterance.stdout w' = Utterance.stdout w
  /\ Dates.rescans (Utterance.phrase w) (Utterance.phrase w').
Proof.
  unfold Utterance.normalise_phrase. apply SuccessFacts.normalise_phrase_at_success.
Qed.

Lemma normalise_phrase_leaves_no_date_witness :
  Utterance.search_date "On march twelfth nineteen ninety one" = None
  /\ ["on"; "march"; "twelfth"; "nineteen"; "ninety"; "one"]%string
     = Dates.tokens "On march twelfth nineteen ninety one"
  /\ @nil string = []
  /\ Dates.rescans "On 12/3/1991" "On march twelfth nineteen ninety one".
Proof.
  apply (normalise_phrase_leaves_no_date (Utterance.mkWorld "On 12/3/1991" [])
           (Utterance.mkWorld "On march twelfth nineteen ninety one" [])).
  vm_compute. reflexivity.
Defined.

(** X10. [normalise_phrase] called again on the same utterance finds
    nothing to rewrite: it returns the same tokens and leaves the
    utterance as the first call left it. *)
Theorem normalise_phrase_twice (w w' : Utterance.world) (words : list string) :
  Utterance.normalise_phrase w = (w', Ok words) ->
  Utterance.normalise_phrase w' = (w', Ok words).
Proof.
  intros H. unfold Utterance.normalise_phrase in H.
  destruct (SuccessFacts.normalise_phrase_at_success _ _ _ _ H) as (Hnone & -> & _).
  now apply SuccessFacts.normalise_phrase_no_date.
Qed.

Lemma normalise_phrase_twice_witness :
  Utterance.normalise_phrase
    (Utterance.mkWorld "On march twelfth, september ninth nineteen ninety one" [])
  = (Utterance.mkWorld "On march twelfth, september ninth nineteen ninety one" [],
     Ok ["on"; "march"; "twelfth"; "september"; "ninth"; "nineteen"; "ninety"; "one"]%string).
Proof.
  apply (normalise_phrase_twice (Utterance.mkWorld "On 12/3, 9/9/1991" [])).
  vm_compute. reflexivity.
Defined.

(** X11. A phrase without a slash holds no date: [normalise_phrase]
    rewrites nothing, raises nothing and returns the words of the phrase
    as they stand, each without its punctuation and in lower case. *)
Theorem normalise_phrase_without_slash (w : Utterance.world) :
  Tokens.all_chars (fun c => negb (Tokens.is_slash c)) (Utterance.phrase w) = true ->
  Utterance.normalise_phrase w
  = (w, Ok (map (fun word => Str.lower (Str.strip_punctuation word))
              (Str.split (Utterance.phrase w)))).
Proof.
  intros H. apply SuccessFacts.normalise_phrase_no_date.
  destruct (Utterance.search_date (Utterance.phrase w)) as [m |] eqn:E; [| reflexivity].
  apply SuccessFacts.search_date_slash in E. congruence.
Qed.

Lemma normalise_phrase_without_slash_witness :
  Utterance.normalise_phrase (Utterance.mkWorld "Hello, World 42!" [])
  = (Utterance.mkWorld "Hello, World 42!" [], Ok ["hello"; "world"; "42"]%string).
Proof.
  apply (normalise_phrase_without_slash (Utterance.mkWorld "Hello, World 42!" [])).
  reflexivity.
Defined.

(** X12. Every token [normalise_phrase] returns is free of whitespace,
    of the characters of [string.punctuation] and of ASCII capital
    letters. *)
Theorem normalise_phrase_tokens_clean (w w' : Utterance.world) (words : list string) :
  Utterance.normalise_phrase w = (w', Ok words) ->
  Forall (fun token => Tokens.all_chars Tokens.token_char token = true) words.
Proof.
  intros H. unfold Utterance.normalise_phrase in H.
  destruct (SuccessFacts.normalise_phrase_at_success _ _ _ _ H) as (_ & -> & _).
  apply SuccessFacts.tokens_clean.
Qed.

Lemma normalise_phrase_tokens_clean_witness :
  Forall (fun token => Tokens.all_chars Tokens.token_char token = true)
    ["its"; "march"; "twentyfirst"; EmptyString]%string.
Proof.
  apply (normalise_phrase_tokens_clean (Utterance.mkWorld "It's 21/3 !" [])
           (Utterance.mkWorld "It's march twenty-first !" [])).
  vm_compute. reflexivity.
Defined.

(** X13. The nesting of [normalise_phrase] is bounded by the digits of
    the phrase: with more nested calls allowed than the phrase has
    digits, no call runs out of them (no RecursionError), and allowing
    still more changes neither the result nor the utterance. *)
Theorem normalise_phrase_nesting_bounded (w : Utterance.world) (depth depth' : nat) :
  (Utterance.count_digits (Utterance.phrase w) < depth)%nat ->
  (depth <= depth')%nat ->
  snd (Utterance.normalise_phrase_at depth w) <> Raise RecursionError
  /\ Utterance.normalise_phrase_at depth' w = Utterance.normalise_phrase_at depth w.
Proof.
  intros H1 H2.
  destruct (DepthFacts.normalise_phrase_at_enough depth depth' w H1 ltac:(lia)) as [Heq Hne].
  split; [exact Hne | now rewrite Heq].
Qed.

Lemma normalise_phrase_nesting_bounded_witness :
  snd (Utterance.normalise_phrase_at 5 (Utterance.mkWorld "1/2 3/4" []))
  <> Raise RecursionError
  /\ Utterance.normalise_phrase_at 1000 (Utterance.mkWorld "1/2 3/4" [])
     = Utterance.normalise_phrase_at 5 (Utterance.mkWorld "1/2 3/4" []).
Proof.
  apply (normalise_phrase_nesting_bounded (Utterance.mkWorld "1/2 3/4" []) 5 1000).
  - vm_compute. lia.
  - lia.
Defined.

(** X14. A date without a year is read day first: for [D/M] whose month
    [M] and day [D], leading zeros stripped, are keys of the tables of
    months and days, [normalise_dates] returns the month name and the
    day ordinal, in this order. *)
Theorem normalise_dates_day_and_month {S : Type} (s : S) (d mo mw dw : string) :
  Utterance.table_find Utterance.mths (Str.lstrip_zeros mo) = Some mw ->
  Utterance.table_find Utterance.dys (Str.lstrip_zeros d) = Some dw ->
  Utterance.normalise_dates (d +:+ "/" +:+ mo) s = (s, Ok (mw +:+ " " +:+ dw)).
Proof.
  intros Hmw Hdw.
  destruct (FormFacts.month_digits _ _ Hmw) as [Dmo Nmo].
  destruct (FormFacts.day_digits _ _ Hdw) as [Dd Nd].
  unfold Utterance.normalise_dates.
  rewrite (FormFacts.match_date_day_month d mo Nd Nmo Dd Dmo).
  cbn [Utterance.group1 Utterance.group2 Utterance.group3].
  unfold Utterance.date_no_year, Utterance.table_get, bind.
  now rewrite Hmw, Hdw.
Qed.

Lemma normalise_dates_day_and_month_witness :
  Utterance.normalise_dates ("04" +:+ "/" +:+ "007") tt
  = (tt, Ok ("july" +:+ " " +:+ "fourth")).
Proof.
  apply (normalise_dates_day_and_month tt "04" "007" "july" "fourth"); reflexivity.
Defined.

(** X15. A year whose last two digits are 10 to 19 is read as one word:
    for [D/M/Y] with valid day and month and a year [Y] of digits ending
    in such a pair, [normalise_dates] returns the month, the day,
    nineteen and the word of the pair. *)
Theorem normalise_dates_teen_year {S : Type} (s : S) (d mo c y mw dw yw : string) :
  Dates.all_digits c = true ->
  Utterance.table_find Utterance.mths (Str.lstrip_zeros mo) = Some mw ->
  Utterance.table_find Utterance.dys (Str.lstrip_zeros d) = Some dw ->
  Utterance.table_find Utterance.yrs_10to19 y = Some yw ->
  Utterance.normalise_dates (d +:+ "/" +:+ mo +:+ "/" +:+ c +:+ y) s
  = (s, Ok (mw +:+ " " +:+ dw +:+ " nineteen " +:+ yw)).
Proof.
  intros Dc Hmw Hdw Hyw.
  destruct (FormFacts.month_digits _ _ Hmw) as [Dmo Nmo].
  destruct (FormFacts.day_digits _ _ Hdw) as [Dd Nd].
  destruct (FormFacts.teen_two_digits _ _ Hyw) as (a & b & -> & Da & Db).
  pose proof (FormFacts.full_date_run s d mo c a b Nd Nmo Dd Dmo Dc Da Db) as Hrun.
  cbv zeta in Hrun. rewrite Hrun.
  unfold Utterance.table_mem. rewrite Hyw.
  unfold Utterance.date_teens, Utterance.table_get, bind.
  now rewrite Hmw, Hdw, Hyw.
Qed.

Lemma normalise_dates_teen_year_witness :
  Utterance.normalise_dates ("1" +:+ "/" +:+ "12" +:+ "/" +:+ "20" +:+ "13") tt
  = (tt, Ok ("december" +:+ " " +:+ "first" +:+ " nineteen " +:+ "thirteen")).
Proof.
  apply (normalise_dates_teen_year tt "1" "12" "20" "13" "december" "first" "thirteen");
    reflexivity.
Defined.

(** X16. Only the last two digits of the year count: whatever digits
    come before them, [normalise_dates] returns or raises the same as for
    the two-digit year. *)
Theorem normalise_dates_century_ignored {S : Type} (s : S) (d mo c : string) (a b : ascii) :
  d <> EmptyString -> mo <> EmptyString ->
  Dates.all_digits d = true -> Dates.all_digits mo = true ->
  Dates.all_digits c = true -> Str.is_digit a = true -> Str.is_digit b = true ->
  Utterance.normalise_dates (d +:+ "/" +:+ mo +:+ "/" +:+ c +:+ String a (String b EmptyString)) s
  = Utterance.normalise_dates (d +:+ "/" +:+ mo +:+ "/" +:+ String a (String b EmptyString)) s.
Proof.
  intros Nd Nmo Dd Dmo Dc Da Db.
  pose proof (FormFacts.full_date_run s d mo c a b Nd Nmo Dd Dmo Dc Da Db) as H1.
  pose proof (FormFacts.full_date_run s d mo EmptyString a b Nd Nmo Dd Dmo eq_refl Da Db)
    as H2.
  cbv zeta in H1, H2. rewrite DateFacts.append_nil_l in H2. now rewrite H1, H2.
Qed.

Lemma normalise_dates_century_ignored_witness :
  Utterance.normalise_dates ("9" +:+ "/" +:+ "3" +:+ "/" +:+ "20" +:+ "73") tt
  = Utterance.normalise_dates ("9" +:+ "/" +:+ "3" +:+ "/" +:+ "73") tt.
Proof.
  apply (normalise_dates_century_ignored tt "9" "3" "20" "7" "3");
    try reflexivity; discriminate.
Defined.

(** X17. A year ending in 0 other than 10 cannot be read: for a date
    with valid day and month whose year ends in a digit of the tens
    table followed by 0, [normalise_dates] raises KeyError on the key 0
    of the ones table. *)
Theorem normalise_dates_year_ending_in_zero {S : Type} (s : S) (d mo c : string)
    (a : ascii) (mw dw tw : string) :
  Dates.all_digits c = true ->
  Utterance.table_find Utterance.mths (Str.lstrip_zeros mo) = Some mw ->
  Utterance.table_find Utterance.dys (Str.lstrip_zeros d) = Some dw ->
  Utterance.table_find Utterance.yrs_tens (String a EmptyString) = Some tw ->
  Utterance.normalise_dates (d +:+ "/" +:+ mo +:+ "/" +:+ c +:+ String a (String "0" EmptyString)) s
  = (s, Raise (KeyError "0")).
Proof.
  intros Dc Hmw Hdw Htw.
  destruct (FormFacts.month_digits _ _ Hmw) as [Dmo Nmo].
  destruct (FormFacts.day_digits _ _ Hdw) as [Dd Nd].
  pose proof (FormFacts.full_date_run s d mo c a "0" Nd Nmo Dd Dmo Dc
                (FormFacts.tens_digit a tw Htw) eq_refl) as Hrun.
  cbv zeta in Hrun. rewrite Hrun.
  rewrite (YearFacts.tens_digit_not_teen a "0" tw Htw).
  unfold Utterance.date_tens_ones, Utterance.table_get, bind.
  rewrite Hmw, Hdw. unfold ret at 1 2.
  change (Utterance.str_get (String a (String "0" EmptyString)) 0 s)
    with (s, Ok (String a EmptyString)).
  cbv iota beta. rewrite Htw. reflexivity.
Qed.

Lemma normalise_dates_year_ending_in_zero_witness :
  Utterance.normalise_dates ("1" +:+ "/" +:+ "1" +:+ "/" +:+ "20" +:+ "00") tt
  = (tt, Raise (KeyError "0")).
Proof.
  apply (normalise_dates_year_ending_in_zero tt "1" "1" "20" "0" "january" "first" "o");
    reflexivity.
Defined.

(** X18. The KeyError handler of [get_phone_seq] covers the dictionary
    lookup only: a date with a day or a month out of range makes
    [get_phone_seq] raise the KeyError of [normalise_dates], whatever the
    dictionary holds; no phone is returned and nothing is printed. *)
Theorem get_phone_seq_date_out_of_range
    (dictionary : gmap string (list (list string))) (reverse : option string)
    (w : Utterance.world) (later : string) (m : Utterance.Match) :
  Dates.rescans (Utterance.phrase w) later ->
  Utterance.search_date later = Some m ->
  Dates.out_of_range m ->
  exists key,
    Utterance.get_phone_seq dictionary reverse w
    = (Utterance.mkWorld later (Utterance.stdout w), Raise (KeyError key)).
Proof.
  intros Hre Hs Hbad.
  destruct (RangeFacts.spoken_out_of_range m (DateFacts.search_date_again _ _ Hs) Hbad)
    as [key Hkey].
  exists key. unfold Utterance.get_phone_seq.
  apply run_bind_raise. unfold Utterance.normalise_phrase. destruct w as [text out].
  cbn [Utterance.phrase Utterance.stdout] in *.
  apply (RangeFacts.rescans_raise text later Hre m key); auto.
Qed.

Lemma get_phone_seq_date_out_of_range_witness :
  exists key,
    Utterance.get_phone_seq Lexicon.small (Some "words"%string)
      (Utterance.mkWorld "go home 31/13" [])
    = (Utterance.mkWorld "go home 31/13" [], Raise (KeyError key)).
Proof.
  apply (get_phone_seq_date_out_of_range Lexicon.small (Some "words"%string)
           (Utterance.mkWorld "go home 31/13" []) "go home 31/13"
           (Utterance.mkMatch "31/13" "31" "13" None)).
  - apply Dates.rescans_here.
  - reflexivity.
  - left. reflexivity.
Defined.

(** X19. [get_phone_seq] called again on the same utterance returns the
    same phones, and prints once more the lines it printed the first
    time. *)
Theorem get_phone_seq_twice
    (dictionary : gmap string (list (list string))) (reverse : option string)
    (w w1 : Utterance.world) (phones : list string) :
  Lexicon.entries_nonempty dictionary ->
  Utterance.get_phone_seq dictionary reverse w = (w1, Ok phones) ->
  exists lines,
    Utterance.stdout w1 = Utterance.stdout w ++ lines
    /\ Utterance.get_phone_seq dictionary reverse w1
       = (Lexicon.with_output w1 lines, Ok phones).
Proof.
  intros Hne H. unfold Utterance.get_phone_seq in H.
  destruct (Utterance.normalise_phrase w) as [w' [words | e]] eqn:Hn.
  2: { rewrite (run_bind_raise _ _ _ _ _ Hn) in H. discriminate H. }
  rewrite (run_bind_ok _ _ w w' words Hn) in H.
  erewrite run_bind_ok in H by (apply LexiconFacts.lookup_loop; exact Hne).
  unfold ret in H. inversion H as [[Hw Hp]]. subst w1 phones. clear H.
  unfold Utterance.normalise_phrase in Hn.
  destruct (SuccessFacts.normalise_phrase_at_success _ _ _ _ Hn) as (Hnone & Hwords & Hout & _).
  exists (Lexicon.not_found dictionary (Lexicon.words_order reverse words)).
  split; [simpl; now rewrite Hout |].
  unfold Utterance.get_phone_seq.
  set (w1 := Lexicon.with_output w' _).
  assert (Hagain : Utterance.normalise_phrase w1 = (w1, Ok words)).
  { rewrite Hwords. exact (SuccessFacts.normalise_phrase_no_date w1 Hnone). }
  rewrite (run_bind_ok _ _ _ _ words Hagain).
  erewrite run_bind_ok by (apply LexiconFacts.lookup_loop; exact Hne).
  reflexivity.
Qed.

Lemma get_phone_seq_twice_witness :
  exists lines,
    ["Word not found in the dictionary: zzz"%string] = [] ++ lines
    /\ Utterance.get_phone_seq Lexicon.small None
         (Utterance.mkWorld "go zzz home" ["Word not found in the dictionary: zzz"%string])
       = (Lexicon.with_output
            (Utterance.mkWorld "go zzz home" ["Word not found in the dictionary: zzz"%string])
            lines,
          Ok ["G"; "OW1"; "HH"; "OW1"; "M"]%string).
Proof.
  apply (get_phone_seq_twice Lexicon.small None (Utterance.mkWorld "go zzz home" [])
           (Utterance.mkWorld "go zzz home" ["Word not found in the dictionary: zzz"%string])
           ["G"; "OW1"; "HH"; "OW1"; "M"]%string).
  - intros word pronunciations H.
    unfold Lexicon.small in H.
    destruct (decide (word = "go"%string)) as [-> | Hgo].
    + rewrite lookup_insert_eq in H. now inversion H.
    + rewrite lookup_insert_ne in H by congruence.
      destruct (decide (word = "home"%string)) as [-> | Hhome].
      * rewrite lookup_insert_eq in H. now inversion H.
      * rewrite lookup_insert_ne in H by congruence.
        rewrite lookup_empty in H. discriminate H.
  - vm_compute. reflexivity.
Defined.

(** ** Units that occur more than once *)

Module RepeatFacts.

Import Synth Units Ramps Crossfade Repeats CrossfadeFacts.

Lemma samples_fold_count n middle : forall w v,
  samples_of (diphones (self (fold_left (both_ramps n) middle w))) v
  = Nat.iter (occurrences v middle) (fun a => tail_ramped n (head_ramped n a))
      (samples_of (diphones (self w)) v).
Proof.
  induction middle as [| u middle IH]; intros w v; [reflexivity |].
  simpl fold_left. rewrite IH, samples_both_ramps. simpl occurrences.
  destruct (decide (u = v)) as [-> | _]; [| reflexivity].
  change (1 + occurrences v middle)%nat with (Datatypes.S (occurrences v middle)).
  now rewrite Nat.iter_succ_r.
Qed.

Lemma samples_smoothed n first middle last w v :
  samples_of (diphones (self (smoothed n first middle last w))) v
  = ramped_after n first middle last (samples_of (diphones (self w))) v.
Proof.
  unfold smoothed, ramped_after. rewrite samples_beg_ramp.
  rewrite !samples_fold_count, !samples_end_ramp. cbv zeta.
  destruct (decide (last = v)) as [-> | _];
    destruct (decide (first = v)) as [-> | _]; reflexivity.
Qed.

End RepeatFacts.

(** X20. What crossfade leaves in the inventory, for units that may
    repeat: with the keys resolving to two or more units, each at least
    one window long, [synthesise] returns; it adds and removes no key and
    keeps every length, leaves the units it does not use as they were,
    and ramps a unit once for each of its occurrences: a tail ramp as the
    first unit, a head and a tail ramp for each occurrence between, a
    head ramp as the last unit. *)
Theorem crossfade_ramps_every_occurrence (phones : list string) (reverse : option string)
    (w : Synth.world) (n : nat) (first : Synth.ndarray) (middle : list Synth.ndarray)
    (last : Synth.ndarray) :
  let inventory := Synth.diphones (Synth.self w) in
  let units := first :: middle ++ [last] in
  Synth.affected_values (Synth.rate (Synth.self w)) = Z.of_nat n ->
  (0 < n)%nat ->
  Units.resolved inventory (Synth.phones_to_diphones phones) = units ->
  Forall (fun u => (n <= length (Units.samples_of inventory u))%nat) units ->
  exists w' audio,
    Synth.synthesise phones reverse true w = (w', Ok audio)
    /\ (forall u, Crossfade.shape w' u = Crossfade.shape w u)
    /\ (forall u, Units.samples_of (Synth.diphones (Synth.self w')) u
                  = Repeats.ramped_after n first middle last (Units.samples_of inventory) u)
    /\ (forall u, u ∉ units ->
          Synth.diphones (Synth.self w') !! u = inventory !! u).
Proof.
  intros inventory units Hrate Hn Hres Hlen.
  set (keys := Synth.phones_to_diphones phones) in *.
  set (w1 := Units.with_output w (Units.reported inventory keys)).
  assert (Hpresent : Forall (fun u => is_Some (inventory !! u)) units).
  { rewrite <- Hres. apply CrossfadeFacts.resolved_present. }
  assert (Hfits : Forall (Crossfade.fits n w1) units).
  { apply Forall_forall. intros u Hu.
    apply CrossfadeFacts.fits_of_present.
    - exact (proj1 (Forall_forall _ _) Hpresent u Hu).
    - exact (proj1 (Forall_forall _ _) Hlen u Hu). }
  inversion Hfits as [| ? ? Hf Hrest]; subst.
  apply Forall_app in Hrest as [Hm Hl]. inversion Hl as [| ? ? Hl' _]; subst.
  set (w' := Crossfade.smoothed n first middle last w1).
  assert (Hshape : forall v, Crossfade.shape w' v = Crossfade.shape w v).
  { intros v. unfold w'. rewrite CrossfadeFacts.shape_smoothed by assumption.
    apply CrossfadeFacts.shape_with_output. }
  assert (Hsamples : forall u, Units.samples_of (Synth.diphones (Synth.self w')) u
                     = Repeats.ramped_after n first middle last
                         (Units.samples_of inventory) u).
  { intros u. unfold w'. now rewrite RepeatFacts.samples_smoothed. }
  eexists w', _. split; [| split; [exact Hshape | split; [exact Hsamples |]]].
  - unfold Synth.synthesise.
    unfold bind at 1, gets at 1.
    rewrite (run_bind_ok _ _ _ _ _ (CrossfadeFacts.gather_crossfade keys [] [] w)).
    cbv zeta. simpl fst. simpl snd.
    fold inventory. fold keys. rewrite Hres, Hrate. fold w1.
    rewrite (run_bind_ok _ _ _ _ _
               (CrossfadeFacts.crossfade_run n first middle last w1 Hn Hf Hm Hl')).
    reflexivity.
  - intros u Hu.
    pose proof (Hshape u) as Hs. pose proof (Hsamples u) as Hv.
    unfold Crossfade.shape in Hs. fold inventory in Hs.
    assert (Hsame : Repeats.ramped_after n first middle last (Units.samples_of inventory) u
                    = Units.samples_of inventory u).
    { unfold Repeats.ramped_after.
      apply not_elem_of_cons in Hu as [Hfirst Hu].
      apply not_elem_of_app in Hu as [Hmid Hlast].
      destruct (decide (last = u)) as [E | _].
      { exfalso. apply Hlast. subst. now apply list_elem_of_singleton. }
      destruct (decide (first = u)) as [E | _]; [now contradict Hfirst |].
      replace (Repeats.occurrences u middle) with 0%nat; [reflexivity |].
      clear -Hmid. induction middle as [| v middle IH]; [reflexivity |].
      apply not_elem_of_cons in Hmid as [Hne Hmid]. simpl.
      destruct (decide (v = u)) as [E | _]; [now contradict Hne | now apply IH]. }
    rewrite Hsame in Hv. unfold Units.samples_of in Hv.
    destruct (Synth.diphones (Synth.self w') !! u) as [a' |] eqn:E1;
      destruct (inventory !! u) as [a |] eqn:E2; simpl in *; try discriminate Hs;
      [now subst | reflexivity].
Qed.

Lemma crossfade_ramps_every_occurrence_witness :
  exists w' audio,
    Synth.synthesise ["pau"%string] None true Examples.silence_only = (w', Ok audio)
    /\ (forall u, Crossfade.shape w' u = Crossfade.shape Examples.silence_only u)
    /\ (forall u, Units.samples_of (Synth.diphones (Synth.self w')) u
                  = Repeats.ramped_after 2 "pau-pau.wav" [] "pau-pau.wav"
                      (Units.samples_of (Synth.diphones (Synth.self Examples.silence_only))) u)
    /\ (forall u, u ∉ ["pau-pau.wav"; "pau-pau.wav"]%string ->
          Synth.diphones (Synth.self w') !! u
          = Synth.diphones (Synth.self Examples.silence_only) !! u).
Proof.
  apply (crossfade_ramps_every_occurrence ["pau"%string] None Examples.silence_only 2
           "pau-pau.wav" [] "pau-pau.wav").
  - reflexivity.
  - lia.
  - vm_compute. reflexivity.
  - repeat constructor; vm_compute; lia.
Defined.
